(** * Centroid algebra and adjacency of the virtual-noded BCC tetrahedral lattice

    A shallow embedding of [vnBccTetrahedra.cpp] (SkinFlaps).  Integer code is
    embedded over [Z]: an [int] is an unbounded integer (the values that occur
    are far from the 32-bit limits), an [unsigned short] is a [Z] in
    [0, 65536) with every store reduced modulo 65536, and a [short] is a [Z]
    in [-32768, 32768) with every store reduced to that range.  A [float] is
    a rational ([Q]).  The functions on points are embedded in exact
    arithmetic, which is what the code computes on whole-number points and
    wherever rounding cannot change the result, and, where it can, a second
    time in binary32 (the names that end in 32), with every [float]
    operation of the source rounded to the nearest binary32 number
    ([rnd32]). *)

From Stdlib Require Import ZArith List Bool Lia ZifyBool String QArith Qround Lqa Qabs.
Import ListNotations.

Local Open Scope Z_scope.

(** ** Machine integers *)

(** Store into an [unsigned short]. *)
Definition ushort (x : Z) : Z := x mod 65536.

(** Store into a [short] (two's complement). *)
Definition sshort (x : Z) : Z := (x + 32768) mod 65536 - 32768.

Definition USHRT_MAX : Z := 65535.

(** C truth value of an integer expression. *)
Definition truthy (x : Z) : bool := negb (x =? 0).

(** ** Three-component arrays indexed by an axis number *)

Definition triple (A : Type) : Type := (A * A * A)%type.

Definition at3 {A : Type} (v : triple A) (i : Z) : A :=
  let '(a, b, c) := v in
  match i with 0 => a | 1 => b | _ => c end.

Definition set3 {A : Type} (v : triple A) (i : Z) (x : A) : triple A :=
  let '(a, b, c) := v in
  match i with 0 => (x, b, c) | 1 => (a, x, c) | _ => (a, b, x) end.

(** [std::array<unsigned short, 3>] *)
Definition bccTetCentroid : Type := triple Z.

(** [v[i] += d] on an [unsigned short] array. *)
Definition addU (v : bccTetCentroid) (i d : Z) : bccTetCentroid :=
  set3 v i (ushort (at3 v i + d)).

(** [v[i] += d] on a [short] array. *)
Definition addS (v : triple Z) (i d : Z) : triple Z :=
  set3 v i (sshort (at3 v i + d)).

Definition centroid_eqb (a b : bccTetCentroid) : bool :=
  let '(a0, a1, a2) := a in
  let '(b0, b1, b2) := b in
  (a0 =? b0) && (a1 =? b1) && (a2 =? b2).

(** Every coordinate is a value of the [unsigned short] type. *)
Definition isUShort (x : Z) : bool := (0 <=? x) && (x <? 65536).

Definition in_ushort (tc : bccTetCentroid) : bool :=
  let '(a, b, c) := tc in isUShort a && isUShort b && isUShort c.

(** ** Errors *)

Inductive error : Type :=
| logic_error (what : string)
| no_half_axis
| undefined (what : string).

Inductive outcome (A : Type) : Type :=
| Done (a : A)
| Raise (e : error).
Arguments Done {A} a.
Arguments Raise {A} e.

Definition bind {A B : Type} (m : outcome A) (k : A -> outcome B) : outcome B :=
  match m with
  | Done a => k a
  | Raise e => Raise e
  end.

Notation "x <- m ;; k" := (bind m (fun x => k))
  (at level 61, m at next level, right associativity).
Notation "' p <- m ;; k" := (bind m (fun x => match x with p => k end))
  (at level 61, p pattern, m at next level, right associativity).

(** ** Decoding a centroid code *)

(** Modelled from the spec: [centroidHalfAxisSize] is declared in
    [vnBccTetrahedra.h], which is not part of the sources at hand.  The spec
    (4.1, decode) says it "finds the lowest set bit common across the pattern,
    identifying level; finds which axis carries that bit to identify the half
    axis" and that it fails if none is found.  The scan below is the one
    [insideTet] spells out inline: bit by bit from 1 upwards, axes in the
    order 0, 1, 2.  The sixteen bits of an [unsigned short] bound the scan. *)
Fixpoint halfAxisScan (bits : nat) (size : Z) (tc : bccTetCentroid) : option (Z * Z) :=
  match bits with
  | O => None
  | S n =>
      if truthy (Z.land (at3 tc 0) size) then Some (0, size)
      else if truthy (Z.land (at3 tc 1) size) then Some (1, size)
      else if truthy (Z.land (at3 tc 2) size) then Some (2, size)
      else halfAxisScan n (Z.shiftl size 1) tc
  end.

Definition centroidHalfAxisSize (tc : bccTetCentroid) : outcome (Z * Z) :=
  match halfAxisScan 16 1 tc with
  | Some r => Done r
  | None => Raise no_half_axis
  end.

(** ** Valid centroid codes *)

(** The codes of the tetrahedra of the lattice.  The lowest set bit is set on
    one axis only, the half axis, and the bit above it is set on exactly one
    of the two other axes: that is the (debug) assertion
    [(tcUp[c1] & levelX2) != (tcUp[c2] & levelX2)] that opens
    [centroidUpOneLevel]. *)
Definition validCentroid (tc : bccTetCentroid) : bool :=
  in_ushort tc &&
  match centroidHalfAxisSize tc with
  | Done (hc, size) =>
      let c1 := (hc + 1) mod 3 in
      let c2 := (hc + 2) mod 3 in
      (Z.land (at3 tc c1) size =? 0) && (Z.land (at3 tc c2) size =? 0)
      && negb (Z.land (at3 tc c1) (Z.shiftl size 1) =? Z.land (at3 tc c2) (Z.shiftl size 1))
  | Raise _ => false
  end.

(** The size found by decoding, 0 when there is none. *)
Definition centroidSize (tc : bccTetCentroid) : Z :=
  match centroidHalfAxisSize tc with
  | Done (_, size) => size
  | Raise _ => 0
  end.

(** The half axis found by decoding. *)
Definition centroidHalfAxis (tc : bccTetCentroid) : Z :=
  match centroidHalfAxisSize tc with
  | Done (hc, _) => hc
  | Raise _ => 0
  end.

(** A valid centroid of the finest level. *)
Definition validMicrotet (tc : bccTetCentroid) : bool :=
  validCentroid tc && (centroidSize tc =? 1).

(** ** [centroidToNodeLoci] *)

(** The node positions still doubled, as they stand before the final loop
    that halves them ([short gridLoci[4][3]]). *)
Definition nodeLociDoubled (centroid : bccTetCentroid) (hc size : Z) : list (triple Z) :=
  let levelUpBit := Z.shiftl size 1 in
  let c1 := if hc <? 2 then hc + 1 else 0 in
  let c2 := if 0 <? hc then hc - 1 else 2 in
  let g := (sshort (at3 centroid 0), sshort (at3 centroid 1), sshort (at3 centroid 2)) in
  let '(g0, g1, g2, g3) :=
    if Z.land (at3 centroid hc) levelUpBit =? Z.land (at3 centroid c2) levelUpBit then
      (addS g hc (- size), addS g hc (- size),
       addS (addS g hc size) c2 levelUpBit,
       addS (addS g hc size) c2 (- levelUpBit))
    else
      (addS g hc size, addS g hc size,
       addS (addS g hc (- size)) c2 (- levelUpBit),
       addS (addS g hc (- size)) c2 levelUpBit) in
  [addS g0 c1 (- levelUpBit); addS g1 c1 levelUpBit; g2; g3].

(** [gridLoci[j][k] *= 0.5f]: the product is taken in [float] and truncated
    towards zero when stored back into the [short]. *)
Definition halveShort (x : Z) : Z := Z.quot x 2.

Definition halveLocus (g : triple Z) : triple Z :=
  let '(a, b, c) := g in (halveShort a, halveShort b, halveShort c).

Definition centroidToNodeLoci (centroid : bccTetCentroid) : outcome (list (triple Z)) :=
  '(hc, size) <- centroidHalfAxisSize centroid;;
  Done (map halveLocus (nodeLociDoubled centroid hc size)).

(** ** [faceAdjacentMicrotet] *)

(** The result pairs the returned face number with the contents of the
    output parameter [tcAdj] at the time of the return.  The [_DEBUG]-only
    argument test is not part of the release build and is not modelled. *)
Definition faceAdjacentMicrotet (tc : bccTetCentroid) (face : Z) : Z * bccTetCentroid :=
  let tcAdj := tc in
  let ha := if truthy (Z.land (at3 tc 0) 1) then 0
            else if truthy (Z.land (at3 tc 1) 1) then 1 else 2 in
  let aha := (ha + 1) mod 3 in
  if truthy (Z.land (Z.shiftr (at3 tc ha + at3 tc aha) 1) 1) then
    (* up tet *)
    if (face <? 1) || (2 <? face) then
      if at3 tcAdj ha <? 1 then (-1, tcAdj)
      else
        let tcAdj := addU tcAdj ha (-1) in
        let aha := (ha + 2) mod 3 in
        if (2 <? face) && (at3 tcAdj aha <? 1) then (-1, tcAdj)
        else (1, addU tcAdj aha (if face <? 1 then 1 else -1))
    else
      let adjFace := if face <? 2 then 3 else 0 in
      let tcAdj := addU tcAdj ha 1 in
      if (1 <? face) && (at3 tcAdj aha <? 1) then (-1, tcAdj)
      else (adjFace, addU tcAdj aha (if face <? 2 then 1 else -1))
  else
    (* down tet *)
    if (face <? 1) || (2 <? face) then
      let tcAdj := addU tcAdj ha 1 in
      let aha := (ha + 2) mod 3 in
      if (face <? 1) && (at3 tcAdj aha <? 1) then (-1, tcAdj)
      else (2, addU tcAdj aha (if face <? 1 then -1 else 1))
    else
      let adjFace := if face <? 2 then 0 else 3 in
      if at3 tcAdj ha <? 1 then (-1, tcAdj)
      else
        let tcAdj := addU tcAdj ha (-1) in
        if (1 <? face) && (at3 tcAdj aha <? 1) then (-1, tcAdj)
        else (adjFace, addU tcAdj aha (if face <? 2 then 1 else -1)).

(** ** [faceAdjacentCentroid] *)

Definition faceAdjacentCentroidAt (ha size : Z) (tc : bccTetCentroid) (face : Z)
  : Z * bccTetCentroid :=
  let tcAdj := addU tc ha (- size) in
  if (face <? 1) || (2 <? face) then
    let aha := (ha + 2) mod 3 in
    let tcAdj := addU tcAdj aha size in
    if truthy (Z.land (Z.shiftr (at3 tc ha + at3 tc aha) 1) size) then
      (* down tet *)
      let tcAdj := addU tcAdj ha (2 * size) in
      if face <? size then
        if at3 tcAdj aha <? 2 * size then (-1, tcAdj)
        else (2, addU tcAdj aha (- (2 * size)))
      else (2, tcAdj)
    else
      if 2 <? face then
        if at3 tcAdj aha <? 2 * size then (-1, tcAdj)
        else (1, addU tcAdj aha (- (2 * size)))
      else (1, tcAdj)
  else
    let aha := (ha + 1) mod 3 in
    let tcAdj := addU tcAdj aha size in
    if (1 <? face) && (at3 tcAdj aha <? 2 * size) then (-1, tcAdj)
    else
      let tcAdj := if 1 <? face then addU tcAdj aha (- (2 * size)) else tcAdj in
      if truthy (Z.land (Z.shiftr (at3 tc ha + at3 tc aha) 1) size) then
        (* up tet *)
        (if 1 <? face then 0 else 3, addU tcAdj ha (2 * size))
      else (if 1 <? face then 3 else 0, tcAdj).

Definition faceAdjacentCentroid (tc : bccTetCentroid) (face : Z)
  : outcome (Z * bccTetCentroid) :=
  '(ha, size) <- centroidHalfAxisSize tc;;
  Done (faceAdjacentCentroidAt ha size tc face).

(** ** The shifts of the adjacency functions in unbounded integers *)

(** [v[i] += d] without reduction. *)
Definition addZ (v : triple Z) (i d : Z) : triple Z := set3 v i (at3 v i + d).

(** The coordinate shift that [faceAdjacentMicrotet] applies, taken in
    unbounded integers: the branches of the source with the bounds tests and
    the reduction modulo 65536 left out.  A negative coordinate of the result
    means that the neighbour is outside the positive octant. *)
Definition microtetShift (tc : bccTetCentroid) (face : Z) : triple Z :=
  let ha := if truthy (Z.land (at3 tc 0) 1) then 0
            else if truthy (Z.land (at3 tc 1) 1) then 1 else 2 in
  let aha := (ha + 1) mod 3 in
  if truthy (Z.land (Z.shiftr (at3 tc ha + at3 tc aha) 1) 1) then
    if (face <? 1) || (2 <? face) then
      addZ (addZ tc ha (-1)) ((ha + 2) mod 3) (if face <? 1 then 1 else -1)
    else
      addZ (addZ tc ha 1) aha (if face <? 2 then 1 else -1)
  else
    if (face <? 1) || (2 <? face) then
      addZ (addZ tc ha 1) ((ha + 2) mod 3) (if face <? 1 then -1 else 1)
    else
      addZ (addZ tc ha (-1)) aha (if face <? 2 then 1 else -1).

(** The same for [faceAdjacentCentroid]. *)
Definition centroidShiftAt (ha size : Z) (tc : bccTetCentroid) (face : Z) : triple Z :=
  let tcAdj := addZ tc ha (- size) in
  if (face <? 1) || (2 <? face) then
    let aha := (ha + 2) mod 3 in
    let tcAdj := addZ tcAdj aha size in
    if truthy (Z.land (Z.shiftr (at3 tc ha + at3 tc aha) 1) size) then
      let tcAdj := addZ tcAdj ha (2 * size) in
      if face <? size then addZ tcAdj aha (- (2 * size)) else tcAdj
    else
      if 2 <? face then addZ tcAdj aha (- (2 * size)) else tcAdj
  else
    let aha := (ha + 1) mod 3 in
    let tcAdj := addZ tcAdj aha size in
    let tcAdj := if 1 <? face then addZ tcAdj aha (- (2 * size)) else tcAdj in
    if truthy (Z.land (Z.shiftr (at3 tc ha + at3 tc aha) 1) size) then
      addZ tcAdj ha (2 * size)
    else tcAdj.

Definition hasNegative (v : triple Z) : bool :=
  let '(x, y, z) := v in (x <? 0) || (y <? 0) || (z <? 0).

Definition wrapUShort (v : triple Z) : bccTetCentroid :=
  let '(x, y, z) := v in (ushort x, ushort y, ushort z).

(** [faceAdjacentCentroid]'s shift in unbounded integers. *)
Definition centroidShift (tc : bccTetCentroid) (face : Z) : outcome (triple Z) :=
  '(ha, size) <- centroidHalfAxisSize tc;;
  Done (centroidShiftAt ha size tc face).

(** ** [subtetCentroids] *)

Definition markInvalid (tc : bccTetCentroid) : bccTetCentroid :=
  (USHRT_MAX, USHRT_MAX, USHRT_MAX).

Definition invalidCentroid : bccTetCentroid := (USHRT_MAX, USHRT_MAX, USHRT_MAX).

(** [if (tc[axis] < d) markInvalid(tc); else tc[axis] -= d;] *)
Definition subOrInvalid (tc : bccTetCentroid) (axis d : Z) : bccTetCentroid :=
  if at3 tc axis <? d then markInvalid tc else addU tc axis (- d).

Definition subtetCentroidsAt (hc level : Z) (macroCentroid : bccTetCentroid)
  : list bccTetCentroid :=
  let levelDown := Z.shiftr level 1 in
  let c1 := (hc + 1) mod 3 in
  let c2 := (hc + 2) mod 3 in
  let levelUp := Z.shiftl level 1 in
  let up := Z.land (at3 macroCentroid hc) levelUp =? Z.land (at3 macroCentroid c2) levelUp in
  let lo := addU macroCentroid hc (- levelDown) in
  let hi := addU macroCentroid hc levelDown in
  let '(s0, s1, s2, s3) := if up then (lo, lo, hi, hi) else (hi, hi, lo, lo) in
  let s0 := subOrInvalid s0 c1 level in
  let s1 := addU s1 c1 level in
  let '(s2, s3) :=
    if up then (addU s2 c2 level, subOrInvalid s3 c2 level)
    else (subOrInvalid s2 c2 level, addU s3 c2 level) in
  let s4 := subOrInvalid macroCentroid c1 levelDown in
  let s5 := addU macroCentroid c1 levelDown in
  let s6 := subOrInvalid macroCentroid c2 levelDown in
  let s7 := addU macroCentroid c2 levelDown in
  [s0; s1; s2; s3; s4; s5; s6; s7].

Definition subtetCentroids (macroCentroid : bccTetCentroid)
  : outcome (list bccTetCentroid) :=
  '(hc, level) <- centroidHalfAxisSize macroCentroid;;
  if level <? 2 then Raise (logic_error "Trying to get subtets from a level 1 centroid.")
  else Done (subtetCentroidsAt hc level macroCentroid).

(** ** [centroidUpOneLevel] *)

(** The [assert]s of the source are compiled out of a release build and are
    not modelled. *)
Definition centroidUpOneLevelAt (hc levelBit : Z) (tcIn : bccTetCentroid) : bccTetCentroid :=
  let levelX2 := Z.shiftl levelBit 1 in
  let levelX4 := Z.shiftl levelX2 1 in
  let c1 := (hc + 1) mod 3 in
  let c2 := (hc + 2) mod 3 in
  let tcUp := tcIn in
  let tcUp := addU tcUp hc (if truthy (Z.land (at3 tcUp hc) levelX2) then levelBit else - levelBit) in
  if truthy (Z.land (at3 tcUp c1) levelX2)
     && negb (Z.land (at3 tcUp hc) levelX4 =? Z.land (at3 tcUp c2) levelX4) then tcUp
  else if truthy (Z.land (at3 tcUp c2) levelX2)
     && negb (Z.land (at3 tcUp hc) levelX4 =? Z.land (at3 tcUp c1) levelX4) then tcUp
  else
    let tcUp := set3 tcUp hc (at3 tcIn hc) in
    let tcUp := addU tcUp hc (if truthy (Z.land (at3 tcUp hc) levelX2) then - levelBit else levelBit) in
    if truthy (Z.land (at3 tcUp c1) levelX2) then
      if truthy (Z.land (at3 tcUp c2) levelX4) then
        addU tcUp c1 (if truthy (Z.land (at3 tcUp c1) levelX4) then levelX2 else - levelX2)
      else
        addU tcUp c1 (if truthy (Z.land (at3 tcUp c1) levelX4) then - levelX2 else levelX2)
    else
      if truthy (Z.land (at3 tcUp c1) levelX4) then
        addU tcUp c2 (if truthy (Z.land (at3 tcUp c2) levelX4) then levelX2 else - levelX2)
      else
        addU tcUp c2 (if truthy (Z.land (at3 tcUp c2) levelX4) then - levelX2 else levelX2).

Definition centroidUpOneLevel (tcIn : bccTetCentroid) : outcome bccTetCentroid :=
  '(hc, levelBit) <- centroidHalfAxisSize tcIn;;
  Done (centroidUpOneLevelAt hc levelBit tcIn).

(** ** Floating-point vectors ([Vec3f]) over exact rationals *)

Definition Vec3f : Type := triple Q.

Definition Qlt_bool (x y : Q) : bool := negb (Qle_bool y x).

Definition vecOfShorts (g : triple Z) : Vec3f :=
  let '(a, b, c) := g in (inject_Z a, inject_Z b, inject_Z c).

Definition vadd (u v : Vec3f) : Vec3f :=
  let '(a, b, c) := u in let '(x, y, z) := v in ((a + x)%Q, (b + y)%Q, (c + z)%Q).

Definition vsub (u v : Vec3f) : Vec3f :=
  let '(a, b, c) := u in let '(x, y, z) := v in ((a - x)%Q, (b - y)%Q, (c - z)%Q).

Definition vscale (u : Vec3f) (k : Q) : Vec3f :=
  let '(a, b, c) := u in ((a * k)%Q, (b * k)%Q, (c * k)%Q).

(** [v[i] += d] on a [Vec3f]. *)
Definition addF (v : Vec3f) (i : Z) (d : Q) : Vec3f := set3 v i (at3 v i + d)%Q.

Definition veq (u v : Vec3f) : Prop :=
  let '(a, b, c) := u in let '(x, y, z) := v in (a == x /\ b == y /\ c == z)%Q.

(** [(unsigned short) f]: the fractional part is discarded.  The conversion
    is undefined in C++ when the truncated value is not representable; the
    reduction modulo 65536 stands for it there. *)
Definition Qtrunc (f : Q) : Z := Z.quot (Qnum f) (Zpos (Qden f)).

Definition floatToUShort (f : Q) : Z := ushort (Qtrunc f).

Definition vecToCentroid (v : Vec3f) : bccTetCentroid :=
  let '(a, b, c) := v in (floatToUShort a, floatToUShort b, floatToUShort c).

(** ** [unitCubeCentroids] *)

Definition half : Q := 1 # 2.

(** The overload that fills [Vec3f (&centroidLoci)[6]]. *)
Definition unitCubeCentroidLoci (minimumCorner : triple Z) : list Vec3f :=
  let s0 := truthy (Z.land (at3 minimumCorner 0) 1) in
  let s1 := truthy (Z.land (at3 minimumCorner 1) 1) in
  let s2 := truthy (Z.land (at3 minimumCorner 2) 1) in
  let split : triple bool :=
    if Bool.eqb s0 s1 && Bool.eqb s0 s2 then (true, true, true)
    else if Bool.eqb s0 s1 then (false, false, true)
    else if Bool.eqb s0 s2 then (false, true, false)
    else (true, false, false) in
  let center : Vec3f :=
    (inject_Z (at3 minimumCorner 0) + half,
     inject_Z (at3 minimumCorner 1) + half,
     inject_Z (at3 minimumCorner 2) + half)%Q in
  flat_map (fun i =>
    let c1 := if i <? 2 then i + 1 else 0 in
    let c2 := if c1 <? 2 then c1 + 1 else 0 in
    [ addF (addF center c1 half) c2 (if at3 split i then - half else half)%Q;
      addF (addF center c1 (- half)%Q) c2 (if at3 split i then half else - half)%Q ])
    [0; 1; 2].

(** The overload that fills [bccTetCentroid (&cntrd)[6]]. *)
Definition unitCubeCentroids (minimumCorner : triple Z) : list bccTetCentroid :=
  map (fun cl => vecToCentroid (vscale cl (200001 # 100000)))
      (unitCubeCentroidLoci minimumCorner).

(** ** [insideTet] (the [Vec3f] overload) *)

(** The opening [while (true)] scan.  It does not end on a centroid without a
    set bit; the sixteen bits of the coordinates bound the scan here and
    [None] stands for that case. *)
Fixpoint insideTetScan (bits : nat) (dd : Z) (tc : bccTetCentroid) : option (Z * Z) :=
  match bits with
  | O => None
  | S n =>
      if truthy (Z.land (at3 tc 0) dd) then Some (0, dd)
      else if truthy (Z.land (at3 tc 1) dd) then Some (1, dd)
      else if truthy (Z.land (at3 tc 2) dd) then Some (2, dd)
      else insideTetScan n (Z.shiftl dd 1) tc
  end.

(** [a > b] between a [float] expression and an [int] expression. *)
Definition gtInt (a : Q) (b : Z) : bool := Qlt_bool (inject_Z b) a.

Definition insideTetAt (hc dd0 : Z) (tc : bccTetCentroid) (gridLocus : Vec3f) : bool :=
  let dd := Z.shiftl dd0 1 in
  let c1 := (hc + 1) mod 3 in
  let c2 := (hc + 2) mod 3 in
  let up := Z.land (at3 tc hc) dd =? Z.land (at3 tc c2) dd in
  let g := at3 gridLocus in
  if up then
    let V0 := Z.shiftr (at3 tc c2) 1 in
    let V1 := if dd <? 3 then Z.shiftr (at3 tc hc) 1
              else Z.shiftr (at3 tc hc) 1 - Z.shiftr dd 2 in
    if gtInt (g c2 - g hc) (V0 - V1) then false
    else if gtInt (- g c2 - g hc) (- V0 - V1) then false
    else
      let V1 := if dd <? 3 then V1 + 1 else V1 + Z.shiftr dd 1 in
      let V0 := Z.shiftr (at3 tc c1) 1 in
      if gtInt (g c1 + g hc) (V0 + V1) then false
      else if gtInt (- g c1 + g hc) (- V0 + V1) then false
      else true
  else
    let V0 := Z.shiftr (at3 tc c2) 1 in
    let V1 := if dd <? 3 then Z.shiftr (at3 tc hc) 1 + 1
              else Z.shiftr (at3 tc hc) 1 + Z.shiftr dd 2 in
    if gtInt (g c2 + g hc) (V0 + V1) then false
    else if gtInt (- g c2 + g hc) (- V0 + V1) then false
    else
      let V1 := if dd <? 3 then V1 - 1 else V1 - Z.shiftr dd 1 in
      let V0 := Z.shiftr (at3 tc c1) 1 in
      if gtInt (g c1 - g hc) (V0 - V1) then false
      else if gtInt (- g c1 - g hc) (- V0 - V1) then false
      else true.

Definition insideTet (tc : bccTetCentroid) (gridLocus : Vec3f) : option bool :=
  match insideTetScan 16 1 tc with
  | Some (hc, dd) => Some (insideTetAt hc dd tc gridLocus)
  | None => None
  end.

(** ** The barycentre of the four nodes *)

Definition sumLoci (l : list (triple Z)) : triple Z :=
  fold_right (fun g acc =>
                let '(a, b, c) := g in let '(x, y, z) := acc in (a + x, b + y, c + z))
             (0, 0, 0) l.

(** The component-wise average of four node positions. *)
Definition average4 (l : list (triple Z)) : Vec3f :=
  let '(x, y, z) := sumLoci l in (inject_Z x / 4, inject_Z y / 4, inject_Z z / 4)%Q.

(** The centroid code divided by 2. *)
Definition halfCode (tc : bccTetCentroid) : Vec3f :=
  let '(x, y, z) := tc in (inject_Z x / 2, inject_Z y / 2, inject_Z z / 2)%Q.

Definition evenLocus (g : triple Z) : bool :=
  let '(a, b, c) := g in Z.even a && Z.even b && Z.even c.

(** The doubled node positions of [centroidToNodeLoci] are values of the
    [short] type without reduction: the largest is the half-axis coordinate
    plus the size, or a secondary coordinate plus twice the size. *)
Definition nodesFitShort (tc : bccTetCentroid) : bool :=
  match centroidHalfAxisSize tc with
  | Done (hc, size) =>
      (at3 tc hc + size <=? 32767)
      && (at3 tc ((hc + 1) mod 3) + 2 * size <=? 32767)
      && (at3 tc ((hc + 2) mod 3) + 2 * size <=? 32767)
  | Raise _ => false
  end.

(** ** The faces of a tet, for the tiling of a unit cube *)

(** The four amounts that [insideTet] requires not to be negative: the right
    side minus the left side of its four comparisons, in the order of the
    source. *)
Definition insideTetMargins (hc dd0 : Z) (tc : bccTetCentroid) (gridLocus : Vec3f) : list Q :=
  let dd := Z.shiftl dd0 1 in
  let c1 := (hc + 1) mod 3 in
  let c2 := (hc + 2) mod 3 in
  let up := Z.land (at3 tc hc) dd =? Z.land (at3 tc c2) dd in
  let g := at3 gridLocus in
  if up then
    let V0 := Z.shiftr (at3 tc c2) 1 in
    let V1 := if dd <? 3 then Z.shiftr (at3 tc hc) 1
              else Z.shiftr (at3 tc hc) 1 - Z.shiftr dd 2 in
    let V1' := if dd <? 3 then V1 + 1 else V1 + Z.shiftr dd 1 in
    let V0' := Z.shiftr (at3 tc c1) 1 in
    [ inject_Z (V0 - V1) - (g c2 - g hc);
      inject_Z (- V0 - V1) - (- g c2 - g hc);
      inject_Z (V0' + V1') - (g c1 + g hc);
      inject_Z (- V0' + V1') - (- g c1 + g hc) ]%Q
  else
    let V0 := Z.shiftr (at3 tc c2) 1 in
    let V1 := if dd <? 3 then Z.shiftr (at3 tc hc) 1 + 1
              else Z.shiftr (at3 tc hc) 1 + Z.shiftr dd 2 in
    let V1' := if dd <? 3 then V1 - 1 else V1 - Z.shiftr dd 1 in
    let V0' := Z.shiftr (at3 tc c1) 1 in
    [ inject_Z (V0 + V1) - (g c2 + g hc);
      inject_Z (- V0 + V1) - (- g c2 + g hc);
      inject_Z (V0' - V1') - (g c1 - g hc);
      inject_Z (- V0' - V1') - (- g c1 - g hc) ]%Q.

(** The point is in the tet and on one of its four bounding planes. *)
Definition onTetFace (tc : bccTetCentroid) (gridLocus : Vec3f) : bool :=
  match insideTetScan 16 1 tc with
  | Some (hc, dd) =>
      insideTetAt hc dd tc gridLocus
      && existsb (Qeq_bool 0) (insideTetMargins hc dd tc gridLocus)
  | None => false
  end.

Definition isInside (gridLocus : Vec3f) (tc : bccTetCentroid) : bool :=
  match insideTet tc gridLocus with
  | Some true => true
  | _ => false
  end.





(** The unit cubes whose six centroids are values of [unsigned short]: a
    minimum corner in the positive octant with coordinates up to 32766.  The
    conversion of the source is undefined in C++ for the others. *)
Definition cubeInRange (minimumCorner : triple Z) : bool :=
  let '(m0, m1, m2) := minimumCorner in
  (0 <=? m0) && (m0 <=? 32766) && (0 <=? m1) && (m1 <=? 32766)
  && (0 <=? m2) && (m2 <=? 32766).

(** The margins of [insideTet] for a tet of the finest level, written with
    the halves of its code: the half-axis coordinate of the code is
    [2 * A + 1] and the two others are [2 * B] and [2 * C]; [h], [c1], [c2]
    are the coordinates of the point on the same axes. *)
Definition microMargins (up : bool) (A B C : Z) (h c1 c2 : Q) : list Q :=
  if up then
    [ inject_Z (C - A) - (c2 - h);
      inject_Z (- C - A) - (- c2 - h);
      inject_Z (B + (A + 1)) - (c1 + h);
      inject_Z (- B + (A + 1)) - (- c1 + h) ]%Q
  else
    [ inject_Z (C + (A + 1)) - (c2 + h);
      inject_Z (- C + (A + 1)) - (- c2 + h);
      inject_Z (B - (A + 1 - 1)) - (c1 - h);
      inject_Z (- B - (A + 1 - 1)) - (- c1 - h) ]%Q.

(** ** [gridLocusToLowestTetCentroid] *)

Definition gt (a b : Q) : bool := Qlt_bool b a.

Definition gridLocusToLowestTetCentroid (gridLocus : Vec3f) : bccTetCentroid :=
  let tc : triple Z :=
    (sshort (Qfloor (at3 gridLocus 0)), sshort (Qfloor (at3 gridLocus 1)),
     sshort (Qfloor (at3 gridLocus 2))) in
  let dx := (at3 gridLocus 0 - inject_Z (at3 tc 0))%Q in
  let dy := (at3 gridLocus 1 - inject_Z (at3 tc 1))%Q in
  let dz := (at3 gridLocus 2 - inject_Z (at3 tc 2))%Q in
  let center : Vec3f :=
    (inject_Z (at3 tc 0) + half, inject_Z (at3 tc 1) + half, inject_Z (at3 tc 2) + half)%Q in
  let s0 := truthy (Z.land (at3 tc 0) 1) in
  let s1 := truthy (Z.land (at3 tc 1) 1) in
  let s2 := truthy (Z.land (at3 tc 2) 1) in
  let newC :=
    if Bool.eqb s0 s1 && Bool.eqb s0 s2 then
      if gt dx dy && gt dx dz then
        let n := addF center 0 half in
        if gt dy dz then addF n 2 (- half)%Q else addF n 1 (- half)%Q
      else if gt dy dx && gt dy dz then
        let n := addF center 1 half in
        if gt dx dz then addF n 2 (- half)%Q else addF n 0 (- half)%Q
      else
        let n := addF center 2 half in
        if gt dx dy then addF n 1 (- half)%Q else addF n 0 (- half)%Q
    else if Bool.eqb s0 s1 then
      let dz := (1 - dz)%Q in
      if gt dx dy && gt dx dz then
        let n := addF center 0 half in
        if gt dy dz then addF n 2 half else addF n 1 (- half)%Q
      else if gt dy dx && gt dy dz then
        let n := addF center 1 half in
        if gt dx dz then addF n 2 half else addF n 0 (- half)%Q
      else
        let n := addF center 2 (- half)%Q in
        if gt dx dy then addF n 1 (- half)%Q else addF n 0 (- half)%Q
    else if Bool.eqb s0 s2 then
      let dy := (1 - dy)%Q in
      if gt dx dy && gt dx dz then
        let n := addF center 0 half in
        if gt dy dz then addF n 2 (- half)%Q else addF n 1 half
      else if gt dy dx && gt dy dz then
        let n := addF center 1 (- half)%Q in
        if gt dx dz then addF n 2 (- half)%Q else addF n 0 (- half)%Q
      else
        let n := addF center 2 half in
        if gt dx dy then addF n 1 half else addF n 0 (- half)%Q
    else
      let dx := (1 - dx)%Q in
      if gt dx dy && gt dx dz then
        let n := addF center 0 (- half)%Q in
        if gt dy dz then addF n 2 (- half)%Q else addF n 1 (- half)%Q
      else if gt dy dx && gt dy dz then
        let n := addF center 1 half in
        if gt dx dz then addF n 2 (- half)%Q else addF n 0 half
      else
        let n := addF center 2 half in
        if gt dx dy then addF n 1 (- half)%Q else addF n 0 half in
  vecToCentroid (vscale newC (20001 # 10000)).

(** ** The lattice store *)

Definition quad (A : Type) : Type := (A * A * A * A)%type.

Definition at4 {A : Type} (v : quad A) (i : Z) : A :=
  let '(a, b, c, d) := v in
  match i with 0 => a | 1 => b | 2 => c | _ => d end.

Definition quadList {A : Type} (v : quad A) : list A :=
  let '(a, b, c, d) := v in [a; b; c; d].

(** [v[i]] on a [std::vector]; an index outside the vector is undefined in
    the source and reads the default here. *)
Definition vecAt {A : Type} (v : list A) (i : Z) (d : A) : A := nth (Z.to_nat i) v d.

(** The members of [vnBccTetrahedra] that the functions below read.
    [_tetHash] is the [unordered_multimap] from centroid to tet index, kept
    as the list of its entries in iteration order.  [triangleVertices] stands
    for [_mt->triangleVertices], the one service of the surface mesh that is
    used. *)
Record vnBccTetrahedra : Type := {
  _nodeGridLoci : list (triple Z);
  _tetNodes : list (quad Z);
  _tetCentroids : list bccTetCentroid;
  _tetHash : list (bccTetCentroid * Z);
  _vertexTets : list Z;
  _barycentricWeights : list Vec3f;
  _tetSubdivisionLevels : Z;
  triangleVertices : list (triple Z)
}.

Definition nodeLocus (vn : vnBccTetrahedra) (n : Z) : triple Z :=
  vecAt (_nodeGridLoci vn) n (0, 0, 0).

Definition tetNodes (vn : vnBccTetrahedra) (tet : Z) : quad Z :=
  vecAt (_tetNodes vn) tet (0, 0, 0, 0).

Definition tetCentroid (vn : vnBccTetrahedra) (tet : Z) : bccTetCentroid :=
  vecAt (_tetCentroids vn) tet (0, 0, 0).

(** [_tetHash.equal_range(tc)]: the tets stored under [tc]. *)
Definition equal_range (vn : vnBccTetrahedra) (tc : bccTetCentroid) : list Z :=
  map snd (filter (fun e => centroid_eqb (fst e) tc) (_tetHash vn)).

(** [_tetHash.find(tc)] *)
Definition hashFind (vn : vnBccTetrahedra) (tc : bccTetCentroid) : option Z :=
  match equal_range vn tc with
  | [] => None
  | t :: _ => Some t
  end.

(** ** [faceAdjacentMicrotets] *)

Definition memZ (x : Z) (l : list Z) : bool := existsb (Z.eqb x) l.

Definition faceNodeList (tn : quad Z) (face : Z) : list Z :=
  map (fun i => at4 tn (Z.land (face + i) 3)) [0; 1; 2].

Definition faceAdjacentMicrotets (vn : vnBccTetrahedra) (tet face : Z) : Z * list Z :=
  let '(adjFace, tcAdj) := faceAdjacentMicrotet (tetCentroid vn tet) face in
  let faceNodes := faceNodeList (tetNodes vn tet) face in
  let adjTets :=
    filter (fun cand =>
              forallb (fun n => memZ n faceNodes) (faceNodeList (tetNodes vn cand) adjFace))
           (equal_range vn tcAdj) in
  (adjFace, adjTets).

(** ** Barycentric weights and grid loci *)

Definition barycentricCombination (vn : vnBccTetrahedra) (tn : quad Z) (w : Vec3f) : Vec3f :=
  let g i := vecOfShorts (nodeLocus vn (at4 tn i)) in
  let g0 := vscale (g 0) (1 - at3 w 0 - at3 w 1 - at3 w 2)%Q in
  vadd (vadd (vadd g0 (vscale (g 1) (at3 w 0))) (vscale (g 2) (at3 w 1)))
       (vscale (g 3) (at3 w 2)).

(** The overload taking a tet index. *)
Definition barycentricWeightToGridLocus (vn : vnBccTetrahedra) (tet : Z)
  (barycentricWeight : Vec3f) : Vec3f :=
  barycentricCombination vn (tetNodes vn tet) barycentricWeight.

Definition vertexGridLocus (vn : vnBccTetrahedra) (vertex : Z) : Vec3f :=
  barycentricCombination vn (tetNodes vn (vecAt (_vertexTets vn) vertex 0))
    (vecAt (_barycentricWeights vn) vertex (0, 0, 0)%Q).

(** Modelled from the spec: [Mat3x3f.h] is not part of the sources at hand.
    A [Mat3x3f] is taken as its three columns: the constructor from three
    vectors takes the columns, the nine-float initialiser lists them column
    after column, and the product with a vector is the matrix-vector product.
    Under that reading the six constant matrices are the per-orientation
    inverses that spec 4.5 says they are. *)
Definition Mat3x3f : Type := triple Vec3f.

Definition matVec (M : Mat3x3f) (v : Vec3f) : Vec3f :=
  let '(c0, c1, c2) := M in
  vadd (vadd (vscale c0 (at3 v 0)) (vscale c1 (at3 v 1))) (vscale c2 (at3 v 2)).

Definition det3 (M : Mat3x3f) : Q :=
  let '((a, d, g), (b, e, h), (c, f, i)) := M in
  (a * (e * i - f * h) - b * (d * i - f * g) + c * (d * h - e * g))%Q.

Definition _barycentricInverses : list Mat3x3f :=
  let h := half in let m := (- half)%Q in
  [ ((m, h, h), (h, 0, 0), (0, h, m));
    ((0, h, m), (m, h, h), (h, 0, 0));
    ((h, 0, 0), (0, h, m), (m, h, h));
    ((h, m, m), (h, 0, 0), (0, m, h));
    ((0, m, h), (h, m, m), (h, 0, 0));
    ((h, 0, 0), (0, m, h), (h, m, m)) ]%Q.

Section PointLocation.

(** [Mat3x3f::Robust_Solve_Linear_System], from the matrix library that is
    not part of the sources at hand: any function may stand for it. *)
Variable Robust_Solve_Linear_System : Mat3x3f -> Vec3f -> Vec3f.

(** ** [gridLocusToBarycentricWeight] *)

Definition gridLocusToBarycentricWeight (vn : vnBccTetrahedra) (gridLocus : Vec3f)
  (tetCentroid : bccTetCentroid) : outcome Vec3f :=
  '(hc, size) <- centroidHalfAxisSize tetCentroid;;
  if 1 <? size then
    match equal_range vn tetCentroid with
    | [] => Raise (undefined "dereferenced the end of _tetHash")
    | t :: _ =>
        let tn := tetNodes vn t in
        let tV i := vecOfShorts (nodeLocus vn (at4 tn i)) in
        let M : Mat3x3f := (vsub (tV 1) (tV 0), vsub (tV 2) (tV 0), vsub (tV 3) (tV 0)) in
        Done (Robust_Solve_Linear_System M (vsub gridLocus (tV 0)))
    end
  else
    let xyz : triple Z :=
      (sshort (Z.shiftr (at3 tetCentroid 0) 1), sshort (Z.shiftr (at3 tetCentroid 1) 1),
       sshort (Z.shiftr (at3 tetCentroid 2) 1)) in
    let B := vsub gridLocus (vecOfShorts xyz) in
    if truthy (Z.land (at3 xyz hc + at3 xyz ((hc + 1) mod 3)) 1) then
      let baryInv := if hc <? 1 then 0 else if hc <? 2 then 1 else 2 in
      let B := addF B ((hc + 1) mod 3) 1 in
      Done (matVec (vecAt _barycentricInverses baryInv ((0,0,0),(0,0,0),(0,0,0))%Q) B)
    else
      let baryInv := if hc <? 1 then 3 else if hc <? 2 then 4 else 5 in
      let B := addF B hc (- (1))%Q in
      let B := addF B ((hc + 1) mod 3) 1 in
      Done (matVec (vecAt _barycentricInverses baryInv ((0,0,0),(0,0,0),(0,0,0))%Q) B).

(** ** [vertexSolidLinePath] *)

(** The opening loop.  [targetTets] is looked up once, before the loop, and
    the loop does not look it up again.  [calls] is not a variable of the
    source: it counts the calls of [centroidUpOneLevel], and the result
    carries the count. *)
Fixpoint promoteTarget (fuel : nat) (levels : Z) (targetTets : list Z)
  (tc : bccTetCentroid) (targetSize : Z) (calls : Z)
  : option (Z * outcome (bccTetCentroid * Z)) :=
  match targetTets with
  | _ :: _ => Some (calls, Done (tc, targetSize))
  | [] =>
      match fuel with
      | O => None
      | S n =>
          match centroidUpOneLevel tc with
          | Raise e => Some (calls + 1, Raise e)
          | Done tc =>
              let targetSize := targetSize + 1 in
              if levels <? targetSize then
                Some (calls + 1,
                      Raise (logic_error "Algorithm error in vnBccTetrahedra::vertexSolidLinePath()"))
              else promoteTarget n levels targetTets tc targetSize (calls + 1)
          end
      end
  end.

(** The [tetIntersect] lambda.  [p] is the captured running parameter; the
    result lists the return value and the final [tetSize], [tetFace] and
    [lineParam]. *)
Definition tetSizeOf (gl : list (triple Z)) (tetSize : Z) : Z :=
  let g0 := nth 0 gl (0, 0, 0) in
  let g1 := nth 1 gl (0, 0, 0) in
  if negb (at3 g0 0 =? at3 g1 0) then Z.shiftr (at3 g1 0 - at3 g0 0) 1
  else if negb (at3 g0 1 =? at3 g1 1) then Z.shiftr (at3 g1 1 - at3 g0 1) 1
  else if negb (at3 g0 2 =? at3 g1 2) then Z.shiftr (at3 g1 2 - at3 g0 2) 1
  else tetSize.

Fixpoint firstExitFace (gl : list (triple Z)) (vLoc N : Vec3f) (p : Q) (faces : list Z)
  : option (Z * Q) :=
  match faces with
  | [] => None
  | tetFace :: rest =>
      let V0 := vecOfShorts (nth (Z.to_nat tetFace) gl (0, 0, 0)) in
      let V1 := vsub (vecOfShorts (nth (Z.to_nat (Z.land (tetFace + 1) 3)) gl (0, 0, 0))) V0 in
      let V2 := vsub (vecOfShorts (nth (Z.to_nat (Z.land (tetFace + 2) 3)) gl (0, 0, 0))) V0 in
      let R := Robust_Solve_Linear_System (N, V1, V2) (vsub vLoc V0) in
      if gt (at3 R 0) p && Qle_bool 0 (at3 R 1) && Qle_bool (at3 R 1) 1
         && Qle_bool 0 (at3 R 2) && Qle_bool (at3 R 2) 1
         && Qle_bool (at3 R 1 + at3 R 2) 1
      then Some (tetFace, at3 R 0)
      else firstExitFace gl vLoc N p rest
  end.

Definition tetIntersect (vn : vnBccTetrahedra) (vLoc N : Vec3f) (tet tetSize : Z) (p : Q)
  : outcome (bool * Z * Z * Q) :=
  gl <- centroidToNodeLoci (tetCentroid vn tet);;
  let tetSize := tetSizeOf gl tetSize in
  match firstExitFace gl vLoc N p [0; 1; 2; 3] with
  | Some (tetFace, lineParam) => Done (true, tetSize, tetFace, lineParam)
  | None => Done (false, tetSize, 4, p)
  end.

(** The [do ... while] that looks for a populated coarser centroid. *)
Fixpoint lookUp (fuel : nat) (vn : vnBccTetrahedra) (tc : bccTetCentroid) (count : Z)
  : option (outcome (option Z)) :=
  match fuel with
  | O => None
  | S n =>
      match centroidUpOneLevel tc with
      | Raise e => Some (Raise e)
      | Done tc =>
          let tit := hashFind vn tc in
          let count := count + 1 in
          if (count <=? _tetSubdivisionLevels vn)
             && match tit with None => true | Some _ => false end
          then lookUp n vn tc count
          else Some (Done tit)
      end
  end.

(** The candidates that are left when the scan of a virtual-noded range
    stops: it stops at the first tet with a node in [nodeSet]. *)
Fixpoint skipUnconnected (vn : vnBccTetrahedra) (nodeSet : list Z) (pr : list Z) : list Z :=
  match pr with
  | [] => []
  | t :: rest =>
      if existsb (fun n => memZ n nodeSet) (quadList (tetNodes vn t)) then pr
      else skipUnconnected vn nodeSet rest
  end.

Inductive walkStep : Type :=
| Return (tet : Z)
| Continue (tetNow sizeNow face : Z) (p : Q).

(** One turn of the [while (p < 1.0f)] loop. *)
Definition solidLineStep (fuel : nat) (vn : vnBccTetrahedra) (vLoc N : Vec3f)
  (nodeSet : list Z) (tetNow sizeNow face : Z) (p : Q) : option (outcome walkStep) :=
  match faceAdjacentCentroid (tetCentroid vn tetNow) face with
  | Raise e => Some (Raise e)
  | Done (adjFace, tcAdj) =>
      let pr := equal_range vn tcAdj in
      let looked : option (outcome Z) :=
        match pr with
        | _ :: _ => Some (Done tetNow)
        | [] =>
            match lookUp fuel vn tcAdj 1 with
            | None => None
            | Some (Raise e) => Some (Raise e)
            | Some (Done (Some t)) => Some (Done t)
            | Some (Done None) =>
                match subtetCentroids tcAdj with
                | Raise e => Some (Raise e)
                | Done subC8 => Some (Done tetNow)
                end
            end
        end in
      match looked with
      | None => None
      | Some (Raise e) => Some (Raise e)
      | Some (Done tetNow) =>
          let tetNow := match pr with [t] => t | _ => tetNow end in
          match skipUnconnected vn nodeSet pr with
          | [] => Some (Done (Return (-1)))
          | tetNow :: _ =>
              match tetIntersect vn vLoc N tetNow sizeNow p with
              | Raise e => Some (Raise e)
              | Done (false, _, _, _) => Some (Done (Return (-1)))
              | Done (true, sizeNow, face, p) => Some (Done (Continue tetNow sizeNow face p))
              end
          end
      end
  end.

Fixpoint solidLineWalk (fuel : nat) (vn : vnBccTetrahedra) (vLoc N : Vec3f)
  (nodeSet : list Z) (tetNow sizeNow face : Z) (p : Q) : option (outcome Z) :=
  if Qlt_bool p 1 then
    match fuel with
    | O => None
    | S n =>
        match solidLineStep fuel vn vLoc N nodeSet tetNow sizeNow face p with
        | None => None
        | Some (Raise e) => Some (Raise e)
        | Some (Done (Return r)) => Some (Done r)
        | Some (Done (Continue tetNow sizeNow face p)) =>
            solidLineWalk n vn vLoc N nodeSet tetNow sizeNow face p
        end
    end
  else if gt p 1 then Some (Done tetNow)
  else Some (Done (-1)).

(** [None] stands for a run that [fuel] turns of its loops do not end. *)
Definition vertexSolidLinePath (fuel : nat) (vn : vnBccTetrahedra) (vertex : Z)
  (materialTarget : Vec3f) : option (outcome Z) :=
  let tc := gridLocusToLowestTetCentroid materialTarget in
  let targetTets := equal_range vn tc in
  match promoteTarget fuel (_tetSubdivisionLevels vn) targetTets tc 1 0 with
  | None => None
  | Some (_, Raise e) => Some (Raise e)
  | Some (_, Done (tc, targetSize)) =>
      match targetTets with
      | [t] => Some (Done t)
      | _ =>
          let vLoc := vertexGridLocus vn vertex in
          let N := vsub materialTarget vLoc in
          let tetNow := vecAt (_vertexTets vn) vertex 0 in
          let nodeSet := quadList (tetNodes vn tetNow) in
          (* [sizeNow] is not initialised in the source; 0 stands for it *)
          match tetIntersect vn vLoc N tetNow 0 0 with
          | Raise e => Some (Raise e)
          | Done (false, _, _, _) => Some (Done (-1))
          | Done (true, sizeNow, face, p) =>
              solidLineWalk fuel vn vLoc N nodeSet tetNow sizeNow face p
          end
      end
  end.

(** ** [parametricTriangleTet] *)

(** The loop that promotes [tC] until [_tetHash] has an entry for it; the
    result lists the final [tC], [level] and range.  [calls] is not a
    variable of the source: it counts the calls of [centroidUpOneLevel], and
    the result carries the count. *)
Fixpoint promoteToPopulated (fuel : nat) (vn : vnBccTetrahedra) (tC : bccTetCentroid)
  (level : Z) (pr : list Z) (calls : Z)
  : option (Z * outcome (bccTetCentroid * Z * list Z)) :=
  match pr with
  | _ :: _ => Some (calls, Done (tC, level, pr))
  | [] =>
      match fuel with
      | O => None
      | S n =>
          match centroidUpOneLevel tC with
          | Raise e => Some (calls + 1, Raise e)
          | Done tC =>
              let level := level + 1 in
              if 16 <? level then
                Some (calls + 1,
                      Raise (logic_error "Surface point chosen not embedded in an existing tetrahedron."))
              else promoteToPopulated n vn tC level (equal_range vn tC) (calls + 1)
          end
      end
  end.

(** The first candidate with a node in common with the tet of one of the
    triangle's vertices. *)
Definition sharesNeighborNode (vn : vnBccTetrahedra) (tr : triple Z) (cand : Z) : bool :=
  let lnodes := quadList (tetNodes vn cand) in
  existsb (fun i =>
             let vt := tetNodes vn (vecAt (_vertexTets vn) (at3 tr i) 0) in
             existsb (fun n => memZ n lnodes) (quadList vt))
          [0; 1; 2].

Fixpoint firstSolidPath (fuel : nat) (vn : vnBccTetrahedra) (gridLocus : Vec3f)
  (vertices : list Z) : option (outcome Z) :=
  match vertices with
  | [] => Some (Done (-1))
  | v :: rest =>
      match vertexSolidLinePath fuel vn v gridLocus with
      | None => None
      | Some (Raise e) => Some (Raise e)
      | Some (Done tet) =>
          if -1 <? tet then Some (Done tet) else firstSolidPath fuel vn gridLocus rest
      end
  end.

(** The point of the triangle at the parameters [uv], in lattice space. *)
Definition triangleGridLocus (vn : vnBccTetrahedra) (triangle : Z) (uv : Q * Q) : Vec3f :=
  let tr := vecAt (triangleVertices vn) triangle (0, 0, 0) in
  let tV i := vertexGridLocus vn (at3 tr i) in
  vadd (vadd (vscale (tV 0) (1 - fst uv - snd uv)%Q) (vscale (tV 1) (fst uv)))
       (vscale (tV 2) (snd uv)).

Definition parametricTriangleTet (fuel : nat) (vn : vnBccTetrahedra) (triangle : Z)
  (uv : Q * Q) : option (outcome (Z * Vec3f)) :=
  let tr := vecAt (triangleVertices vn) triangle (0, 0, 0) in
  let gridLocus := triangleGridLocus vn triangle uv in
  let tC := gridLocusToLowestTetCentroid gridLocus in
  match promoteToPopulated fuel vn tC 1 (equal_range vn tC) 0 with
  | None => None
  | Some (_, Raise e) => Some (Raise e)
  | Some (_, Done (tC, level, pr)) =>
      if 1 <? level then Some (Done (hd (-1) pr, gridLocus))
      else
        match find (fun i => centroid_eqb tC (tetCentroid vn (vecAt (_vertexTets vn) (at3 tr i) 0)))
                   [0; 1; 2] with
        | Some i => Some (Done (vecAt (_vertexTets vn) (at3 tr i) 0, gridLocus))
        | None =>
            match pr with
            | [] => Some (Done (-1, gridLocus))
            | [t] => Some (Done (t, gridLocus))
            | _ =>
                match find (sharesNeighborNode vn tr) pr with
                | Some t => Some (Done (t, gridLocus))
                | None =>
                    match firstSolidPath fuel vn gridLocus [at3 tr 0; at3 tr 1; at3 tr 2] with
                    | None => None
                    | Some (Raise e) => Some (Raise e)
                    | Some (Done tet) => Some (Done (tet, gridLocus))
                    end
                end
            end
        end
  end.

End PointLocation.


(** The calls of [centroidUpOneLevel] that the promotion loop of
    [parametricTriangleTet] makes on a query. *)
Definition parametricTriangleTetPromotions (fuel : nat) (vn : vnBccTetrahedra)
  (triangle : Z) (uv : Q * Q) : option Z :=
  let tC := gridLocusToLowestTetCentroid (triangleGridLocus vn triangle uv) in
  option_map fst (promoteToPopulated fuel vn tC 1 (equal_range vn tC) 0).

(** The calls of [centroidUpOneLevel] that the opening loop of
    [vertexSolidLinePath] makes on a query. *)
Definition vertexSolidLinePathPromotions (fuel : nat) (vn : vnBccTetrahedra)
  (materialTarget : Vec3f) : option Z :=
  let tc := gridLocusToLowestTetCentroid materialTarget in
  option_map fst (promoteTarget fuel (_tetSubdivisionLevels vn) (equal_range vn tc) tc 1 0).

(** How the promotion loop of [parametricTriangleTet] may end after [n] calls
    of [centroidUpOneLevel]: with a populated centroid, or with an error. *)
Definition populatedOrFatal16 (vn : vnBccTetrahedra) (n : Z)
  (r : outcome (bccTetCentroid * Z * list Z)) : Prop :=
  match r with
  | Done (tC, level, pr) => pr <> [] /\ level = n + 1
  | Raise e =>
      e = no_half_axis
      \/ (n = 16
          /\ e = logic_error "Surface point chosen not embedded in an existing tetrahedron.")
  end.

(** ** [parametricEdgeTet] *)

(** Modelled from the spec: [getVertexTetrahedron] is declared in the header,
    which is not among the sources at hand.  The vertex embedding of the spec
    holds for each vertex the index of the tet that contains it; this is the
    entry of [_vertexTets] that [parametricTriangleTet] reads directly. *)
Definition getVertexTetrahedron (vn : vnBccTetrahedra) (vertex : Z) : Z :=
  vecAt (_vertexTets vn) vertex 0.

(** The point of the edge at the parameter [param], in lattice space. *)
Definition edgeGridLocus (vn : vnBccTetrahedra) (vertex0 vertex1 : Z) (param : Q) : Vec3f :=
  vadd (vscale (vertexGridLocus vn vertex0) (1 - param)%Q)
       (vscale (vertexGridLocus vn vertex1) param).

(** The promotion loop is the loop of [parametricTriangleTet], statement by
    statement, and [promoteToPopulated] stands for both.  The [assert]s are
    compiled out of a release build: with two or more candidates the loops
    over them do nothing and the function returns -1. *)
Definition parametricEdgeTet (fuel : nat) (vn : vnBccTetrahedra) (vertex0 vertex1 : Z)
  (param : Q) : option (outcome (Z * Vec3f)) :=
  let gridLocus := edgeGridLocus vn vertex0 vertex1 param in
  let tC := gridLocusToLowestTetCentroid gridLocus in
  match promoteToPopulated fuel vn tC 1 (equal_range vn tC) 0 with
  | None => None
  | Some (_, Raise e) => Some (Raise e)
  | Some (_, Done (tC, level, pr)) =>
      if 1 <? level then Some (Done (hd (-1) pr, gridLocus))
      else
        let tetOut := getVertexTetrahedron vn vertex0 in
        if centroid_eqb tC (tetCentroid vn tetOut) then Some (Done (tetOut, gridLocus))
        else
          let tetOut := getVertexTetrahedron vn vertex1 in
          if centroid_eqb tC (tetCentroid vn tetOut) then Some (Done (tetOut, gridLocus))
          else
            match pr with
            | [] => Some (Done (-1, gridLocus))
            | [t] => Some (Done (t, gridLocus))
            | _ => Some (Done (-1, gridLocus))
            end
  end.

(** The calls of [centroidUpOneLevel] that the promotion loop of
    [parametricEdgeTet] makes on a query. *)
Definition parametricEdgeTetPromotions (fuel : nat) (vn : vnBccTetrahedra)
  (vertex0 vertex1 : Z) (param : Q) : option Z :=
  let tC := gridLocusToLowestTetCentroid (edgeGridLocus vn vertex0 vertex1 param) in
  option_map fst (promoteToPopulated fuel vn tC 1 (equal_range vn tC) 0).

(** How the opening loop of [vertexSolidLinePath] may end: with a populated
    range of target tets, or with an error. *)
Definition populatedOrFatal (targetTets : list Z) (r : outcome (bccTetCentroid * Z)) : Prop :=
  match r with
  | Done _ => targetTets <> []
  | Raise e =>
      e = no_half_axis
      \/ e = logic_error "Algorithm error in vnBccTetrahedra::vertexSolidLinePath()"
  end.

(** Every tet index in [_tetHash] and in [_vertexTets] is a non-negative
    number. *)
Definition wellIndexed (vn : vnBccTetrahedra) : bool :=
  forallb (fun e => 0 <=? snd e) (_tetHash vn) && forallb (Z.leb 0) (_vertexTets vn).

(** ** An exact solver *)

(** Cramer's rule, for running the functions that take the solver of the
    matrix library as a parameter.  A singular system gets the zero vector. *)
Definition cramerSolve (M : Mat3x3f) (b : Vec3f) : Vec3f :=
  let '(c0, c1, c2) := M in
  let d := det3 M in
  if Qeq_bool d 0 then (0, 0, 0)%Q
  else (det3 (b, c1, c2) / d, det3 (c0, b, c2) / d, det3 (c0, c1, b) / d)%Q.

(** ** Example stores *)

(** A two-tet region with a cut: tet 0 with centroid (1, 0, 2), its neighbour
    across face 0, tet 1 with centroid (2, 0, 1), and tet 2, a duplicate of
    tet 1 on nodes of its own (nodes 5 to 8 are at the positions of nodes
    0, 1, 2 and 4). *)
Definition cutRegion : vnBccTetrahedra := {|
  _nodeGridLoci := [(1, -1, 1); (1, 1, 1); (0, 0, 0); (0, 0, 2); (2, 0, 0);
                    (1, -1, 1); (1, 1, 1); (0, 0, 0); (2, 0, 0)];
  _tetNodes := [(0, 1, 2, 3); (2, 4, 1, 0); (7, 8, 6, 5)];
  _tetCentroids := [(1, 0, 2); (2, 0, 1); (2, 0, 1)];
  _tetHash := [((1, 0, 2), 0); ((2, 0, 1), 1); ((2, 0, 1), 2)];
  _vertexTets := [];
  _barycentricWeights := [];
  _tetSubdivisionLevels := 1;
  triangleVertices := []
|}.

(** Two tets far apart, (1, 0, 2) and (17, 0, 2), with a configured depth of
    2; vertices 0 and 2 sit at the barycentre of tet 0 and vertex 1 at the
    barycentre of tet 1; triangle 0 joins them across the gap. *)
Definition gapStore : vnBccTetrahedra := {|
  _nodeGridLoci := [(1, -1, 1); (1, 1, 1); (0, 0, 0); (0, 0, 2);
                    (9, -1, 1); (9, 1, 1); (8, 0, 0); (8, 0, 2)];
  _tetNodes := [(0, 1, 2, 3); (4, 5, 6, 7)];
  _tetCentroids := [(1, 0, 2); (17, 0, 2)];
  _tetHash := [((1, 0, 2), 0); ((17, 0, 2), 1)];
  _vertexTets := [0; 1; 0];
  _barycentricWeights := [(1 # 4, 1 # 4, 1 # 4); (1 # 4, 1 # 4, 1 # 4); (1 # 4, 1 # 4, 1 # 4)]%Q;
  _tetSubdivisionLevels := 2;
  triangleVertices := [(0, 1, 2)]
|}.

(** A junction that no node test can settle: tet 0, with centroid (5, 4, 6),
    and two pairs of duplicates, tets 1 and 2 under the centroid (6, 4, 5)
    across its face 0 and tets 3 and 4 under the centroid (4, 3, 6) across
    its face 2, every duplicate on four nodes of its own.  Vertex 0 sits at
    the barycentre of tet 0. *)
Definition junctionStore : vnBccTetrahedra := {|
  _nodeGridLoci :=
    [(3, 1, 3); (3, 3, 3); (2, 2, 2); (2, 2, 4);
     (2, 2, 2); (4, 2, 2); (3, 3, 3); (3, 1, 3);
     (2, 2, 2); (4, 2, 2); (3, 3, 3); (3, 1, 3);
     (2, 2, 2); (2, 2, 4); (1, 1, 3); (3, 1, 3);
     (2, 2, 2); (2, 2, 4); (1, 1, 3); (3, 1, 3)];
  _tetNodes := [(0, 1, 2, 3); (4, 5, 6, 7); (8, 9, 10, 11); (12, 13, 14, 15);
                (16, 17, 18, 19)];
  _tetCentroids := [(5, 4, 6); (6, 4, 5); (6, 4, 5); (4, 3, 6); (4, 3, 6)];
  _tetHash := [((5, 4, 6), 0); ((6, 4, 5), 1); ((6, 4, 5), 2); ((4, 3, 6), 3);
               ((4, 3, 6), 4)];
  _vertexTets := [0];
  _barycentricWeights := [(1 # 4, 1 # 4, 1 # 4)%Q];
  _tetSubdivisionLevels := 1;
  triangleVertices := []
|}.

(** A point of the cell of the centroid (6, 4, 5). *)
Definition junctionTarget : Vec3f := (31 # 10, 21 # 10, 24 # 10)%Q.

(** ** The closed tet by its barycentric weights *)

(** The margins of [insideTet] for a tet of size [s], by the coordinates of
    its code: the half-axis coordinate is [s * (2 * A + 1)] and the two
    others are [s * (2 * B)] and [s * (2 * C)]. *)
Definition tetMargins (up : bool) (s A B C : Z) (h c1 c2 : Q) : list Q :=
  if up then
    [ inject_Z (s * C - s * A) - (c2 - h);
      inject_Z (- (s * C) - s * A) - (- c2 - h);
      inject_Z (s * B + (s * A + s)) - (c1 + h);
      inject_Z (- (s * B) + (s * A + s)) - (- c1 + h) ]%Q
  else
    [ inject_Z (s * C + (s * A + s)) - (c2 + h);
      inject_Z (- (s * C) + (s * A + s)) - (- c2 + h);
      inject_Z (s * B - s * A) - (c1 - h);
      inject_Z (- (s * B) - s * A) - (- c1 - h) ]%Q.

(** The unit cubes for which the factor 2.0001 of
    [gridLocusToLowestTetCentroid] still gives the doubled coordinates: a
    minimum corner with coordinates between 0 and 9998. *)
Definition lowRange (m : triple Z) : bool :=
  let '(m0, m1, m2) := m in
  (0 <=? m0) && (m0 <=? 9998) && (0 <=? m1) && (m1 <=? 9998)
  && (0 <=? m2) && (m2 <=? 9998).

(** The unit cube that [std::floor] selects for the point. *)
Definition inCell (minimumCorner : triple Z) (gridLocus : Vec3f) : Prop :=
  let '(m0, m1, m2) := minimumCorner in
  let '(x, y, z) := gridLocus in
  (inject_Z m0 <= x < inject_Z m0 + 1 /\ inject_Z m1 <= y < inject_Z m1 + 1
   /\ inject_Z m2 <= z < inject_Z m2 + 1)%Q.

(** ** [insideTet] (the overload taking a node position) *)

Definition insideTetNodeAt (hc dd0 : Z) (tc : bccTetCentroid) (nodeLocus : triple Z) : bool :=
  let dd := Z.shiftl dd0 1 in
  let c1 := (hc + 1) mod 3 in
  let c2 := (hc + 2) mod 3 in
  let up := Z.land (at3 tc hc) dd =? Z.land (at3 tc c2) dd in
  let g := at3 nodeLocus in
  if up then
    let V0 := Z.shiftr (at3 tc c2) 1 in
    let V1 := if dd <? 3 then Z.shiftr (at3 tc hc) 1
              else Z.shiftr (at3 tc hc) 1 + Z.shiftr dd 2 in
    if V0 - V1 <? g c2 - g hc then false
    else if - V0 - V1 <? - g c2 - g hc then false
    else
      let V1 := if dd <? 3 then V1 + 1 else V1 + Z.shiftr dd 1 in
      let V0 := Z.shiftr (at3 tc c1) 1 in
      if V0 + V1 <? g c1 + g hc then false
      else if - V0 + V1 <? - g c1 + g hc then false
      else true
  else
    let V0 := Z.shiftr (at3 tc c2) 1 in
    let V1 := if dd <? 3 then Z.shiftr (at3 tc hc) 1 + 1
              else Z.shiftr (at3 tc hc) 1 + Z.shiftr dd 2 in
    if V0 + V1 <? g c2 + g hc then false
    else if - V0 + V1 <? - g c2 + g hc then false
    else
      let V1 := if dd <? 3 then V1 - 1 else V1 - Z.shiftr dd 1 in
      let V0 := Z.shiftr (at3 tc c1) 1 in
      if V0 - V1 <? g c1 - g hc then false
      else if - V0 - V1 <? - g c1 - g hc then false
      else true.

(** The scan is the one of the [Vec3f] overload. *)
Definition insideTetNode (tc : bccTetCentroid) (nodeLocus : triple Z) : option bool :=
  match insideTetScan 16 1 tc with
  | Some (hc, dd) => Some (insideTetNodeAt hc dd tc nodeLocus)
  | None => None
  end.

(** The [up] flag of the two overloads of [insideTet]. *)
Definition upTet (tc : bccTetCentroid) : bool :=
  match insideTetScan 16 1 tc with
  | Some (hc, dd) =>
      Z.land (at3 tc hc) (Z.shiftl dd 1) =? Z.land (at3 tc ((hc + 2) mod 3)) (Z.shiftl dd 1)
  | None => false
  end.

(** ** [nodeMicroCentroids] *)

(** The casts to [unsigned short], [tc[dim] += pos] and [tc[i] <<= 1] are
    stores into [unsigned short]s. *)
Definition nodeMicroCentroids (node : triple Z) : list bccTetCentroid :=
  flat_map (fun dim =>
    flat_map (fun pos =>
      let tc : bccTetCentroid :=
        (ushort (at3 node 0), ushort (at3 node 1), ushort (at3 node 2)) in
      let tc := addU tc dim pos in
      let tc : bccTetCentroid :=
        (ushort (Z.shiftl (at3 tc 0) 1), ushort (Z.shiftl (at3 tc 1) 1),
         ushort (Z.shiftl (at3 tc 2) 1)) in
      map (fun i =>
             let hc := (Z.shiftr i 1 + 1 + dim) mod 3 in
             if truthy (Z.land i 1) then addU tc hc 1 else addU tc hc (-1))
          [0; 1; 2; 3])
      [-1; 1])
    [0; 1; 2].

(** The nodes of the lattice away from its borders: the three coordinates
    have one parity and lie between 1 and 16381, so that the codes of the
    tets around the node and the doubled positions of their nodes fit their
    16-bit types. *)
Definition latticeNode (node : triple Z) : bool :=
  let '(a, b, c) := node in
  (1 <=? a) && (a <=? 16381) && (1 <=? b) && (b <=? 16381) && (1 <=? c) && (c <=? 16381)
  && (a mod 2 =? b mod 2) && (b mod 2 =? c mod 2).

(** ** Renaming the axes *)

(** The same code with the axes renamed cyclically: axis [i] becomes axis
    [(i + 1) % 3]. *)
Definition cycleAxes {A : Type} (v : triple A) : triple A :=
  let '(a, b, c) := v in (c, a, b).

(** What [subtetCentroids] and [centroidUpOneLevel] do on the coordinates of
    a child of the parent [P] of size [2 ^ (j + 1)] with half axis [hc]: the
    child is [2 ^ j] times an odd count on its own half axis [h] and even
    counts of different halves on the two others, the promotion at [h]
    gives [P], and a point that [insideTet] accepts for the child is accepted
    for [P]. *)
Definition childUnits (j : nat) (hc : Z) (P child : bccTetCentroid) : Prop :=
  exists h K0 K1 K2 : Z,
    0 <= h < 3 /\ in_ushort child = true
    /\ at3 child h = 2 ^ Z.of_nat j * K0
    /\ at3 child ((h + 1) mod 3) = 2 ^ Z.of_nat j * K1
    /\ at3 child ((h + 2) mod 3) = 2 ^ Z.of_nat j * K2
    /\ K0 mod 2 = 1 /\ K1 mod 2 = 0 /\ K2 mod 2 = 0
    /\ (K1 / 2) mod 2 <> (K2 / 2) mod 2
    /\ centroidUpOneLevelAt h (2 ^ Z.of_nat j) child = P
    /\ (forall p : Vec3f,
          insideTetAt h (2 ^ Z.of_nat j) child p = true ->
          insideTetAt hc (2 ^ Z.of_nat (S j)) P p = true).

Definition childrenPromote (j : nat) (hc : Z) (P : bccTetCentroid) : Prop :=
  forall child : bccTetCentroid,
    In child (subtetCentroidsAt hc (2 ^ Z.of_nat (S j)) P) ->
    child <> invalidCentroid ->
    childUnits j hc P child.

(** ** The face crossed by [faceAdjacentMicrotet] *)

(** [tn[(face + i) & 3]] for [i = 0, 1, 2], the face of
    [faceAdjacentMicrotets], on the positions of the four nodes. *)
Definition faceLoci (gl : list (triple Z)) (face : Z) : list (triple Z) :=
  map (fun i => nth (Z.to_nat (Z.land (face + i) 3)) gl (0, 0, 0)) [0; 1; 2].

(** The node opposite to the face, [tn[(face + 3) & 3]]. *)
Definition apexLocus (gl : list (triple Z)) (face : Z) : triple Z :=
  nth (Z.to_nat (Z.land (face + 3) 3)) gl (0, 0, 0).

(** ** [faceAdjacentCentroid] at every size *)

(** A code of the finest level taken to the size [s]: every valid code of
    size [s] is such a multiple. *)
Definition scaleCode (s : Z) (tc : triple Z) : triple Z :=
  let '(a, b, c) := tc in (s * a, s * b, s * c).

(** [faceAdjacentCentroid] on the multiple against [faceAdjacentMicrotet] on
    the code of the finest level: the same face, and the multiple of the same
    neighbour. *)
Definition scalesAt (j : nat) (hc : Z) (K : bccTetCentroid) (face : Z) : Prop :=
  let r := faceAdjacentCentroidAt hc (2 ^ Z.of_nat j) (scaleCode (2 ^ Z.of_nat j) K) face in
  let m := faceAdjacentMicrotet K face in
  fst r = fst m /\ (fst r <> -1 -> snd r = scaleCode (2 ^ Z.of_nat j) (snd m)).

(** * Binary32 arithmetic *)

(** [2 ^ k] for an exponent of either sign. *)
Definition pow2Q (k : Z) : Q :=
  if 0 <=? k then inject_Z (2 ^ k) else (1 # Z.to_pos (2 ^ (- k)))%Q.

(** The exponent of the leading bit of a positive rational: the [e] with
    [2 ^ e <= q < 2 ^ (e + 1)]. *)
Definition ilog2 (q : Q) : Z :=
  let a := Qnum q in
  let b := Zpos (Qden q) in
  let e := Z.log2 a - Z.log2 b in
  if a * 2 ^ Z.log2 b <? b * 2 ^ Z.log2 a then e - 1 else e.

(** The nearest integer, the even one of the two on a tie. *)
Definition roundHalfEven (x : Q) : Z :=
  let f := Qfloor x in
  match (x - inject_Z f ?= 1 # 2)%Q with
  | Lt => f
  | Gt => f + 1
  | Eq => if Z.even f then f else f + 1
  end.

(** The binary32 number nearest to [q], ties to even: 24 significant bits,
    the last of them worth [2 ^ u], and no bit below [2 ^ -149]. *)
Definition nearest32 (q : Q) : Q :=
  let q := Qred q in
  if Qeq_bool q 0 then 0%Q
  else
    let u := Z.max (ilog2 (Qabs q) - 23) (-149) in
    (inject_Z (roundHalfEven (q * pow2Q (- u))) * pow2Q u)%Q.

(** What a [float] holds after an operation whose exact result is [q]: [q]
    itself when binary32 has it, the nearest binary32 number otherwise.
    Results beyond the largest [float] do not occur below. *)
Definition rnd32 (q : Q) : Q :=
  if Qeq_bool (nearest32 q) q then q else nearest32 q.

(** ** The point functions in binary32

    The functions of this part are those of the parts above with every
    [float] operation of the source rounded: a sum, a difference or a product
    of two [float]s is [rnd32] of the exact one.  The conversion of a
    [short] or an [int] to [float] is exact, and so are [std::floor], the
    change of sign and the comparisons.  This is the evaluation of [float]
    expressions in single precision, operation by operation (no wider
    intermediate results, no fused multiply-add).

    The literals [2.0001f] and [2.00001f]: *)
Definition float2_0001 : Q := rnd32 (20001 # 10000).

Definition float2_00001 : Q := rnd32 (200001 # 100000).

(** [v[i] += d] on a [Vec3f]. *)
Definition addF32 (v : Vec3f) (i : Z) (d : Q) : Vec3f := set3 v i (rnd32 (at3 v i + d)).

(** [v *= k] on a [Vec3f]. *)
Definition vscale32 (u : Vec3f) (k : Q) : Vec3f :=
  let '(a, b, c) := u in (rnd32 (a * k), rnd32 (b * k), rnd32 (c * k)).

(** [unitCubeCentroids], the overload that fills [Vec3f (&centroidLoci)[6]]. *)
Definition unitCubeCentroidLoci32 (minimumCorner : triple Z) : list Vec3f :=
  let s0 := truthy (Z.land (at3 minimumCorner 0) 1) in
  let s1 := truthy (Z.land (at3 minimumCorner 1) 1) in
  let s2 := truthy (Z.land (at3 minimumCorner 2) 1) in
  let split : triple bool :=
    if Bool.eqb s0 s1 && Bool.eqb s0 s2 then (true, true, true)
    else if Bool.eqb s0 s1 then (false, false, true)
    else if Bool.eqb s0 s2 then (false, true, false)
    else (true, false, false) in
  let center : Vec3f :=
    (rnd32 (inject_Z (at3 minimumCorner 0) + half),
     rnd32 (inject_Z (at3 minimumCorner 1) + half),
     rnd32 (inject_Z (at3 minimumCorner 2) + half)) in
  flat_map (fun i =>
    let c1 := if i <? 2 then i + 1 else 0 in
    let c2 := if c1 <? 2 then c1 + 1 else 0 in
    [ addF32 (addF32 center c1 half) c2 (if at3 split i then - half else half)%Q;
      addF32 (addF32 center c1 (- half)%Q) c2 (if at3 split i then half else - half)%Q ])
    [0; 1; 2].

(** [unitCubeCentroids], the overload that fills [bccTetCentroid (&cntrd)[6]]. *)
Definition unitCubeCentroids32 (minimumCorner : triple Z) : list bccTetCentroid :=
  map (fun cl => vecToCentroid (vscale32 cl float2_00001))
      (unitCubeCentroidLoci32 minimumCorner).

(** [insideTet], the [Vec3f] overload, after the scan. *)
Definition insideTetAt32 (hc dd0 : Z) (tc : bccTetCentroid) (gridLocus : Vec3f) : bool :=
  let dd := Z.shiftl dd0 1 in
  let c1 := (hc + 1) mod 3 in
  let c2 := (hc + 2) mod 3 in
  let up := Z.land (at3 tc hc) dd =? Z.land (at3 tc c2) dd in
  let g := at3 gridLocus in
  if up then
    let V0 := Z.shiftr (at3 tc c2) 1 in
    let V1 := if dd <? 3 then Z.shiftr (at3 tc hc) 1
              else Z.shiftr (at3 tc hc) 1 - Z.shiftr dd 2 in
    if gtInt (rnd32 (g c2 - g hc)) (V0 - V1) then false
    else if gtInt (rnd32 (- g c2 - g hc)) (- V0 - V1) then false
    else
      let V1 := if dd <? 3 then V1 + 1 else V1 + Z.shiftr dd 1 in
      let V0 := Z.shiftr (at3 tc c1) 1 in
      if gtInt (rnd32 (g c1 + g hc)) (V0 + V1) then false
      else if gtInt (rnd32 (- g c1 + g hc)) (- V0 + V1) then false
      else true
  else
    let V0 := Z.shiftr (at3 tc c2) 1 in
    let V1 := if dd <? 3 then Z.shiftr (at3 tc hc) 1 + 1
              else Z.shiftr (at3 tc hc) 1 + Z.shiftr dd 2 in
    if gtInt (rnd32 (g c2 + g hc)) (V0 + V1) then false
    else if gtInt (rnd32 (- g c2 + g hc)) (- V0 + V1) then false
    else
      let V1 := if dd <? 3 then V1 - 1 else V1 - Z.shiftr dd 1 in
      let V0 := Z.shiftr (at3 tc c1) 1 in
      if gtInt (rnd32 (g c1 - g hc)) (V0 - V1) then false
      else if gtInt (rnd32 (- g c1 - g hc)) (- V0 - V1) then false
      else true.

Definition insideTet32 (tc : bccTetCentroid) (gridLocus : Vec3f) : option bool :=
  match insideTetScan 16 1 tc with
  | Some (hc, dd) => Some (insideTetAt32 hc dd tc gridLocus)
  | None => None
  end.



Definition gridLocusToLowestTetCentroid32 (gridLocus : Vec3f) : bccTetCentroid :=
  let tc : triple Z :=
    (sshort (Qfloor (at3 gridLocus 0)), sshort (Qfloor (at3 gridLocus 1)),
     sshort (Qfloor (at3 gridLocus 2))) in
  let dx := rnd32 (at3 gridLocus 0 - inject_Z (at3 tc 0)) in
  let dy := rnd32 (at3 gridLocus 1 - inject_Z (at3 tc 1)) in
  let dz := rnd32 (at3 gridLocus 2 - inject_Z (at3 tc 2)) in
  let center : Vec3f :=
    (rnd32 (inject_Z (at3 tc 0) + half), rnd32 (inject_Z (at3 tc 1) + half),
     rnd32 (inject_Z (at3 tc 2) + half)) in
  let s0 := truthy (Z.land (at3 tc 0) 1) in
  let s1 := truthy (Z.land (at3 tc 1) 1) in
  let s2 := truthy (Z.land (at3 tc 2) 1) in
  let newC :=
    if Bool.eqb s0 s1 && Bool.eqb s0 s2 then
      if gt dx dy && gt dx dz then
        let n := addF32 center 0 half in
        if gt dy dz then addF32 n 2 (- half)%Q else addF32 n 1 (- half)%Q
      else if gt dy dx && gt dy dz then
        let n := addF32 center 1 half in
        if gt dx dz then addF32 n 2 (- half)%Q else addF32 n 0 (- half)%Q
      else
        let n := addF32 center 2 half in
        if gt dx dy then addF32 n 1 (- half)%Q else addF32 n 0 (- half)%Q
    else if Bool.eqb s0 s1 then
      let dz := rnd32 (1 - dz) in
      if gt dx dy && gt dx dz then
        let n := addF32 center 0 half in
        if gt dy dz then addF32 n 2 half else addF32 n 1 (- half)%Q
      else if gt dy dx && gt dy dz then
        let n := addF32 center 1 half in
        if gt dx dz then addF32 n 2 half else addF32 n 0 (- half)%Q
      else
        let n := addF32 center 2 (- half)%Q in
        if gt dx dy then addF32 n 1 (- half)%Q else addF32 n 0 (- half)%Q
    else if Bool.eqb s0 s2 then
      let dy := rnd32 (1 - dy) in
      if gt dx dy && gt dx dz then
        let n := addF32 center 0 half in
        if gt dy dz then addF32 n 2 (- half)%Q else addF32 n 1 half
      else if gt dy dx && gt dy dz then
        let n := addF32 center 1 (- half)%Q in
        if gt dx dz then addF32 n 2 (- half)%Q else addF32 n 0 (- half)%Q
      else
        let n := addF32 center 2 half in
        if gt dx dy then addF32 n 1 half else addF32 n 0 (- half)%Q
    else
      let dx := rnd32 (1 - dx) in
      if gt dx dy && gt dx dz then
        let n := addF32 center 0 (- half)%Q in
        if gt dy dz then addF32 n 2 (- half)%Q else addF32 n 1 (- half)%Q
      else if gt dy dx && gt dy dz then
        let n := addF32 center 1 half in
        if gt dx dz then addF32 n 2 (- half)%Q else addF32 n 0 half
      else
        let n := addF32 center 2 half in
        if gt dx dy then addF32 n 1 (- half)%Q else addF32 n 0 half in
  vecToCentroid (vscale32 newC float2_0001).

(** A [float] that is a multiple of [2 ^ -8] between -32767 and 32767.  The
    sums and differences of two of them have at most 24 significant bits,
    and binary32 holds them without rounding. *)
Definition dyadic8 (c : Q) : bool :=
  Qeq_bool (inject_Z (Qfloor (c * 256))) (c * 256)
  && Qle_bool (- (32767)) c && Qle_bool c 32767.

Definition dyadicPoint (p : Vec3f) : bool :=
  let '(x, y, z) := p in dyadic8 x && dyadic8 y && dyadic8 z.



(** ** Where binary32 is exact *)

(** [q] is [n / 256] for a whole number [n] of magnitude at most [B]. *)
Definition fine (q : Q) (B : Z) : Prop :=
  exists n : Z, (q * 256 == inject_Z n)%Q /\ Z.abs n <= B.

(** ** What rounding cannot undo *)


(** The unit cubes with a first coordinate from 10001 to 19998. *)
Definition beyondScale (m : triple Z) : bool :=
  let '(m0, m1, m2) := m in
  (10001 <=? m0) && (m0 <=? 19998) && (0 <=? m1) && (m1 <=? 9998)
  && (0 <=? m2) && (m2 <=? 9998).
(** * Properties *)

Ltac Zify.zify_post_hook ::= Z.div_mod_to_equations.

(** ** Bit masks as arithmetic *)

Lemma land_pow2 (x k : Z) : 0 <= k -> Z.land x (2 ^ k) = 2 ^ k * ((x / 2 ^ k) mod 2).
Proof.
  intros Hk.
  assert (Hb : (x / 2 ^ k) mod 2 = Z.b2z (Z.testbit x k)).
  { rewrite Z.testbit_odd, Z.shiftr_div_pow2 by assumption.
    rewrite Zmod_odd. destruct (Z.odd (x / 2 ^ k)); reflexivity. }
  rewrite Hb.
  apply Z.bits_inj'; intros n Hn.
  rewrite Z.land_spec, Z.pow2_bits_eqb by assumption.
  destruct (Z.testbit x k) eqn:E; cbn [Z.b2z].
  - rewrite Z.mul_1_r, Z.pow2_bits_eqb by assumption.
    destruct (Z.eqb_spec k n); subst; rewrite ?E, ?andb_false_r; reflexivity.
  - rewrite Z.mul_0_r, Z.bits_0.
    destruct (Z.eqb_spec k n); subst; rewrite ?E, ?andb_false_r; reflexivity.
Qed.

Lemma land_1 (x : Z) : Z.land x 1 = x mod 2.
Proof.
  pose proof (land_pow2 x 0 ltac:(lia)) as H.
  change (2 ^ 0) with 1 in H. rewrite H, Z.div_1_r. lia.
Qed.

Lemma land_2 (x : Z) : Z.land x 2 = 2 * ((x / 2) mod 2).
Proof. exact (land_pow2 x 1 ltac:(lia)). Qed.

Lemma land_4 (x : Z) : Z.land x 4 = 4 * ((x / 4) mod 2).
Proof. exact (land_pow2 x 2 ltac:(lia)). Qed.

Lemma land_3 (x : Z) : Z.land x 3 = x mod 4.
Proof. change 3 with (Z.ones 2). rewrite Z.land_ones by lia. reflexivity. Qed.

Lemma shiftr_1 (x : Z) : Z.shiftr x 1 = x / 2.
Proof. rewrite Z.shiftr_div_pow2 by lia. reflexivity. Qed.

Lemma shiftl_1 (x : Z) : Z.shiftl x 1 = x * 2.
Proof. rewrite Z.shiftl_mul_pow2 by lia. reflexivity. Qed.

(** Computes the axis arithmetic once the half axis is known. *)
Ltac axis_norm :=
  change ((0 + 1) mod 3) with 1 in *; change ((0 + 2) mod 3) with 2 in *;
  change ((1 + 1) mod 3) with 2 in *; change ((1 + 2) mod 3) with 0 in *;
  change ((2 + 1) mod 3) with 0 in *; change ((2 + 2) mod 3) with 1 in *.

Ltac split_ifs :=
  repeat match goal with
         | |- context [if ?b then _ else _] => destruct b eqn:?
         end.

(** ** Decoding *)

Lemma halfAxisScan_step (n : nat) (s : Z) (tc : bccTetCentroid) :
  halfAxisScan (S n) s tc =
    if truthy (Z.land (at3 tc 0) s) then Some (0, s)
    else if truthy (Z.land (at3 tc 1) s) then Some (1, s)
    else if truthy (Z.land (at3 tc 2) s) then Some (2, s)
    else halfAxisScan n (Z.shiftl s 1) tc.
Proof. reflexivity. Qed.

(** What a successful scan tells: the size is the start size shifted [j]
    times, the bit is set on the half axis and on no axis before it, and no
    axis has any of the bits passed over. *)
Lemma halfAxisScan_sound (n : nat) :
  forall s tc hc size,
    halfAxisScan n s tc = Some (hc, size) ->
    exists j : nat,
      (j < n)%nat /\ size = s * 2 ^ Z.of_nat j /\ 0 <= hc < 3
      /\ Z.land (at3 tc hc) size <> 0
      /\ (forall i, 0 <= i < hc -> Z.land (at3 tc i) size = 0)
      /\ (forall j' : nat, (j' < j)%nat ->
            forall i, 0 <= i < 3 -> Z.land (at3 tc i) (s * 2 ^ Z.of_nat j') = 0).
Proof.
  induction n as [|n IH]; intros s tc hc size H; [discriminate|].
  rewrite halfAxisScan_step in H. unfold truthy in H.
  destruct (Z.land (at3 tc 0) s =? 0) eqn:E0; cbn [negb] in H.
  2:{ injection H as <- <-. exists 0%nat. change (2 ^ Z.of_nat 0) with 1.
      rewrite Z.mul_1_r. repeat split; try lia. }
  destruct (Z.land (at3 tc 1) s =? 0) eqn:E1; cbn [negb] in H.
  2:{ injection H as <- <-. exists 0%nat. change (2 ^ Z.of_nat 0) with 1.
      rewrite Z.mul_1_r. repeat split; try lia.
      intros i Hi. assert (i = 0) as -> by lia. lia. }
  destruct (Z.land (at3 tc 2) s =? 0) eqn:E2; cbn [negb] in H.
  2:{ injection H as <- <-. exists 0%nat. change (2 ^ Z.of_nat 0) with 1.
      rewrite Z.mul_1_r. repeat split; try lia.
      intros i Hi. assert (i = 0 \/ i = 1) as [-> | ->] by lia; lia. }
  apply IH in H. destruct H as (j & Hj & Hsize & Hhc & Hbit & Hlow & Hskip).
  rewrite shiftl_1 in Hsize, Hskip.
  exists (S j). rewrite Nat2Z.inj_succ, Z.pow_succ_r by lia.
  split; [lia|]. split; [lia|]. split; [assumption|]. split; [assumption|].
  split; [assumption|].
  intros [|j'] Hj' i Hi.
  - change (2 ^ Z.of_nat 0) with 1. rewrite Z.mul_1_r.
    assert (i = 0 \/ i = 1 \/ i = 2) as [-> | [-> | ->]] by lia; lia.
  - rewrite Nat2Z.inj_succ, Z.pow_succ_r by lia.
    rewrite <- (Hskip j' ltac:(lia) i Hi). f_equal. ring.
Qed.

(** The converse: a scan that has enough rounds finds the lowest set bit. *)
Lemma halfAxisScan_complete (j : nat) :
  forall (n : nat) s tc hc,
    (j < n)%nat -> 0 <= hc < 3 ->
    Z.land (at3 tc hc) (s * 2 ^ Z.of_nat j) <> 0 ->
    (forall i, 0 <= i < hc -> Z.land (at3 tc i) (s * 2 ^ Z.of_nat j) = 0) ->
    (forall j' : nat, (j' < j)%nat ->
       forall i, 0 <= i < 3 -> Z.land (at3 tc i) (s * 2 ^ Z.of_nat j') = 0) ->
    halfAxisScan n s tc = Some (hc, s * 2 ^ Z.of_nat j).
Proof.
  induction j as [|j IH]; intros n s tc hc Hn Hhc Hbit Hlow Hskip.
  - destruct n as [|n]; [lia|]. rewrite halfAxisScan_step. unfold truthy.
    change (2 ^ Z.of_nat 0) with 1 in *. rewrite Z.mul_1_r in *.
    assert (hc = 0 \/ hc = 1 \/ hc = 2) as [-> | [-> | ->]] by lia.
    + destruct (Z.land (at3 tc 0) s =? 0) eqn:E; [lia|reflexivity].
    + rewrite (Hlow 0) by lia. cbn [Z.eqb negb].
      destruct (Z.land (at3 tc 1) s =? 0) eqn:E; [lia|reflexivity].
    + rewrite (Hlow 0), (Hlow 1) by lia. cbn [Z.eqb negb].
      destruct (Z.land (at3 tc 2) s =? 0) eqn:E; [lia|reflexivity].
  - destruct n as [|n]; [lia|]. rewrite halfAxisScan_step. unfold truthy.
    pose proof (Hskip 0%nat ltac:(lia)) as H0.
    change (2 ^ Z.of_nat 0) with 1 in H0. rewrite Z.mul_1_r in H0.
    rewrite (H0 0), (H0 1), (H0 2) by lia. cbn [Z.eqb negb].
    rewrite Nat2Z.inj_succ, Z.pow_succ_r in * by lia.
    rewrite shiftl_1.
    replace (s * (2 * 2 ^ Z.of_nat j)) with (s * 2 * 2 ^ Z.of_nat j) in * by ring.
    apply IH; try assumption; try lia.
    intros j' Hj' i Hi.
    pose proof (Hskip (S j') ltac:(lia) i Hi) as H.
    rewrite Nat2Z.inj_succ, Z.pow_succ_r in H by lia.
    rewrite <- H. f_equal. ring.
Qed.

Lemma centroidHalfAxisSize_sound (tc : bccTetCentroid) (hc size : Z) :
  centroidHalfAxisSize tc = Done (hc, size) ->
  exists j : nat,
    (j < 16)%nat /\ size = 2 ^ Z.of_nat j /\ 0 <= hc < 3
    /\ Z.land (at3 tc hc) size <> 0
    /\ (forall i, 0 <= i < hc -> Z.land (at3 tc i) size = 0)
    /\ (forall j' : nat, (j' < j)%nat ->
          forall i, 0 <= i < 3 -> Z.land (at3 tc i) (2 ^ Z.of_nat j') = 0).
Proof.
  unfold centroidHalfAxisSize.
  destruct (halfAxisScan 16 1 tc) as [[h s]|] eqn:E; [|discriminate].
  intros [= -> ->].
  apply halfAxisScan_sound in E.
  destruct E as (j & Hj & Hs & Hhc & Hbit & Hlow & Hskip).
  exists j. rewrite Z.mul_1_l in Hs.
  repeat (split; [assumption|]).
  intros j' Hj' i Hi. rewrite <- (Hskip j' Hj' i Hi), Z.mul_1_l. reflexivity.
Qed.

Lemma in_ushort_bounds (a b c : Z) :
  in_ushort (a, b, c) = true ->
  0 <= a < 65536 /\ 0 <= b < 65536 /\ 0 <= c < 65536.
Proof. unfold in_ushort, isUShort. lia. Qed.

(** The three shapes of a valid centroid of the finest level. *)
Lemma validMicrotet_cases (a b c : Z) :
  validMicrotet (a, b, c) = true ->
  (0 <= a < 65536 /\ 0 <= b < 65536 /\ 0 <= c < 65536)
  /\ ((centroidHalfAxisSize (a, b, c) = Done (0, 1)
       /\ a mod 2 = 1 /\ b mod 2 = 0 /\ c mod 2 = 0 /\ (b / 2) mod 2 <> (c / 2) mod 2)
      \/ (centroidHalfAxisSize (a, b, c) = Done (1, 1)
          /\ a mod 2 = 0 /\ b mod 2 = 1 /\ c mod 2 = 0 /\ (c / 2) mod 2 <> (a / 2) mod 2)
      \/ (centroidHalfAxisSize (a, b, c) = Done (2, 1)
          /\ a mod 2 = 0 /\ b mod 2 = 0 /\ c mod 2 = 1 /\ (a / 2) mod 2 <> (b / 2) mod 2)).
Proof.
  unfold validMicrotet, validCentroid, centroidSize.
  destruct (centroidHalfAxisSize (a, b, c)) as [[hc size]|e] eqn:E;
    [|rewrite andb_false_r; discriminate].
  intros H.
  apply andb_prop in H as [H Hs]. apply andb_prop in H as [Hin H].
  apply Z.eqb_eq in Hs. subst size.
  split; [exact (in_ushort_bounds _ _ _ Hin)|].
  apply centroidHalfAxisSize_sound in E.
  destruct E as (j & _ & _ & Hhc & Hbit & Hlow & _).
  change (Z.shiftl 1 1) with 2 in H.
  assert (hc = 0 \/ hc = 1 \/ hc = 2) as [-> | [-> | ->]] by lia;
    axis_norm; cbn [at3] in *.
  - left. split; [reflexivity|]. rewrite !land_1, !land_2 in *. lia.
  - right; left. split; [reflexivity|].
    pose proof (Hlow 0 ltac:(lia)) as H0. cbn [at3] in H0.
    rewrite !land_1, !land_2 in *. lia.
  - right; right. split; [reflexivity|].
    pose proof (Hlow 0 ltac:(lia)) as H0. pose proof (Hlow 1 ltac:(lia)) as H1.
    cbn [at3] in H0, H1.
    rewrite !land_1, !land_2 in *. lia.
Qed.


Lemma truthy_land1_odd (x : Z) : x mod 2 = 1 -> truthy (Z.land x 1) = true.
Proof. unfold truthy. rewrite land_1. lia. Qed.

Lemma truthy_land1_even (x : Z) : x mod 2 = 0 -> truthy (Z.land x 1) = false.
Proof. unfold truthy. rewrite land_1. lia. Qed.

(** On a valid centroid of the finest level the orientation test gives
    opposite answers on the two secondary axes. *)
Lemma up_tests_opposed (h p q : Z) :
  h mod 2 = 1 -> p mod 2 = 0 -> q mod 2 = 0 -> (p / 2) mod 2 <> (q / 2) mod 2 ->
  truthy (Z.land (Z.shiftr (h + q) 1) 1) = negb (truthy (Z.land (Z.shiftr (h + p) 1) 1)).
Proof. intros. unfold truthy. rewrite !land_1, !shiftr_1. lia. Qed.

Ltac unfold_adjacency a b c :=
  cbv beta iota zeta delta
    [faceAdjacentMicrotet faceAdjacentCentroidAt addU at3 set3 fst snd];
  rewrite ?(truthy_land1_odd a), ?(truthy_land1_even a),
    ?(truthy_land1_odd b), ?(truthy_land1_even b),
    ?(truthy_land1_odd c), ?(truthy_land1_even c) by lia;
  cbv beta iota zeta; axis_norm;
  cbv beta iota zeta delta [at3 set3 fst snd].

Ltac bits_to_arith :=
  unfold truthy, ushort in *;
  rewrite ?land_1, ?land_2, ?land_4, ?shiftr_1 in *.

(** Settles the comparisons of a face number with 1 and 2. *)
Ltac face_tests face :=
  let H1 := fresh in let H2 := fresh in let H3 := fresh in let H4 := fresh in
  destruct (face <? 1) eqn:H1; destruct (2 <? face) eqn:H2;
  destruct (1 <? face) eqn:H3; destruct (face <? 2) eqn:H4;
  try (exfalso; lia).

Ltac case_up :=
  repeat match goal with
    | |- context [truthy (Z.land (Z.shiftr ?s 1) ?m)] =>
        destruct (truthy (Z.land (Z.shiftr s 1) m)) eqn:?
    end.

Theorem faceAdjacentCentroid_refines_microtet (tc : bccTetCentroid) (face : Z) :
  validMicrotet tc = true ->
  exists r,
    faceAdjacentCentroid tc face = Done r
    /\ fst r = fst (faceAdjacentMicrotet tc face)
    /\ (fst r <> -1 -> snd r = snd (faceAdjacentMicrotet tc face)).
Proof.
  destruct tc as [[a b] c]. intros H.
  apply validMicrotet_cases in H.
  destruct H as (Hr & [(E & H) | [(E & H) | (E & H)]]);
    unfold faceAdjacentCentroid; rewrite E; cbn [bind];
    eexists; (split; [reflexivity|]).
  all: unfold_adjacency a b c.
  1: rewrite (up_tests_opposed a b c) by lia.
  2: rewrite (up_tests_opposed b c a) by lia.
  3: rewrite (up_tests_opposed c a b) by lia.
  all: face_tests face; cbn [orb andb negb].
  all: case_up; cbn [fst snd negb].
  all: split_ifs; cbn [fst snd].
  all: bits_to_arith.
  all: (split; [lia|]); intros Hne; try lia.
  all: (apply f_equal2; [apply f_equal2|]); lia.
Qed.

Lemma truthy_land1_ushort_odd (x : Z) :
  (x mod 65536) mod 2 = 1 -> truthy (Z.land (ushort x) 1) = true.
Proof. unfold ushort. apply truthy_land1_odd. Qed.

Lemma truthy_land1_ushort_even (x : Z) :
  (x mod 65536) mod 2 = 0 -> truthy (Z.land (ushort x) 1) = false.
Proof. unfold ushort. apply truthy_land1_even. Qed.

Ltac parity_of x :=
  first [ rewrite (truthy_land1_odd x) by (unfold ushort; lia)
        | rewrite (truthy_land1_even x) by (unfold ushort; lia) ].

Ltac face_lits :=
  change (0 <? 1) with true; change (1 <? 1) with false;
  change (2 <? 1) with false; change (3 <? 1) with false;
  change (2 <? 0) with false; change (2 <? 2) with false; change (2 <? 3) with true;
  change (1 <? 0) with false; change (1 <? 2) with true; change (1 <? 3) with true;
  change (0 <? 2) with true; change (3 <? 2) with false;
  cbn [orb andb negb].

Ltac decide_parities :=
  repeat match goal with
    | |- context [truthy (Z.land ?x 1)] =>
        lazymatch x with
        | Z.shiftr _ _ => fail
        | _ => parity_of x
        end
    end.

Ltac triple_eq := apply f_equal2; [apply f_equal2|].

(** C2 (as amended): crossing a face of a valid finest-level tet and crossing
    back through the face that is returned leads to the tet and the face one
    started from, provided the half-axis coordinate is below 65535, the
    largest [unsigned short] (at 65535 the increment wraps to 0 unreported). *)
Theorem faceAdjacentMicrotet_involution (tc : bccTetCentroid) (face : Z) :
  validMicrotet tc = true ->
  at3 tc (centroidHalfAxis tc) < 65535 ->
  0 <= face <= 3 ->
  fst (faceAdjacentMicrotet tc face) <> -1 ->
  faceAdjacentMicrotet (snd (faceAdjacentMicrotet tc face))
                       (fst (faceAdjacentMicrotet tc face)) = (face, tc).
Proof.
  destruct tc as [[a b] c]. intros H Htop Hface.
  apply validMicrotet_cases in H.
  unfold centroidHalfAxis in Htop.
  remember (faceAdjacentMicrotet (a, b, c) face) as r eqn:Hr.
  symmetry in Hr. revert Hr.
  assert (Hf : face = 0 \/ face = 1 \/ face = 2 \/ face = 3) by lia.
  destruct H as (Hrg & [(E & H) | [(E & H) | (E & H)]]);
    rewrite E in Htop; cbn [at3] in Htop.
  all: unfold faceAdjacentMicrotet at 1;
    cbv beta iota zeta delta [addU at3 set3];
    decide_parities; cbv beta iota zeta; axis_norm;
    cbv beta iota zeta delta [at3 set3].
  all: destruct Hf as [-> | [-> | [-> | ->]]].
  all: face_lits.
  all: case_up; split_ifs; intros <-; cbn [fst snd]; intros Hne; try (exfalso; apply Hne; reflexivity).
  all: cbv beta iota zeta delta [faceAdjacentMicrotet addU at3 set3];
    decide_parities; cbv beta iota zeta; axis_norm;
    cbv beta iota zeta delta [at3 set3]; face_lits.
  all: case_up; split_ifs.
  all: bits_to_arith.
  all: try (exfalso; lia).
  all: apply f_equal2; [reflexivity|]; triple_eq; lia.
Qed.

Ltac case_parities :=
  repeat match goal with
    | |- context [truthy (Z.land ?x 1)] =>
        lazymatch x with
        | Z.shiftr _ _ => fail
        | _ => destruct (truthy (Z.land x 1)) eqn:?
        end
    end.

Lemma faceAdjacentMicrotet_guards (tc : bccTetCentroid) (face : Z) :
  in_ushort tc = true ->
  (hasNegative (microtetShift tc face) = true -> fst (faceAdjacentMicrotet tc face) = -1)
  /\ (fst (faceAdjacentMicrotet tc face) <> -1 ->
      hasNegative (microtetShift tc face) = false
      /\ snd (faceAdjacentMicrotet tc face) = wrapUShort (microtetShift tc face)).
Proof.
  destruct tc as [[a b] c]. intros Hin. apply in_ushort_bounds in Hin.
  cbv beta iota zeta delta [faceAdjacentMicrotet microtetShift addU addZ at3 set3].
  case_parities; cbv beta iota zeta; axis_norm;
    cbv beta iota zeta delta [at3 set3].
  all: face_tests face; cbn [orb andb negb].
  all: case_up; split_ifs; cbv beta iota zeta delta [hasNegative wrapUShort fst snd].
  all: unfold ushort in *.
  all: split; [lia|]; intros Hne; try (exfalso; apply Hne; reflexivity).
  all: split; [lia|triple_eq; lia].
Qed.

Lemma land_pow2_bit_le (x : Z) (j : nat) :
  0 <= x -> Z.land x (2 ^ Z.of_nat j) <> 0 -> 2 ^ Z.of_nat j <= x.
Proof.
  intros Hx H. rewrite land_pow2 in H by lia.
  assert (Hp : 0 < 2 ^ Z.of_nat j) by (apply Z.pow_pos_nonneg; lia).
  assert (Hd : 1 <= x / 2 ^ Z.of_nat j).
  { assert (0 <= x / 2 ^ Z.of_nat j) by (apply Z.div_pos; lia).
    destruct (Z.eq_dec (x / 2 ^ Z.of_nat j) 0) as [E|E]; [|lia].
    rewrite E in H. cbn in H. lia. }
  pose proof (Z.mul_div_le x (2 ^ Z.of_nat j) Hp). nia.
Qed.

(** What decoding tells about the numbers involved. *)
Lemma centroidHalfAxisSize_bounds (tc : bccTetCentroid) (ha size : Z) :
  in_ushort tc = true ->
  centroidHalfAxisSize tc = Done (ha, size) ->
  0 <= ha < 3 /\ 1 <= size <= 32768 /\ size <= at3 tc ha.
Proof.
  intros Hin E. apply centroidHalfAxisSize_sound in E.
  destruct E as (j & Hj & -> & Hha & Hbit & _).
  destruct tc as [[a b] c]. apply in_ushort_bounds in Hin.
  split; [assumption|].
  assert (Hp : 0 < 2 ^ Z.of_nat j) by (apply Z.pow_pos_nonneg; lia).
  assert (Hle : 2 ^ Z.of_nat j <= 2 ^ 15) by (apply Z.pow_le_mono_r; lia).
  change (2 ^ 15) with 32768 in Hle.
  split; [lia|].
  apply land_pow2_bit_le; [|assumption].
  assert (ha = 0 \/ ha = 1 \/ ha = 2) as [-> | [-> | ->]] by lia; cbn [at3]; lia.
Qed.

Lemma faceAdjacentCentroid_guards (tc : bccTetCentroid) (face ha size : Z) :
  in_ushort tc = true ->
  centroidHalfAxisSize tc = Done (ha, size) ->
  (hasNegative (centroidShiftAt ha size tc face) = true ->
   fst (faceAdjacentCentroidAt ha size tc face) = -1)
  /\ (fst (faceAdjacentCentroidAt ha size tc face) <> -1 ->
      hasNegative (centroidShiftAt ha size tc face) = false
      /\ snd (faceAdjacentCentroidAt ha size tc face)
         = wrapUShort (centroidShiftAt ha size tc face)).
Proof.
  intros Hin E.
  destruct (centroidHalfAxisSize_bounds tc ha size Hin E) as (Hha & Hsize & Hge).
  destruct tc as [[a b] c]. apply in_ushort_bounds in Hin.
  assert (ha = 0 \/ ha = 1 \/ ha = 2) as [-> | [-> | ->]] by lia; cbn [at3] in Hge.
  all: cbv beta iota zeta delta [faceAdjacentCentroidAt centroidShiftAt addU addZ at3 set3];
    axis_norm; cbv beta iota zeta delta [at3 set3].
  all: face_tests face; cbn [orb andb negb].
  all: repeat match goal with
         | |- context [truthy (Z.land (Z.shiftr ?s 1) ?m)] =>
             destruct (truthy (Z.land (Z.shiftr s 1) m)) eqn:?
         end.
  all: split_ifs; cbv beta iota zeta delta [hasNegative wrapUShort fst snd].
  all: unfold ushort in *.
  all: split; [lia|]; intros Hne; try (exfalso; apply Hne; reflexivity).
  all: split; [lia|triple_eq; lia].
Qed.

(** C5: whenever the shift would take a coordinate of the neighbour below
    zero, [faceAdjacentMicrotet] and [faceAdjacentCentroid] return the face
    -1; a result with another face has no negative coordinate, in the code
    ([unsigned short]) and in unbounded integers alike, and is the shifted
    centroid stored into [unsigned short]s. *)
Theorem faceAdjacent_negative_neighbour_reported (tc : bccTetCentroid) (face : Z) :
  in_ushort tc = true ->
  ((hasNegative (microtetShift tc face) = true ->
    fst (faceAdjacentMicrotet tc face) = -1)
   /\ (fst (faceAdjacentMicrotet tc face) <> -1 ->
       hasNegative (microtetShift tc face) = false
       /\ hasNegative (snd (faceAdjacentMicrotet tc face)) = false
       /\ snd (faceAdjacentMicrotet tc face) = wrapUShort (microtetShift tc face)))
  /\ (forall r, faceAdjacentCentroid tc face = Done r ->
      exists ideal,
        centroidShift tc face = Done ideal
        /\ (hasNegative ideal = true -> fst r = -1)
        /\ (fst r <> -1 ->
            hasNegative ideal = false
            /\ hasNegative (snd r) = false
            /\ snd r = wrapUShort ideal)).
Proof.
  intros Hin.
  assert (Hw : forall v, hasNegative (wrapUShort v) = false).
  { intros [[x y] z]. unfold hasNegative, wrapUShort, ushort. lia. }
  split.
  - destruct (faceAdjacentMicrotet_guards tc face Hin) as [H1 H2].
    split; [exact H1|]. intros Hne. destruct (H2 Hne) as [H3 H4].
    rewrite H4. auto.
  - intros r Hr. unfold faceAdjacentCentroid, centroidShift in *.
    destruct (centroidHalfAxisSize tc) as [[ha size]|e] eqn:E; [|discriminate].
    cbn [bind] in *. injection Hr as <-.
    destruct (faceAdjacentCentroid_guards tc face ha size Hin E) as [H1 H2].
    eexists. split; [reflexivity|]. split; [exact H1|].
    intros Hne. destruct (H2 Hne) as [H3 H4]. rewrite H4. auto.
Qed.

Lemma faceAdjacent_negative_neighbour_reported_witness :
  fst (faceAdjacentMicrotet (1, 0, 2) 2) = -1.
Proof.
  apply (faceAdjacent_negative_neighbour_reported (1, 0, 2) 2); reflexivity.
Defined.

Lemma pow2_pos (j : nat) : 0 < 2 ^ Z.of_nat j.
Proof. apply Z.pow_pos_nonneg; lia. Qed.

Lemma pow2_succ (j : nat) : 2 ^ Z.of_nat (S j) = 2 * 2 ^ Z.of_nat j.
Proof. rewrite Nat2Z.inj_succ, Z.pow_succ_r by lia. reflexivity. Qed.

(** A number none of whose [j] lowest bits is set is a multiple of [2 ^ j]. *)
Lemma low_bits_clear (x : Z) (j : nat) :
  (forall j' : nat, (j' < j)%nat -> Z.land x (2 ^ Z.of_nat j') = 0) ->
  x mod 2 ^ Z.of_nat j = 0.
Proof.
  induction j as [|j IH]; intros H.
  - change (2 ^ Z.of_nat 0) with 1. apply Z.mod_1_r.
  - rewrite pow2_succ, Z.mul_comm.
    pose proof (pow2_pos j).
    rewrite Z.rem_mul_r by lia.
    rewrite IH by (intros j' Hj'; apply H; lia).
    pose proof (H j ltac:(lia)) as Hj. rewrite land_pow2 in Hj by lia. lia.
Qed.

Lemma mod_double (x s : Z) :
  0 < s -> x mod (2 * s) = x mod s + s * ((x / s) mod 2).
Proof. intros. rewrite (Z.mul_comm 2 s). apply Z.rem_mul_r; lia. Qed.

Lemma div_double (x s : Z) : 0 < s -> x / (2 * s) = x / s / 2.
Proof. intros. rewrite (Z.mul_comm 2 s), Z.div_div by lia. reflexivity. Qed.

(** The shape of a valid centroid: with [s] its size, the half-axis
    coordinate is an odd multiple of [s], the two others are multiples of
    [2 * s], and exactly one of them is an odd multiple of [2 * s]. *)
Lemma validCentroid_shape (tc : bccTetCentroid) :
  validCentroid tc = true ->
  exists (hc : Z) (j : nat),
    (j < 15)%nat /\ 0 <= hc < 3
    /\ centroidHalfAxisSize tc = Done (hc, 2 ^ Z.of_nat j)
    /\ in_ushort tc = true
    /\ at3 tc hc mod (2 * 2 ^ Z.of_nat j) = 2 ^ Z.of_nat j
    /\ at3 tc ((hc + 1) mod 3) mod (2 * 2 ^ Z.of_nat j) = 0
    /\ at3 tc ((hc + 2) mod 3) mod (2 * 2 ^ Z.of_nat j) = 0
    /\ (at3 tc ((hc + 1) mod 3) / (2 * 2 ^ Z.of_nat j)) mod 2
       <> (at3 tc ((hc + 2) mod 3) / (2 * 2 ^ Z.of_nat j)) mod 2.
Proof.
  unfold validCentroid. intros H.
  apply andb_prop in H as [Hin H].
  destruct (centroidHalfAxisSize tc) as [[hc size]|e] eqn:E; [|discriminate].
  pose proof E as E'.
  apply centroidHalfAxisSize_sound in E.
  destruct E as (j & Hj & -> & Hhc & Hbit & Hlow & Hskip).
  pose proof (pow2_pos j) as Hp.
  assert (Hc1 : 0 <= (hc + 1) mod 3 < 3) by lia.
  assert (Hc2 : 0 <= (hc + 2) mod 3 < 3) by lia.
  assert (Hm : forall i, 0 <= i < 3 -> at3 tc i mod 2 ^ Z.of_nat j = 0).
  { intros i Hi. apply low_bits_clear. intros j' Hj'. apply Hskip; assumption. }
  rewrite shiftl_1, (Z.mul_comm _ 2), <- pow2_succ in H.
  rewrite !land_pow2 in H by lia.
  rewrite land_pow2 in Hbit by lia.
  rewrite pow2_succ in H.
  apply andb_prop in H as [H Hb]. apply andb_prop in H as [H1 H2].
  apply Z.eqb_eq, Z.mul_eq_0 in H1. apply Z.eqb_eq, Z.mul_eq_0 in H2.
  destruct H1 as [H1|H1]; [lia|]. destruct H2 as [H2|H2]; [lia|].
  apply negb_true_iff, Z.eqb_neq in Hb.
  assert (Hb' : (at3 tc ((hc + 1) mod 3) / (2 * 2 ^ Z.of_nat j)) mod 2
               <> (at3 tc ((hc + 2) mod 3) / (2 * 2 ^ Z.of_nat j)) mod 2).
  { intros Heq. apply Hb. rewrite Heq. reflexivity. }
  assert (H0 : (at3 tc hc / 2 ^ Z.of_nat j) mod 2 = 1).
  { pose proof (Z.mod_pos_bound (at3 tc hc / 2 ^ Z.of_nat j) 2 ltac:(lia)).
    destruct (Z.eq_dec ((at3 tc hc / 2 ^ Z.of_nat j) mod 2) 0) as [Hz|Hz]; [|lia].
    rewrite Hz, Z.mul_0_r in Hbit. congruence. }
  exists hc, j.
  assert (j <> 15%nat).
  { intros ->. destruct tc as [[a b] c]. apply in_ushort_bounds in Hin.
    apply Hb'. change (2 * 2 ^ Z.of_nat 15) with 65536.
    assert (Hs : forall i, at3 (a, b, c) i / 65536 = 0).
    { intros i. apply Z.div_small. unfold at3. destruct i as [|[| |]|]; lia. }
    rewrite !Hs. reflexivity. }
  split; [lia|]. split; [assumption|]. split; [reflexivity|]. split; [assumption|].
  rewrite !mod_double, !Hm, H0, H1, H2 by lia.
  repeat split; try lia.
Qed.

Lemma sshort_small (x : Z) : -32768 <= x <= 32767 -> sshort x = x.
Proof. unfold sshort. lia. Qed.

Lemma halve_even (x : Z) : x mod 2 = 0 -> 2 * halveShort x = x.
Proof.
  intros H. unfold halveShort. symmetry.
  apply Z.quot_exact; [lia|].
  apply Z.rem_divide; [lia|]. apply Z.mod_divide; [lia|assumption].
Qed.

Lemma mod2_of_mod_double (x s : Z) : 0 < s -> x mod 2 = (x mod (2 * s)) mod 2.
Proof.
  intros Hs. symmetry. apply Z.mod_mod_divide.
  exists s. ring.
Qed.

Lemma validCentroid_parities (tc : bccTetCentroid) (hc : Z) (j : nat) :
  at3 tc hc mod (2 * 2 ^ Z.of_nat j) = 2 ^ Z.of_nat j ->
  at3 tc ((hc + 1) mod 3) mod (2 * 2 ^ Z.of_nat j) = 0 ->
  at3 tc ((hc + 2) mod 3) mod (2 * 2 ^ Z.of_nat j) = 0 ->
  (at3 tc hc + 2 ^ Z.of_nat j) mod 2 = 0
  /\ at3 tc ((hc + 1) mod 3) mod 2 = 0
  /\ at3 tc ((hc + 2) mod 3) mod 2 = 0.
Proof.
  pose proof (pow2_pos j) as Hp.
  set (s := 2 ^ Z.of_nat j) in *.
  intros H0 H1 H2.
  pose proof (mod2_of_mod_double (at3 tc hc) s Hp) as E0.
  pose proof (mod2_of_mod_double (at3 tc ((hc + 1) mod 3)) s Hp) as E1.
  pose proof (mod2_of_mod_double (at3 tc ((hc + 2) mod 3)) s Hp) as E2.
  rewrite H0 in E0. rewrite H1 in E1. rewrite H2 in E2.
  change (0 mod 2) with 0 in *.
  repeat split; try assumption.
  rewrite Z.add_mod, E0 by lia. rewrite <- Z.add_mod by lia.
  replace (s + s) with (s * 2) by ring. apply Z.mod_mul. lia.
Qed.

Lemma even_mod (x : Z) : x mod 2 = 0 -> Z.even x = true.
Proof. intros H. rewrite Zeven_mod. lia. Qed.

Lemma quarter_of_double (t x : Z) : t = 2 * x -> (inject_Z t / 4 == inject_Z x / 2)%Q.
Proof. intros ->. rewrite inject_Z_mult. field. Qed.

(** Names the halved values and keeps that doubling them gives the value
    that was halved. *)
Ltac name_halves :=
  repeat match goal with
    | |- context [halveShort ?x] =>
        let h := fresh "h" in
        let Hh := fresh "Hh" in
        assert (Hh : 2 * halveShort x = x) by (apply halve_even; lia);
        set (h := halveShort x) in *; clearbody h
    end.

(** C10 (as amended): the doubled node positions are even, so that halving
    them is exact, and the barycentre of the four nodes is the centroid code
    divided by 2, for the valid codes whose doubled node positions fit the
    [short] type. *)
Theorem centroidToNodeLoci_barycentre (tc : bccTetCentroid) :
  validCentroid tc = true ->
  nodesFitShort tc = true ->
  exists hc size nodes,
    centroidHalfAxisSize tc = Done (hc, size)
    /\ forallb evenLocus (nodeLociDoubled tc hc size) = true
    /\ centroidToNodeLoci tc = Done nodes
    /\ map (fun g => let '(a, b, c) := g in (2 * a, 2 * b, 2 * c)) nodes
       = nodeLociDoubled tc hc size
    /\ veq (average4 nodes) (halfCode tc).
Proof.
  intros Hv Hfit.
  destruct (validCentroid_shape tc Hv) as (hc & j & Hj & Hhc & E & Hin & H0 & H1 & H2 & _).
  destruct (validCentroid_parities tc hc j H0 H1 H2) as (P0 & P1 & P2).
  unfold nodesFitShort in Hfit. rewrite E in Hfit.
  pose proof (pow2_pos j) as Hp.
  set (s := 2 ^ Z.of_nat j) in *. clearbody s. clear H0 H1 H2 Hv.
  exists hc, s, (map halveLocus (nodeLociDoubled tc hc s)).
  split; [exact E|].
  unfold centroidToNodeLoci. rewrite E. cbn [bind]. clear E.
  destruct tc as [[a b] c]. apply in_ushort_bounds in Hin.
  assert (hc = 0 \/ hc = 1 \/ hc = 2) as [-> | [-> | ->]] by lia;
    axis_norm; cbn [at3] in *.
  all: assert (Hb : 0 <= a <= 32767 /\ 0 <= b <= 32767 /\ 0 <= c <= 32767) by lia.
  all: cbv beta iota zeta delta [nodeLociDoubled addS at3 set3 Z.ltb Z.compare Pos.compare Pos.compare_cont];
    cbn [Z.add Z.sub Z.opp Pos.add Z.pos_sub Pos.pred_double];
    cbv beta iota zeta delta [at3 set3].
  all: rewrite shiftl_1.
  all: destruct (Z.land _ (s * 2) =? Z.land _ (s * 2)).
  all: rewrite (sshort_small a), (sshort_small b), (sshort_small c) by lia.
  all: rewrite !sshort_small by lia.
  all: (split; [cbn [forallb evenLocus andb]; rewrite !even_mod by lia; reflexivity|]).
  all: (split; [reflexivity|]).
  all: cbn [map halveLocus].
  all: name_halves.
  all: (split;
        [repeat (apply f_equal2; [triple_eq; assumption|]); reflexivity|]).
  all: cbv beta iota zeta delta [average4 sumLoci fold_right halfCode veq].
  all: repeat split; apply quarter_of_double; lia.
Qed.

Lemma centroidToNodeLoci_barycentre_witness :
  exists hc size nodes,
    centroidHalfAxisSize (1, 0, 2) = Done (hc, size)
    /\ forallb evenLocus (nodeLociDoubled (1, 0, 2) hc size) = true
    /\ centroidToNodeLoci (1, 0, 2) = Done nodes
    /\ map (fun g => let '(a, b, c) := g in (2 * a, 2 * b, 2 * c)) nodes
       = nodeLociDoubled (1, 0, 2) hc size
    /\ veq (average4 nodes) (halfCode (1, 0, 2)).
Proof. apply (centroidToNodeLoci_barycentre (1, 0, 2)); reflexivity. Defined.

(** The claim C10 as it stands fails on the valid code (32769, 0, 2): the
    code is stored into [short]s first, where 32769 reads -32767, and the
    barycentre of the nodes is not the code divided by 2. *)
Lemma centroidToNodeLoci_barycentre_fails_beyond_short :
  ~ (validCentroid (32769, 0, 2) = true ->
     exists hc size nodes,
       centroidHalfAxisSize (32769, 0, 2) = Done (hc, size)
       /\ forallb evenLocus (nodeLociDoubled (32769, 0, 2) hc size) = true
       /\ centroidToNodeLoci (32769, 0, 2) = Done nodes
       /\ map (fun g => let '(a, b, c) := g in (2 * a, 2 * b, 2 * c)) nodes
          = nodeLociDoubled (32769, 0, 2) hc size
       /\ veq (average4 nodes) (halfCode (32769, 0, 2))).
Proof.
  intros H. destruct (H eq_refl) as (hc & size & nodes & _ & _ & En & _ & Hv).
  vm_compute in En. injection En as <-.
  vm_compute in Hv. destruct Hv as [Hv _]. discriminate Hv.
Qed.

Lemma memZ_In (x : Z) (l : list Z) : memZ x l = true <-> In x l.
Proof.
  unfold memZ. rewrite existsb_exists. split.
  - intros (y & Hy & E). apply Z.eqb_eq in E. subst. assumption.
  - intros H. exists x. split; [assumption|apply Z.eqb_refl].
Qed.

Lemma faceNodeList_length (tn : quad Z) (face : Z) : List.length (faceNodeList tn face) = 3%nat.
Proof. reflexivity. Qed.

Lemma at4_in_quadList (tn : quad Z) (i : Z) : In (at4 tn i) (quadList tn).
Proof.
  destruct tn as [[[a b] c] d]. unfold at4, quadList.
  destruct i as [|[[]|[]|]|]; cbn; auto.
Qed.

Lemma faceNodeList_incl (tn : quad Z) (face : Z) :
  incl (faceNodeList tn face) (quadList tn).
Proof.
  intros n H. unfold faceNodeList in H. apply in_map_iff in H.
  destruct H as (i & <- & _). apply at4_in_quadList.
Qed.

(** C4: a tet that [faceAdjacentMicrotets] returns is stored under the
    adjacent centroid and each node of its face [adjFace] is a node of the
    queried face; when those three nodes are distinct the two faces have the
    same three nodes.  A tet none of whose nodes is a node of the queried tet
    (a duplicate across a cut) is never returned. *)
Theorem faceAdjacentMicrotets_share_face (vn : vnBccTetrahedra) (tet face : Z) :
  let adjFace := fst (faceAdjacentMicrotets vn tet face) in
  let adjTets := snd (faceAdjacentMicrotets vn tet face) in
  (forall cand, In cand adjTets ->
     adjFace = fst (faceAdjacentMicrotet (tetCentroid vn tet) face)
     /\ In cand (equal_range vn (snd (faceAdjacentMicrotet (tetCentroid vn tet) face)))
     /\ incl (faceNodeList (tetNodes vn cand) adjFace) (faceNodeList (tetNodes vn tet) face)
     /\ (NoDup (faceNodeList (tetNodes vn cand) adjFace) ->
         incl (faceNodeList (tetNodes vn tet) face) (faceNodeList (tetNodes vn cand) adjFace)))
  /\ (forall cand,
        (forall n, In n (quadList (tetNodes vn cand)) -> ~ In n (quadList (tetNodes vn tet))) ->
        ~ In cand adjTets).
Proof.
  intros adjFace adjTets.
  assert (Hmain : forall cand, In cand adjTets ->
     adjFace = fst (faceAdjacentMicrotet (tetCentroid vn tet) face)
     /\ In cand (equal_range vn (snd (faceAdjacentMicrotet (tetCentroid vn tet) face)))
     /\ incl (faceNodeList (tetNodes vn cand) adjFace) (faceNodeList (tetNodes vn tet) face)).
  { subst adjFace adjTets. unfold faceAdjacentMicrotets.
    destruct (faceAdjacentMicrotet (tetCentroid vn tet) face) as [f tcAdj].
    cbn [fst snd]. intros cand H. apply filter_In in H. destruct H as [Hin Hall].
    split; [reflexivity|]. split; [assumption|].
    intros n Hn. rewrite forallb_forall in Hall.
    apply memZ_In. apply Hall. assumption. }
  split.
  - intros cand H. destruct (Hmain cand H) as (H1 & H2 & H3).
    repeat (split; [assumption|]).
    intros Hnd. apply NoDup_length_incl; [assumption| |assumption].
    rewrite !faceNodeList_length. apply le_n.
  - intros cand Hdis H. destruct (Hmain cand H) as (_ & _ & H3).
    assert (Hn : In (at4 (tetNodes vn cand) (Z.land (adjFace + 0) 3))
                    (faceNodeList (tetNodes vn cand) adjFace)).
    { unfold faceNodeList. cbn [map]. left. reflexivity. }
    apply (Hdis _ (faceNodeList_incl _ _ _ Hn)).
    apply (faceNodeList_incl _ face). apply H3. assumption.
Qed.

Example cutRegion_face_query : faceAdjacentMicrotets cutRegion 0 0 = (2, [1]).
Proof. reflexivity. Qed.

Lemma faceAdjacentMicrotets_share_face_witness :
  incl (faceNodeList (tetNodes cutRegion 0) 0) (faceNodeList (tetNodes cutRegion 1) 2).
Proof.
  apply (proj1 (faceAdjacentMicrotets_share_face cutRegion 0 0) 1).
  - left. reflexivity.
  - repeat constructor; cbn; intuition discriminate.
Defined.

Lemma faceAdjacentMicrotet_involution_witness :
  faceAdjacentMicrotet (snd (faceAdjacentMicrotet (1, 0, 2) 1))
                       (fst (faceAdjacentMicrotet (1, 0, 2) 1)) = (1, (1, 0, 2)).
Proof.
  apply faceAdjacentMicrotet_involution;
    [reflexivity | vm_compute; reflexivity | lia | vm_compute; discriminate].
Defined.

(** The claim C2 as it stands fails on the valid code (65535, 0, 2) and face
    1: the increment of 65535 wraps to 0, the result (0, 1, 2) is returned
    with face 3, and crossing back from there reports the boundary. *)
Lemma faceAdjacentMicrotet_involution_fails_at_65535 :
  ~ (validMicrotet (65535, 0, 2) = true ->
     0 <= 1 <= 3 ->
     fst (faceAdjacentMicrotet (65535, 0, 2) 1) <> -1 ->
     faceAdjacentMicrotet (snd (faceAdjacentMicrotet (65535, 0, 2) 1))
                          (fst (faceAdjacentMicrotet (65535, 0, 2) 1))
     = (1, (65535, 0, 2))).
Proof.
  intros H.
  assert (E : faceAdjacentMicrotet (snd (faceAdjacentMicrotet (65535, 0, 2) 1))
                (fst (faceAdjacentMicrotet (65535, 0, 2) 1)) = (1, (65535, 0, 2))).
  { apply H; [reflexivity | lia | vm_compute; discriminate]. }
  vm_compute in E. discriminate E.
Qed.

Lemma faceAdjacentCentroid_refines_microtet_witness :
  exists r,
    faceAdjacentCentroid (1, 0, 2) 3 = Done r
    /\ fst r = fst (faceAdjacentMicrotet (1, 0, 2) 3)
    /\ (fst r <> -1 -> snd r = snd (faceAdjacentMicrotet (1, 0, 2) 3)).
Proof. apply faceAdjacentCentroid_refines_microtet. reflexivity. Defined.

Lemma promoteToPopulated_bounded (fuel : nat) :
  forall vn tC level pr calls,
    1 <= level <= 16 ->
    (Z.to_nat (17 - level) <= fuel)%nat ->
    exists n r,
      promoteToPopulated fuel vn tC level pr calls = Some (n, r)
      /\ calls <= n <= calls + (17 - level)
      /\ match r with
         | Done (_, level', pr') => pr' <> [] /\ level' = level + (n - calls)
         | Raise e =>
             e = no_half_axis
             \/ (n = calls + (17 - level)
                 /\ e = logic_error "Surface point chosen not embedded in an existing tetrahedron.")
         end.
Proof.
  induction fuel as [|fuel IH]; intros vn tC level pr calls Hl Hf; [lia|].
  cbn [promoteToPopulated].
  destruct pr as [|t pr].
  - destruct (centroidUpOneLevel tC) as [tC'|e] eqn:E.
    + destruct (16 <? level + 1) eqn:Hlt.
      * eexists _, _. split; [reflexivity|]. split; [lia|]. right. split; [lia|reflexivity].
      * destruct (IH vn tC' (level + 1) (equal_range vn tC') (calls + 1)) as (n & r & H1 & H2 & H3);
          [lia|lia|].
        exists n, r. split; [exact H1|]. split; [lia|].
        destruct r as [[[tC2 l2] pr2]|e2].
        -- destruct H3 as [H3 H4]. split; [assumption|lia].
        -- destruct H3 as [H3|[H3 H4]]; [left; assumption|right; split; [lia|assumption]].
    + eexists _, _. split; [reflexivity|]. split; [lia|].
      unfold centroidUpOneLevel, centroidHalfAxisSize in E.
      destruct (halfAxisScan 16 1 tC) as [[h s]|]; cbn [bind] in E; [discriminate|].
      injection E as <-. left. reflexivity.
  - eexists _, _. split; [reflexivity|]. split; [lia|]. split; [discriminate|lia].
Qed.

Lemma promoteTarget_bounded (fuel : nat) :
  forall levels tc targetSize calls,
    1 <= targetSize ->
    (Z.max 1 (levels + 1 - targetSize) <= Z.of_nat fuel) ->
    exists n e,
      promoteTarget fuel levels [] tc targetSize calls = Some (n, Raise e)
      /\ calls < n <= calls + Z.max 1 (levels + 1 - targetSize)
      /\ (e = no_half_axis
          \/ e = logic_error "Algorithm error in vnBccTetrahedra::vertexSolidLinePath()").
Proof.
  induction fuel as [|fuel IH]; intros levels tc targetSize calls Hs Hf; [lia|].
  cbn [promoteTarget].
  destruct (centroidUpOneLevel tc) as [tc'|e] eqn:E.
  - destruct (levels <? targetSize + 1) eqn:Hlt.
    + eexists _, _. split; [reflexivity|]. split; [lia|]. right. reflexivity.
    + destruct (IH levels tc' (targetSize + 1) (calls + 1)) as (n & e & H1 & H2 & H3);
        [lia|lia|].
      exists n, e. split; [exact H1|]. split; [lia|assumption].
  - eexists _, _. split; [reflexivity|]. split; [lia|].
    unfold centroidUpOneLevel, centroidHalfAxisSize in E.
    destruct (halfAxisScan 16 1 tc) as [[h s]|]; cbn [bind] in E; [discriminate|].
    injection E as <-. left. reflexivity.
Qed.

(** The opening loop of [vertexSolidLinePath], for any range of target tets. *)
Lemma promoteTarget_ends (fuel : nat) :
  forall levels targetTets tc targetSize calls,
    1 <= targetSize ->
    (Z.max 1 (levels + 1 - targetSize) <= Z.of_nat fuel) ->
    exists n r,
      promoteTarget fuel levels targetTets tc targetSize calls = Some (n, r)
      /\ calls <= n <= calls + Z.max 1 (levels + 1 - targetSize)
      /\ populatedOrFatal targetTets r.
Proof.
  intros levels targetTets tc targetSize calls Hs Hf.
  destruct targetTets as [|t rest].
  - destruct (promoteTarget_bounded fuel levels tc targetSize calls Hs Hf)
      as (n & e & H1 & H2 & H3).
    exists n, (Raise e). split; [exact H1|]. split; [lia|exact H3].
  - exists calls, (Done (tc, targetSize)). split; [destruct fuel; reflexivity|].
    split; [lia|]. cbn. discriminate.
Qed.

(** The [do ... while] of [vertexSolidLinePath]: one turn for each unit of
    [fuel], one call of [centroidUpOneLevel] in each turn.  The turns that the
    bound on [count] allows are enough, and more fuel changes nothing. *)
Lemma lookUp_bounded (fuel : nat) :
  forall vn tc count,
    1 <= count ->
    Z.max 1 (_tetSubdivisionLevels vn + 1 - count) <= Z.of_nat fuel ->
    exists r,
      lookUp fuel vn tc count = Some r
      /\ lookUp (Z.to_nat (Z.max 1 (_tetSubdivisionLevels vn + 1 - count))) vn tc count = Some r
      /\ match r with
         | Done _ => True
         | Raise e => e = no_half_axis
         end.
Proof.
  induction fuel as [|fuel IH]; intros vn tc count Hc Hf; [lia|].
  remember (Z.to_nat (Z.max 1 (_tetSubdivisionLevels vn + 1 - count))) as m eqn:Hm.
  destruct m as [|m]; [lia|].
  cbn [lookUp].
  destruct (centroidUpOneLevel tc) as [tc'|e] eqn:E.
  - destruct ((count + 1 <=? _tetSubdivisionLevels vn)
              && match hashFind vn tc' with None => true | Some _ => false end) eqn:Hgo.
    + apply andb_prop in Hgo as [Hle _].
      destruct (IH vn tc' (count + 1)) as (r & H1 & H2 & H3); [lia|lia|].
      exists r. split; [exact H1|]. split; [|exact H3].
      replace m with (Z.to_nat (Z.max 1 (_tetSubdivisionLevels vn + 1 - (count + 1)))) by lia.
      exact H2.
    + eexists. split; [reflexivity|]. split; [reflexivity|]. exact I.
  - eexists. split; [reflexivity|]. split; [reflexivity|].
    unfold centroidUpOneLevel, centroidHalfAxisSize in E.
    destruct (halfAxisScan 16 1 tc) as [[h s]|]; cbn [bind] in E; [discriminate|].
    injection E as <-. reflexivity.
Qed.

(** The promotion loop of [parametricEdgeTet] is [promoteToPopulated], and the
    function returns when the loop does. *)
Lemma parametricEdgeTet_bounded (fuel : nat) (vn : vnBccTetrahedra) (vertex0 vertex1 : Z)
    (param : Q) :
  (16 <= fuel)%nat ->
  exists n r,
    parametricEdgeTetPromotions fuel vn vertex0 vertex1 param = Some n
    /\ 0 <= n <= 16
    /\ parametricEdgeTet fuel vn vertex0 vertex1 param = Some r.
Proof.
  intros Hf. unfold parametricEdgeTetPromotions, parametricEdgeTet.
  set (tC := gridLocusToLowestTetCentroid _).
  destruct (promoteToPopulated_bounded fuel vn tC 1 (equal_range vn tC) 0)
    as (n & r & H1 & H2 & _); [lia|cbn; lia|].
  rewrite H1. cbn [option_map fst].
  exists n. destruct r as [[[tC' level] pr]|e].
  - cbv zeta.
    destruct (1 <? level); [eexists; split; [reflexivity|split; [lia|reflexivity]]|].
    destruct (centroid_eqb _ _); [eexists; split; [reflexivity|split; [lia|reflexivity]]|].
    destruct (centroid_eqb _ _); [eexists; split; [reflexivity|split; [lia|reflexivity]]|].
    destruct pr as [|t [|t' rest]];
      eexists; (split; [reflexivity|split; [lia|reflexivity]]).
  - eexists; split; [reflexivity|split; [lia|reflexivity]].
Qed.

(** C6 (as amended): the promotion loops end within a bound that the source
    writes.  The loop of [parametricTriangleTet] and [parametricEdgeTet]
    ([promoteToPopulated]) calls [centroidUpOneLevel] at most 16 times,
    whatever the configured depth, and ends with a populated centroid or a
    fatal error, and [parametricEdgeTet] returns after it; the opening loop of
    [vertexSolidLinePath] ([promoteTarget]) makes at most
    [max 1 _tetSubdivisionLevels] calls and ends with a populated range of
    target tets or a fatal error; the [do ... while] of [vertexSolidLinePath]
    ([lookUp]) ends within [max 1 _tetSubdivisionLevels] turns, each with one
    call, and the only error it can end with is that of [centroidUpOneLevel]. *)
Theorem promotion_loops_bounded (vn : vnBccTetrahedra) (tC : bccTetCentroid)
    (targetTets : list Z) (fuel : nat) :
  (16 <= fuel)%nat ->
  Z.max 1 (_tetSubdivisionLevels vn) <= Z.of_nat fuel ->
  (exists n r,
     promoteToPopulated fuel vn tC 1 (equal_range vn tC) 0 = Some (n, r)
     /\ 0 <= n <= 16
     /\ populatedOrFatal16 vn n r)
  /\ (forall vertex0 vertex1 param,
        exists n r,
          parametricEdgeTetPromotions fuel vn vertex0 vertex1 param = Some n
          /\ 0 <= n <= 16
          /\ parametricEdgeTet fuel vn vertex0 vertex1 param = Some r)
  /\ (exists n r,
        promoteTarget fuel (_tetSubdivisionLevels vn) targetTets tC 1 0 = Some (n, r)
        /\ 0 <= n <= Z.max 1 (_tetSubdivisionLevels vn)
        /\ populatedOrFatal targetTets r)
  /\ (exists r,
        lookUp fuel vn tC 1 = Some r
        /\ lookUp (Z.to_nat (Z.max 1 (_tetSubdivisionLevels vn))) vn tC 1 = Some r
        /\ match r with
           | Done _ => True
           | Raise e => e = no_half_axis
           end).
Proof.
  intros Hf1 Hf2. split; [|split; [|split]].
  - destruct (promoteToPopulated_bounded fuel vn tC 1 (equal_range vn tC) 0)
      as (n & r & H1 & H2 & H3); [lia|cbn; lia|].
    exists n, r. split; [exact H1|]. split; [lia|].
    unfold populatedOrFatal16. destruct r as [[[tC' l] pr]|e].
    + destruct H3. split; [assumption|lia].
    + destruct H3 as [H3|[H3 H4]]; [left; assumption|right; split; [lia|assumption]].
  - intros vertex0 vertex1 param. apply parametricEdgeTet_bounded. exact Hf1.
  - destruct (promoteTarget_ends fuel (_tetSubdivisionLevels vn) targetTets tC 1 0)
      as (n & r & H1 & H2 & H3); [lia|lia|].
    exists n, r. split; [exact H1|]. split; [lia|exact H3].
  - destruct (lookUp_bounded fuel vn tC 1) as (r & H1 & H2 & H3); [lia|lia|].
    exists r. split; [exact H1|]. split; [|exact H3].
    replace (Z.max 1 (_tetSubdivisionLevels vn)) with (Z.max 1 (_tetSubdivisionLevels vn + 1 - 1))
      by (f_equal; lia).
    exact H2.
Qed.

Lemma promotion_loops_bounded_witness :
  (exists n r,
     promoteToPopulated 16 gapStore (9, 0, 2) 1 (equal_range gapStore (9, 0, 2)) 0 = Some (n, r)
     /\ 0 <= n <= 16
     /\ populatedOrFatal16 gapStore n r)
  /\ (forall vertex0 vertex1 param,
        exists n r,
          parametricEdgeTetPromotions 16 gapStore vertex0 vertex1 param = Some n
          /\ 0 <= n <= 16
          /\ parametricEdgeTet 16 gapStore vertex0 vertex1 param = Some r)
  /\ (exists n r,
        promoteTarget 16 (_tetSubdivisionLevels gapStore) (equal_range gapStore (9, 0, 2))
          (9, 0, 2) 1 0 = Some (n, r)
        /\ 0 <= n <= Z.max 1 (_tetSubdivisionLevels gapStore)
        /\ populatedOrFatal (equal_range gapStore (9, 0, 2)) r)
  /\ (exists r,
        lookUp 16 gapStore (9, 0, 2) 1 = Some r
        /\ lookUp (Z.to_nat (Z.max 1 (_tetSubdivisionLevels gapStore))) gapStore (9, 0, 2) 1
           = Some r
        /\ match r with
           | Done _ => True
           | Raise e => e = no_half_axis
           end).
Proof.
  apply (promotion_loops_bounded gapStore (9, 0, 2) (equal_range gapStore (9, 0, 2)) 16);
    cbn; lia.
Defined.

(** The claim C6 as it stands fails on [gapStore], whose configured depth is
    2: for the midpoint of the edge from vertex 0 to vertex 1 of triangle 0
    the loop of [parametricTriangleTet] promotes 16 times before it raises
    the error. *)
Lemma parametricTriangleTet_promotes_beyond_configured_depth :
  ~ (forall n,
       parametricTriangleTetPromotions 16 gapStore 0 (1 # 2, 0)%Q = Some n ->
       n <= _tetSubdivisionLevels gapStore).
Proof.
  intros H. specialize (H 16 eq_refl). cbn in H. lia.
Qed.

Section NeverBlocked.

Variable solve : Mat3x3f -> Vec3f -> Vec3f.
Variable vn : vnBccTetrahedra.
Hypothesis Hwell : wellIndexed vn = true.

Lemma equal_range_nonneg (tc : bccTetCentroid) (t : Z) :
  In t (equal_range vn tc) -> 0 <= t.
Proof.
  unfold equal_range. intros H. apply in_map_iff in H.
  destruct H as ([c t'] & <- & H). apply filter_In in H. destruct H as [H _].
  unfold wellIndexed in Hwell. apply andb_prop in Hwell as [Hh _].
  rewrite forallb_forall in Hh. specialize (Hh _ H). cbn [snd] in *. lia.
Qed.

Lemma vertexTet_nonneg (vertex : Z) : 0 <= vecAt (_vertexTets vn) vertex 0.
Proof.
  unfold vecAt, wellIndexed in *. apply andb_prop in Hwell as [_ Hv].
  rewrite forallb_forall in Hv.
  destruct (nth_in_or_default (Z.to_nat vertex) (_vertexTets vn) 0) as [H|H].
  - specialize (Hv _ H). lia.
  - rewrite H. lia.
Qed.

Lemma skipUnconnected_incl (nodeSet pr : list Z) :
  incl (skipUnconnected vn nodeSet pr) pr.
Proof.
  induction pr as [|t pr IH]; cbn [skipUnconnected]; [apply incl_refl|].
  destruct (existsb _ _); [apply incl_refl|].
  apply incl_tl. assumption.
Qed.

(** A turn of the walk goes on with a tet of the store or returns -1. *)
Lemma solidLineStep_result (fuel : nat) (vLoc N : Vec3f) (nodeSet : list Z)
  (tetNow sizeNow face : Z) (p : Q) (w : walkStep) :
  solidLineStep solve fuel vn vLoc N nodeSet tetNow sizeNow face p = Some (Done w) ->
  match w with
  | Return r => r = -1
  | Continue t _ _ _ => 0 <= t
  end.
Proof.
  unfold solidLineStep.
  destruct (faceAdjacentCentroid (tetCentroid vn tetNow) face) as [[adjFace tcAdj]|e];
    [|discriminate].
  set (pr := equal_range vn tcAdj).
  assert (Hpr : forall t, In t pr -> 0 <= t) by (intros t; apply equal_range_nonneg).
  pose proof (skipUnconnected_incl nodeSet pr) as Hincl.
  destruct pr as [|t0 rest0].
  - cbn [skipUnconnected].
    destruct (lookUp fuel vn tcAdj 1) as [[[t1|]|e1]|]; try discriminate.
    + intros [= <-]. reflexivity.
    + destruct (subtetCentroids tcAdj); [|discriminate].
      intros [= <-]. reflexivity.
  - destruct (skipUnconnected vn nodeSet (t0 :: rest0)) as [|t rest].
    + intros [= <-]. reflexivity.
    + destruct (tetIntersect solve vn vLoc N t sizeNow p) as [[[[b s] f] q]|e1]; [|discriminate].
      destruct b; intros [= <-]; [|reflexivity].
      apply Hpr, Hincl. left. reflexivity.
Qed.

Lemma solidLineWalk_result (fuel : nat) :
  forall (vLoc N : Vec3f) (nodeSet : list Z) (tetNow sizeNow face : Z) (p : Q) (r : Z),
    0 <= tetNow ->
    solidLineWalk solve fuel vn vLoc N nodeSet tetNow sizeNow face p = Some (Done r) ->
    -1 <= r.
Proof.
  induction fuel as [|fuel IH]; intros vLoc N nodeSet tetNow sizeNow face p r Ht;
    cbn [solidLineWalk]; destruct (Qlt_bool p 1).
  - discriminate.
  - destruct (gt p 1); intros [= <-]; lia.
  - destruct (solidLineStep solve (S fuel) vn vLoc N nodeSet tetNow sizeNow face p)
      as [[w|e]|] eqn:E; try discriminate.
    apply solidLineStep_result in E.
    destruct w as [r'|t s f q].
    + intros [= <-]. lia.
    + apply IH. assumption.
  - destruct (gt p 1); intros [= <-]; lia.
Qed.

(** X17: whatever the solver, the store, the vertex and the target, a run of
    [vertexSolidLinePath] that returns gives a tet index or -1: no return
    statement of the function gives the -2 that its header comment announces
    for a junction ([wellIndexed]: the tets of [_tetHash] and [_vertexTets]
    are indices, not negative). *)
Lemma vertexSolidLinePath_returns_tet_or_minus_one (fuel : nat) (vertex : Z)
  (materialTarget : Vec3f) (r : Z) :
  vertexSolidLinePath solve fuel vn vertex materialTarget = Some (Done r) ->
  -1 <= r.
Proof.
  unfold vertexSolidLinePath.
  set (tc := gridLocusToLowestTetCentroid materialTarget).
  destruct (promoteTarget fuel (_tetSubdivisionLevels vn) (equal_range vn tc) tc 1 0)
    as [[n [[tc' ts]|e]]|]; try discriminate.
  pose proof (equal_range_nonneg tc) as Hpr.
  pose proof (vertexTet_nonneg vertex) as Hv.
  set (walk :=
    match tetIntersect solve vn (vertexGridLocus vn vertex)
            (vsub materialTarget (vertexGridLocus vn vertex))
            (vecAt (_vertexTets vn) vertex 0) 0 0 with
    | Done (true, sizeNow, face, p) => _
    | Done (false, _, _, _) => _
    | Raise e => _
    end).
  assert (Hwalk : walk = Some (Done r) -> -1 <= r).
  { subst walk.
    destruct (tetIntersect solve vn _ _ _ 0 0) as [[[[b s] f] q]|e]; [|discriminate].
    destruct b.
    - apply solidLineWalk_result. assumption.
    - intros [= <-]. lia. }
  destruct (equal_range vn tc) as [|t [|t' rest]]; try exact Hwalk.
  intros [= <-]. specialize (Hpr t (or_introl eq_refl)). lia.
Qed.

(** The junction itself: when none of the tets stored under the adjacent
    centroid has a node of [nodeSet], the turn returns -1, the value that
    also reports that no path exists. *)
Lemma solidLineStep_unconnected_junction (fuel : nat) (vLoc N : Vec3f) (nodeSet : list Z)
  (tetNow sizeNow face adjFace : Z) (tcAdj : bccTetCentroid) (p : Q) :
  faceAdjacentCentroid (tetCentroid vn tetNow) face = Done (adjFace, tcAdj) ->
  (2 <= List.length (equal_range vn tcAdj))%nat ->
  skipUnconnected vn nodeSet (equal_range vn tcAdj) = [] ->
  solidLineStep solve fuel vn vLoc N nodeSet tetNow sizeNow face p = Some (Done (Return (-1))).
Proof.
  intros E Hlen Hskip. unfold solidLineStep. rewrite E.
  destruct (equal_range vn tcAdj) as [|t rest] eqn:Er; [cbn in Hlen; lia|].
  rewrite Hskip. reflexivity.
Qed.

End NeverBlocked.

Lemma vertexSolidLinePath_returns_tet_or_minus_one_witness :
  wellIndexed junctionStore = true
  /\ vertexSolidLinePath cramerSolve 4 junctionStore 0 (13 # 5, 2 # 1, 3 # 1)%Q = Some (Done 0)
  /\ -1 <= 0.
Proof.
  split; [vm_compute; reflexivity|]. split; [vm_compute; reflexivity|].
  apply (vertexSolidLinePath_returns_tet_or_minus_one cramerSolve junctionStore)
    with (fuel := 4%nat) (vertex := 0) (materialTarget := (13 # 5, 2 # 1, 3 # 1)%Q).
  - vm_compute. reflexivity.
  - vm_compute. reflexivity.
Defined.

(** C7 at the failing input: on [junctionStore] the walk from vertex 0
    towards [junctionTarget] comes to a centroid with two tets none of which
    has a node of the start tet, and [vertexSolidLinePath] returns -1, the
    value for "no path", where its header comment announces -2. *)
Theorem vertexSolidLinePath_junction_returns_not_found :
  wellIndexed junctionStore = true
  /\ equal_range junctionStore (gridLocusToLowestTetCentroid junctionTarget) = [1; 2]
  /\ vertexSolidLinePath cramerSolve 4 junctionStore 0 junctionTarget = Some (Done (-1)).
Proof. vm_compute. repeat split; reflexivity. Qed.

(** ** The six tets of a unit cube *)

Lemma Qfloor_unique (x : Q) (n : Z) :
  (inject_Z n <= x)%Q -> (x < inject_Z (n + 1))%Q -> Qfloor x = n.
Proof.
  intros H1 H2.
  pose proof (Qfloor_le x) as F1. pose proof (Qlt_floor x) as F2.
  assert (A : n < Qfloor x + 1).
  { rewrite Zlt_Qlt. eapply Qle_lt_trans; eassumption. }
  assert (B : Qfloor x < n + 1).
  { rewrite Zlt_Qlt. eapply Qle_lt_trans; eassumption. }
  lia.
Qed.

Lemma Qtrunc_nonneg (x : Q) : (0 <= x)%Q -> Qtrunc x = Qfloor x.
Proof.
  destruct x as [n d]. unfold Qtrunc, Qfloor, Qle. cbn. intros H.
  apply Z.quot_div_nonneg; lia.
Qed.

(** The conversion of a doubled half-integer: [(unsigned short)(h * 2.00001f)]
    is twice [h] when [h] is half of [n] and [n] is an [unsigned short]. *)
Lemma floatToUShort_doubled (h : Q) (n : Z) :
  0 <= n < 65536 -> (h == inject_Z n / 2)%Q ->
  floatToUShort (h * (200001 # 100000)) = n.
Proof.
  intros Hn Hh. unfold floatToUShort, ushort.
  assert (Hq : (0 <= inject_Z n)%Q).
  { change 0%Q with (inject_Z 0). rewrite <- Zle_Qle. lia. }
  assert (Hq' : (inject_Z n < 65536)%Q).
  { change 65536%Q with (inject_Z 65536). rewrite <- Zlt_Qlt. lia. }
  assert (Hx : (h * (200001 # 100000) == inject_Z n * (200001 # 200000))%Q).
  { rewrite Hh. field. }
  rewrite Qtrunc_nonneg by (rewrite Hx; lra).
  rewrite (Qfloor_unique _ n).
  - apply Z.mod_small. assumption.
  - rewrite Hx. lra.
  - rewrite Hx, inject_Z_plus. change (inject_Z 1) with 1%Q. lra.
Qed.

Lemma insideTetScan_step (n : nat) (dd : Z) (tc : bccTetCentroid) :
  insideTetScan (S n) dd tc =
    if truthy (Z.land (at3 tc 0) dd) then Some (0, dd)
    else if truthy (Z.land (at3 tc 1) dd) then Some (1, dd)
    else if truthy (Z.land (at3 tc 2) dd) then Some (2, dd)
    else insideTetScan n (Z.shiftl dd 1) tc.
Proof. reflexivity. Qed.

Lemma insideTetAt_margins (hc dd0 : Z) (tc : bccTetCentroid) (p : Vec3f) :
  insideTetAt hc dd0 tc p = forallb (Qle_bool 0) (insideTetMargins hc dd0 tc p).
Proof.
  unfold insideTetAt, insideTetMargins, gtInt, Qlt_bool.
  assert (E : forall a b : Q, Qle_bool a b = Qle_bool 0 (b - a)).
  { intros a b. apply eq_true_iff_eq. rewrite !Qle_bool_iff. split; intros; lra. }
  destruct (_ =? _); cbn [forallb];
    rewrite <- !E;
    repeat match goal with
      | |- context [Qle_bool ?a ?b] => destruct (Qle_bool a b); cbn [negb andb]; try reflexivity
      end.
Qed.

Lemma odd_double_succ (A : Z) : (2 * A + 1) mod 2 = 1.
Proof. lia. Qed.

Lemma even_double (A : Z) : (2 * A) mod 2 = 0.
Proof. lia. Qed.

Lemma land2_double_succ (A : Z) : Z.land (2 * A + 1) 2 = 2 * (A mod 2).
Proof. rewrite land_2. lia. Qed.

Lemma land2_double (A : Z) : Z.land (2 * A) 2 = 2 * (A mod 2).
Proof. rewrite land_2. lia. Qed.

Lemma shiftr_double_succ (A : Z) : Z.shiftr (2 * A + 1) 1 = A.
Proof. rewrite shiftr_1. lia. Qed.

Lemma shiftr_double (A : Z) : Z.shiftr (2 * A) 1 = A.
Proof. rewrite shiftr_1. lia. Qed.

Lemma up_test (A C : Z) : (2 * (A mod 2) =? 2 * (C mod 2)) = (A mod 2 =? C mod 2).
Proof. lia. Qed.

Ltac micro_margins :=
  unfold insideTetMargins, microMargins;
  cbv beta iota zeta delta [at3]; axis_norm; cbv beta iota zeta;
  change (Z.shiftl 1 1) with 2; change (2 <? 3) with true; cbv beta iota zeta;
  rewrite ?land2_double_succ, ?land2_double, ?shiftr_double_succ, ?shiftr_double, ?up_test;
  reflexivity.

Lemma margins_hc0 (A B C : Z) (x y z : Q) :
  insideTetMargins 0 1 (2 * A + 1, 2 * B, 2 * C) (x, y, z)
  = microMargins (A mod 2 =? C mod 2) A B C x y z.
Proof. micro_margins. Qed.

Lemma margins_hc1 (A B C : Z) (x y z : Q) :
  insideTetMargins 1 1 (2 * C, 2 * A + 1, 2 * B) (x, y, z)
  = microMargins (A mod 2 =? C mod 2) A B C y z x.
Proof. micro_margins. Qed.

Lemma margins_hc2 (A B C : Z) (x y z : Q) :
  insideTetMargins 2 1 (2 * B, 2 * C, 2 * A + 1) (x, y, z)
  = microMargins (A mod 2 =? C mod 2) A B C z x y.
Proof. micro_margins. Qed.

Lemma scan_hc0 (A B C : Z) : insideTetScan 16 1 (2 * A + 1, 2 * B, 2 * C) = Some (0, 1).
Proof.
  rewrite insideTetScan_step. cbn [at3].
  rewrite truthy_land1_odd by apply odd_double_succ. reflexivity.
Qed.

Lemma scan_hc1 (A B C : Z) : insideTetScan 16 1 (2 * C, 2 * A + 1, 2 * B) = Some (1, 1).
Proof.
  rewrite insideTetScan_step. cbn [at3].
  rewrite truthy_land1_even by apply even_double.
  rewrite truthy_land1_odd by apply odd_double_succ. reflexivity.
Qed.

Lemma scan_hc2 (A B C : Z) : insideTetScan 16 1 (2 * B, 2 * C, 2 * A + 1) = Some (2, 1).
Proof.
  rewrite insideTetScan_step. cbn [at3].
  rewrite !truthy_land1_even by apply even_double.
  rewrite truthy_land1_odd by apply odd_double_succ. reflexivity.
Qed.

Lemma isInside_hc0 (A B C : Z) (x y z : Q) :
  isInside (x, y, z) (2 * A + 1, 2 * B, 2 * C)
  = forallb (Qle_bool 0) (microMargins (A mod 2 =? C mod 2) A B C x y z).
Proof.
  unfold isInside, insideTet. rewrite scan_hc0, insideTetAt_margins, margins_hc0.
  destruct (forallb _ _); reflexivity.
Qed.

Lemma isInside_hc1 (A B C : Z) (x y z : Q) :
  isInside (x, y, z) (2 * C, 2 * A + 1, 2 * B)
  = forallb (Qle_bool 0) (microMargins (A mod 2 =? C mod 2) A B C y z x).
Proof.
  unfold isInside, insideTet. rewrite scan_hc1, insideTetAt_margins, margins_hc1.
  destruct (forallb _ _); reflexivity.
Qed.

Lemma isInside_hc2 (A B C : Z) (x y z : Q) :
  isInside (x, y, z) (2 * B, 2 * C, 2 * A + 1)
  = forallb (Qle_bool 0) (microMargins (A mod 2 =? C mod 2) A B C z x y).
Proof.
  unfold isInside, insideTet. rewrite scan_hc2, insideTetAt_margins, margins_hc2.
  destruct (forallb _ _); reflexivity.
Qed.

Lemma onTetFace_hc0 (A B C : Z) (x y z : Q) :
  onTetFace (2 * A + 1, 2 * B, 2 * C) (x, y, z)
  = forallb (Qle_bool 0) (microMargins (A mod 2 =? C mod 2) A B C x y z)
    && existsb (Qeq_bool 0) (microMargins (A mod 2 =? C mod 2) A B C x y z).
Proof. unfold onTetFace. rewrite scan_hc0, insideTetAt_margins, margins_hc0. reflexivity. Qed.

Lemma onTetFace_hc1 (A B C : Z) (x y z : Q) :
  onTetFace (2 * C, 2 * A + 1, 2 * B) (x, y, z)
  = forallb (Qle_bool 0) (microMargins (A mod 2 =? C mod 2) A B C y z x)
    && existsb (Qeq_bool 0) (microMargins (A mod 2 =? C mod 2) A B C y z x).
Proof. unfold onTetFace. rewrite scan_hc1, insideTetAt_margins, margins_hc1. reflexivity. Qed.

Lemma onTetFace_hc2 (A B C : Z) (x y z : Q) :
  onTetFace (2 * B, 2 * C, 2 * A + 1) (x, y, z)
  = forallb (Qle_bool 0) (microMargins (A mod 2 =? C mod 2) A B C z x y)
    && existsb (Qeq_bool 0) (microMargins (A mod 2 =? C mod 2) A B C z x y).
Proof. unfold onTetFace. rewrite scan_hc2, insideTetAt_margins, margins_hc2. reflexivity. Qed.

Ltac push_inject :=
  unfold Z.sub in *;
  repeat (rewrite inject_Z_plus in * || rewrite inject_Z_mult in *
          || rewrite inject_Z_opp in * );
  change (inject_Z 0) with 0%Q in *; change (inject_Z 1) with 1%Q in *;
  change (inject_Z 2) with 2%Q in *.

(** The six centroids of the unit cube with minimum corner [(m0, m1, m2)],
    by the parities of the corner. *)
Lemma unitCubeCentroids_explicit (m0 m1 m2 : Z) :
  cubeInRange (m0, m1, m2) = true ->
  unitCubeCentroids (m0, m1, m2) =
    let s0 := truthy (Z.land m0 1) in
    let s1 := truthy (Z.land m1 1) in
    let s2 := truthy (Z.land m2 1) in
    let split : triple bool :=
      if Bool.eqb s0 s1 && Bool.eqb s0 s2 then (true, true, true)
      else if Bool.eqb s0 s1 then (false, false, true)
      else if Bool.eqb s0 s2 then (false, true, false)
      else (true, false, false) in
    let lo (b : bool) := if b then 0 else 1 in
    let hi (b : bool) := if b then 1 else 0 in
    [ (2 * m0 + 1, 2 * (m1 + 1), 2 * (m2 + lo (at3 split 0)));
      (2 * m0 + 1, 2 * m1, 2 * (m2 + hi (at3 split 0)));
      (2 * (m0 + lo (at3 split 1)), 2 * m1 + 1, 2 * (m2 + 1));
      (2 * (m0 + hi (at3 split 1)), 2 * m1 + 1, 2 * m2);
      (2 * (m0 + 1), 2 * (m1 + lo (at3 split 2)), 2 * m2 + 1);
      (2 * m0, 2 * (m1 + hi (at3 split 2)), 2 * m2 + 1) ].
Proof.
  intros H. unfold cubeInRange in H.
  unfold unitCubeCentroids, unitCubeCentroidLoci. cbn [at3].
  destruct (truthy (Z.land m0 1)), (truthy (Z.land m1 1)), (truthy (Z.land m2 1));
    cbn [Bool.eqb andb];
    cbv beta iota zeta delta [flat_map map app];
    change (0 <? 2) with true; change (1 <? 2) with true; change (2 <? 2) with false;
    cbv beta iota zeta;
    change (0 + 1) with 1; change (1 + 1) with 2;
    change (1 <? 2) with true; change (2 <? 2) with false; change (0 <? 2) with true;
    cbv beta iota zeta;
    change (0 + 1) with 1; change (1 + 1) with 2;
    cbv beta iota zeta delta [addF set3 at3 vscale vecToCentroid];
    repeat f_equal;
    (apply floatToUShort_doubled; [lia | push_inject; unfold half; field]).
Qed.

Lemma truthy_land1_eqb (x : Z) : truthy (Z.land x 1) = (x mod 2 =? 1).
Proof. unfold truthy. rewrite land_1. lia. Qed.



Ltac decide_up :=
  repeat match goal with
    | |- context [?a mod 2 =? ?b mod 2] =>
        let E := fresh "Eup" in
        destruct (a mod 2 =? b mod 2) eqn:E; [try (exfalso; lia) | try (exfalso; lia)];
        clear E
    | H : context [?a mod 2 =? ?b mod 2] |- _ =>
        let E := fresh "Eup" in
        destruct (a mod 2 =? b mod 2) eqn:E; [try (exfalso; lia) | try (exfalso; lia)];
        clear E
    end.


Ltac inside_facts :=
  rewrite ?isInside_hc0, ?isInside_hc1, ?isInside_hc2,
    ?onTetFace_hc0, ?onTetFace_hc1, ?onTetFace_hc2 in *.

(** Margins that are all non-negative and none of which is zero are all
    positive. *)
Lemma tight_or_strict (a b c d : Q) :
  forallb (Qle_bool 0) [a; b; c; d] = true ->
  existsb (Qeq_bool 0) [a; b; c; d] = true \/ (0 < a /\ 0 < b /\ 0 < c /\ 0 < d)%Q.
Proof.
  cbn [forallb existsb]. rewrite andb_true_r, orb_false_r.
  rewrite !andb_true_iff, !Qle_bool_iff. intros (Ha & Hb & Hc & Hd).
  destruct (Qeq_bool 0 a) eqn:Ea; [left; reflexivity|].
  destruct (Qeq_bool 0 b) eqn:Eb; [left; reflexivity|].
  destruct (Qeq_bool 0 c) eqn:Ec; [left; reflexivity|].
  destruct (Qeq_bool 0 d) eqn:Ed; [left; reflexivity|].
  right.
  apply Qeq_bool_neq in Ea, Eb, Ec, Ed.
  repeat split; lra.
Qed.


Ltac strict_props :=
  cbn [microMargins forallb] in *;
  rewrite ?andb_true_r in *;
  repeat (rewrite andb_true_iff in * || rewrite Qle_bool_iff in * );
  repeat match goal with
    | H : Forall _ (_ :: _) |- _ => inversion H; clear H; subst
    | H : Forall _ [] |- _ => clear H
    end;
  push_inject.

Lemma eqb_parity (a b : Z) :
  Bool.eqb (a mod 2 =? 1) (b mod 2 =? 1) = (a mod 2 =? b mod 2).
Proof.
  destruct (a mod 2 =? 1) eqn:Ea, (b mod 2 =? 1) eqn:Eb; cbn [Bool.eqb]; lia.
Qed.






(** ** Barycentric weights, [insideTet] and the inverse matrices *)

Lemma div_odd_multiple (s A : Z) : 0 < s -> (s * (2 * A + 1)) / (2 * s) = A.
Proof.
  intros Hs. symmetry. apply (Z.div_unique _ _ A s); lia.
Qed.

Lemma div_even_multiple (s C : Z) : 0 < s -> (s * (2 * C)) / (2 * s) = C.
Proof.
  intros Hs. replace (s * (2 * C)) with (C * (2 * s)) by ring. apply Z.div_mul. lia.
Qed.

(** A valid centroid by its coordinates. *)
Lemma validCentroid_coords (tc : bccTetCentroid) :
  validCentroid tc = true ->
  exists (hc : Z) (j : nat) (A B C : Z),
    (j < 15)%nat /\ 0 <= hc < 3
    /\ centroidHalfAxisSize tc = Done (hc, 2 ^ Z.of_nat j)
    /\ at3 tc hc = 2 ^ Z.of_nat j * (2 * A + 1)
    /\ at3 tc ((hc + 1) mod 3) = 2 ^ Z.of_nat j * (2 * B)
    /\ at3 tc ((hc + 2) mod 3) = 2 ^ Z.of_nat j * (2 * C)
    /\ B mod 2 <> C mod 2
    /\ in_ushort tc = true.
Proof.
  intros Hv.
  destruct (validCentroid_shape tc Hv) as (hc & j & Hj & Hhc & E & Hin & H0 & H1 & H2 & Hne).
  pose proof (pow2_pos j) as Hp.
  set (s := 2 ^ Z.of_nat j) in *.
  exists hc, j, (at3 tc hc / (2 * s)), (at3 tc ((hc + 1) mod 3) / (2 * s)),
    (at3 tc ((hc + 2) mod 3) / (2 * s)).
  fold s.
  pose proof (Z.div_mod (at3 tc hc) (2 * s) ltac:(lia)) as D0.
  pose proof (Z.div_mod (at3 tc ((hc + 1) mod 3)) (2 * s) ltac:(lia)) as D1.
  pose proof (Z.div_mod (at3 tc ((hc + 2) mod 3)) (2 * s) ltac:(lia)) as D2.
  rewrite H0 in D0. rewrite H1 in D1. rewrite H2 in D2.
  repeat split; try assumption; try lia.
Qed.

Lemma shiftl_pow2 (j : nat) : Z.shiftl (2 ^ Z.of_nat j) 1 = 2 ^ Z.of_nat (S j).
Proof. rewrite shiftl_1, pow2_succ. ring. Qed.

Lemma up_test_scaled (j : nat) (A C : Z) :
  (Z.land (2 ^ Z.of_nat j * (2 * A + 1)) (Z.shiftl (2 ^ Z.of_nat j) 1)
   =? Z.land (2 ^ Z.of_nat j * (2 * C)) (Z.shiftl (2 ^ Z.of_nat j) 1))
  = (A mod 2 =? C mod 2).
Proof.
  pose proof (pow2_pos j) as Hp.
  rewrite shiftl_pow2, !land_pow2 by lia.
  rewrite pow2_succ, div_odd_multiple, div_even_multiple by assumption.
  set (s := 2 ^ Z.of_nat j) in *.
  destruct (A mod 2 =? C mod 2) eqn:E.
  - apply Z.eqb_eq in E. rewrite E. apply Z.eqb_refl.
  - apply Z.eqb_neq in E. apply Z.eqb_neq. intros H. apply E.
    apply Z.mul_reg_l in H; [assumption|lia].
Qed.


(** The shifts of [insideTet], for a size [2 ^ j]. *)
Lemma insideTet_shifts (j : nat) (A : Z) :
  let s := 2 ^ Z.of_nat j in
  let dd := Z.shiftl s 1 in
  (if dd <? 3 then Z.shiftr (s * (2 * A + 1)) 1
   else Z.shiftr (s * (2 * A + 1)) 1 - Z.shiftr dd 2) = s * A
  /\ (if dd <? 3 then s * A + 1 else s * A + Z.shiftr dd 1) = s * A + s
  /\ (if dd <? 3 then Z.shiftr (s * (2 * A + 1)) 1 + 1
      else Z.shiftr (s * (2 * A + 1)) 1 + Z.shiftr dd 2) = s * A + s
  /\ (if dd <? 3 then s * A + s - 1 else s * A + s - Z.shiftr dd 1) = s * A.
Proof.
  cbv zeta. rewrite shiftl_1. destruct j as [|j].
  - change (2 ^ Z.of_nat 0) with 1. change (1 * 2) with 2. change (2 <? 3) with true.
    cbv iota. rewrite !shiftr_1. repeat split; lia.
  - rewrite pow2_succ. pose proof (pow2_pos j) as Hp. set (t := 2 ^ Z.of_nat j) in *.
    assert (E : (2 * t * 2 <? 3) = false) by lia. rewrite E.
    rewrite !shiftr_1. rewrite (Z.shiftr_div_pow2 _ 2) by lia. change (2 ^ 2) with 4.
    replace (2 * t * 2) with (t * 4) by ring. rewrite Z.div_mul by lia.
    replace (t * 4 / 2) with (t * 2) by (apply (Z.div_unique _ _ _ 0); lia).
    replace (2 * t * (2 * A + 1) / 2) with (t * (2 * A + 1))
      by (apply (Z.div_unique _ _ _ 0); lia).
    repeat split; ring.
Qed.


Lemma shiftr_even_multiple (s C : Z) : Z.shiftr (s * (2 * C)) 1 = s * C.
Proof. rewrite shiftr_1. apply eq_sym, (Z.div_unique _ _ _ 0); lia. Qed.

Lemma insideTetMargins_coords (hc : Z) (j : nat) (A B C : Z) (tc : bccTetCentroid) (p : Vec3f) :
  at3 tc hc = 2 ^ Z.of_nat j * (2 * A + 1) ->
  at3 tc ((hc + 1) mod 3) = 2 ^ Z.of_nat j * (2 * B) ->
  at3 tc ((hc + 2) mod 3) = 2 ^ Z.of_nat j * (2 * C) ->
  insideTetMargins hc (2 ^ Z.of_nat j) tc p
  = tetMargins (A mod 2 =? C mod 2) (2 ^ Z.of_nat j) A B C
      (at3 p hc) (at3 p ((hc + 1) mod 3)) (at3 p ((hc + 2) mod 3)).
Proof.
  intros H0 H1 H2. unfold insideTetMargins, tetMargins. cbv zeta.
  rewrite H0, H1, H2, up_test_scaled, !shiftr_even_multiple.
  destruct (insideTet_shifts j A) as (S1 & S2 & S3 & S4). cbv zeta in S1, S2, S3, S4.
  rewrite S1, S2, S3, S4. reflexivity.
Qed.

(** The four nodes of a valid centroid whose doubled node positions fit the
    [short] type, by their doubles: with [e] = 1 for an "up" tet and -1 for a
    "down" tet, nodes 0 and 1 are at [-e * size] on the half axis and at
    [-/+ 2 * size] on the axis after it, nodes 2 and 3 are at [e * size] on
    the half axis and at [+/- e * 2 * size] on the third axis. *)
Lemma nodeLoci_explicit (tc : bccTetCentroid) :
  validCentroid tc = true ->
  nodesFitShort tc = true ->
  exists hc s e n0 n1 n2 n3,
    centroidHalfAxisSize tc = Done (hc, s) /\ 0 <= hc < 3 /\ 0 < s
    /\ (e = 1 \/ e = -1)
    /\ (e = 1 <->
        Z.land (at3 tc hc) (Z.shiftl s 1) = Z.land (at3 tc ((hc + 2) mod 3)) (Z.shiftl s 1))
    /\ centroidToNodeLoci tc = Done [n0; n1; n2; n3]
    /\ (2 * at3 n0 hc = at3 tc hc - e * s
        /\ 2 * at3 n0 ((hc + 1) mod 3) = at3 tc ((hc + 1) mod 3) - 2 * s
        /\ 2 * at3 n0 ((hc + 2) mod 3) = at3 tc ((hc + 2) mod 3))
    /\ (2 * at3 n1 hc = at3 tc hc - e * s
        /\ 2 * at3 n1 ((hc + 1) mod 3) = at3 tc ((hc + 1) mod 3) + 2 * s
        /\ 2 * at3 n1 ((hc + 2) mod 3) = at3 tc ((hc + 2) mod 3))
    /\ (2 * at3 n2 hc = at3 tc hc + e * s
        /\ 2 * at3 n2 ((hc + 1) mod 3) = at3 tc ((hc + 1) mod 3)
        /\ 2 * at3 n2 ((hc + 2) mod 3) = at3 tc ((hc + 2) mod 3) + e * (2 * s))
    /\ (2 * at3 n3 hc = at3 tc hc + e * s
        /\ 2 * at3 n3 ((hc + 1) mod 3) = at3 tc ((hc + 1) mod 3)
        /\ 2 * at3 n3 ((hc + 2) mod 3) = at3 tc ((hc + 2) mod 3) - e * (2 * s)).
Proof.
  intros Hv Hfit.
  destruct (validCentroid_shape tc Hv) as (hc & j & Hj & Hhc & E & Hin & H0 & H1 & H2 & _).
  destruct (validCentroid_parities tc hc j H0 H1 H2) as (P0 & P1 & P2).
  unfold nodesFitShort in Hfit. rewrite E in Hfit.
  pose proof (pow2_pos j) as Hp.
  set (s := 2 ^ Z.of_nat j) in *. clearbody s. clear H0 H1 H2 Hv.
  unfold centroidToNodeLoci. rewrite E. cbn [bind].
  destruct tc as [[a b] c]. apply in_ushort_bounds in Hin.
  exists hc, s.
  assert (hc = 0 \/ hc = 1 \/ hc = 2) as [-> | [-> | ->]] by lia;
    axis_norm; cbn [at3] in *.
  all: assert (Hb : 0 <= a <= 32767 /\ 0 <= b <= 32767 /\ 0 <= c <= 32767) by lia.
  all: cbv beta iota zeta delta [nodeLociDoubled addS at3 set3 Z.ltb Z.compare Pos.compare Pos.compare_cont];
    cbn [Z.add Z.sub Z.opp Pos.add Z.pos_sub Pos.pred_double];
    cbv beta iota zeta delta [at3 set3].
  all: destruct (Z.land _ (Z.shiftl s 1) =? Z.land _ (Z.shiftl s 1)) eqn:Eup;
    [exists 1 | exists (-1)].
  all: rewrite shiftl_1 in *.
  all: rewrite (sshort_small a), (sshort_small b), (sshort_small c) by lia.
  all: rewrite !sshort_small by lia.
  all: cbn [map halveLocus].
  all: name_halves.
  all: do 4 eexists.
  all: (split; [reflexivity|]); (split; [lia|]); (split; [lia|]); (split; [lia|]).
  all: (split; [lia|]); (split; [reflexivity|]).
  all: cbn [at3]; lia.
Qed.


Lemma at3_vecOfShorts (g : triple Z) (i : Z) : at3 (vecOfShorts g) i = inject_Z (at3 g i).
Proof.
  destruct g as [[? ?] ?]. unfold vecOfShorts, at3. destruct i as [|[?|?|]|?]; reflexivity.
Qed.

Lemma centroidHalfAxisSize_scan (tc : bccTetCentroid) (hc s : Z) :
  centroidHalfAxisSize tc = Done (hc, s) -> insideTetScan 16 1 tc = Some (hc, s).
Proof.
  unfold centroidHalfAxisSize. change (insideTetScan 16 1 tc) with (halfAxisScan 16 1 tc).
  destruct (halfAxisScan 16 1 tc) as [r|]; [|discriminate]. intros [= ->]. reflexivity.
Qed.

Lemma forallb_Qle4 (a b c d : Q) :
  forallb (Qle_bool 0) [a; b; c; d] = true <-> (0 <= a /\ 0 <= b /\ 0 <= c /\ 0 <= d)%Q.
Proof.
  cbn [forallb]. rewrite !andb_true_iff, !Qle_bool_iff. tauto.
Qed.

Lemma validMicrotet_coords (tc : bccTetCentroid) :
  validMicrotet tc = true ->
  exists (hc A B C : Z),
    0 <= hc < 3
    /\ centroidHalfAxisSize tc = Done (hc, 1)
    /\ at3 tc hc = 2 * A + 1
    /\ at3 tc ((hc + 1) mod 3) = 2 * B
    /\ at3 tc ((hc + 2) mod 3) = 2 * C
    /\ B mod 2 <> C mod 2
    /\ in_ushort tc = true.
Proof.
  unfold validMicrotet. intros H. apply andb_prop in H as [Hv Hs].
  destruct (validCentroid_coords tc Hv) as (hc & j & A & B & C & Hj & Hhc & E & H0 & H1 & H2 & Hne & Hin).
  unfold centroidSize in Hs. rewrite E in Hs. apply Z.eqb_eq in Hs.
  rewrite Hs in *. exists hc, A, B, C. repeat split; try assumption; lia.
Qed.

(** The conversion of a doubled half-integer with the factor of
    [gridLocusToLowestTetCentroid]: [(unsigned short)(h * 2.0001f)] is twice
    [h] when [h] is half of [n] and [n] is below 20000. *)
Lemma floatToUShort_doubled_coarse (h : Q) (n : Z) :
  0 <= n < 20000 -> (h == inject_Z n / 2)%Q ->
  floatToUShort (h * (20001 # 10000)) = n.
Proof.
  intros Hn Hh. unfold floatToUShort, ushort.
  assert (Hq : (0 <= inject_Z n)%Q).
  { change 0%Q with (inject_Z 0). rewrite <- Zle_Qle. lia. }
  assert (Hq' : (inject_Z n < 20000)%Q).
  { change 20000%Q with (inject_Z 20000). rewrite <- Zlt_Qlt. lia. }
  assert (Hx : (h * (20001 # 10000) == inject_Z n * (20001 # 20000))%Q).
  { rewrite Hh. field. }
  rewrite Qtrunc_nonneg by (rewrite Hx; lra).
  rewrite (Qfloor_unique _ n).
  - apply Z.mod_small. lia.
  - rewrite Hx. lra.
  - rewrite Hx, inject_Z_plus. change (inject_Z 1) with 1%Q. lra.
Qed.

Lemma lowRange_cubeInRange (m : triple Z) : lowRange m = true -> cubeInRange m = true.
Proof. destruct m as [[m0 m1] m2]. unfold lowRange, cubeInRange. lia. Qed.

Lemma gt_true (a b : Q) : (b < a)%Q -> gt a b = true.
Proof.
  intros H. unfold gt, Qlt_bool. apply negb_true_iff.
  destruct (Qle_bool a b) eqn:E; [|reflexivity].
  apply Qle_bool_iff in E. lra.
Qed.

Lemma gt_false (a b : Q) : (a <= b)%Q -> gt a b = false.
Proof.
  intros H. unfold gt, Qlt_bool. apply negb_false_iff. apply Qle_bool_iff. assumption.
Qed.

Ltac decide_gt :=
  repeat match goal with
    | |- context [gt ?a ?b] =>
        first [ rewrite (gt_true a b) by lra | rewrite (gt_false a b) by lra ]
    end.

Lemma isInside_insideTet (p : Vec3f) (tc : bccTetCentroid) :
  insideTet tc p = Some true -> isInside p tc = true.
Proof. unfold isInside. intros ->. reflexivity. Qed.

Lemma strictly_inside_margins (up : bool) (A B C : Z) (h c1 c2 : Q) :
  forallb (Qle_bool 0) (microMargins up A B C h c1 c2) = true ->
  forallb (Qle_bool 0) (microMargins up A B C h c1 c2)
  && existsb (Qeq_bool 0) (microMargins up A B C h c1 c2) = false ->
  Forall (fun a => (0 < a)%Q) (microMargins up A B C h c1 c2).
Proof.
  intros Hin Hno. rewrite Hin in Hno. cbn [andb] in Hno.
  destruct up; cbn [microMargins] in *;
    (destruct (tight_or_strict _ _ _ _ Hin) as [Ht|(H1 & H2 & H3 & H4)];
     [congruence | repeat constructor; assumption]).
Qed.

(** In exact arithmetic a point of a unit cube that is strictly inside one
    of the six tets of [unitCubeCentroids] gets the centroid of that tet from
    [gridLocusToLowestTetCentroid], for cubes with coordinates up to 9998. *)
Lemma lowestTetCentroid_of_interior_exact (m : triple Z) (i : nat) (p : Vec3f) :
  lowRange m = true ->
  (i < 6)%nat ->
  inCell m p ->
  insideTet (nth i (unitCubeCentroids m) (0, 0, 0)) p = Some true ->
  onTetFace (nth i (unitCubeCentroids m) (0, 0, 0)) p = false ->
  gridLocusToLowestTetCentroid p = nth i (unitCubeCentroids m) (0, 0, 0).
Proof.
  destruct m as [[m0 m1] m2], p as [[x y] z]. intros Hr Hi Hc Hin Hface.
  unfold inCell in Hc.
  apply isInside_insideTet in Hin.
  rewrite (unitCubeCentroids_explicit m0 m1 m2 (lowRange_cubeInRange _ Hr)) in *.
  unfold lowRange in Hr.
  cbv beta zeta in *. rewrite !truthy_land1_eqb, !eqb_parity in *.
  destruct (Z.eqb_spec (m0 mod 2) (m1 mod 2)) as [P1|P1],
           (Z.eqb_spec (m0 mod 2) (m2 mod 2)) as [P2|P2];
    cbn [andb at3] in *; cbv beta iota zeta in *.
  all: destruct i as [|[|[|[|[|[|i]]]]]]; try lia; cbn [nth] in *.
  all: inside_facts; decide_up.
  all: pose proof (strictly_inside_margins _ _ _ _ _ _ _ Hin Hface) as Hs; clear Hin Hface.
  all: strict_props.
  all: assert (Fx : Qfloor x = m0) by (apply Qfloor_unique; push_inject; lra).
  all: assert (Fy : Qfloor y = m1) by (apply Qfloor_unique; push_inject; lra).
  all: assert (Fz : Qfloor z = m2) by (apply Qfloor_unique; push_inject; lra).
  all: unfold gridLocusToLowestTetCentroid; cbn [at3]; rewrite Fx, Fy, Fz.
  all: rewrite !sshort_small by lia.
  all: cbv zeta; cbn [at3].
  all: rewrite !truthy_land1_eqb, !eqb_parity.
  all: repeat match goal with
         | |- context [?a mod 2 =? ?b mod 2] =>
             first [ replace (a mod 2 =? b mod 2) with true by lia
                   | replace (a mod 2 =? b mod 2) with false by lia ]
         end.
  all: cbn [andb]; cbv iota.
  all: decide_gt.
  all: cbn [andb]; cbv iota.
  all: decide_gt; cbv iota.
  all: cbv beta iota zeta delta [addF set3 at3 vscale vecToCentroid].
  all: triple_eq; (apply floatToUShort_doubled_coarse; [lia | push_inject; unfold half; field]).
Qed.

Ltac pick_member :=
  cbn [In];
  first
    [ left; symmetry; triple_eq;
      (apply floatToUShort_doubled_coarse; [lia | push_inject; unfold half; field])
    | right; pick_member ].

(** X6: [gridLocusToLowestTetCentroid] returns one of the six centroids that
    [unitCubeCentroids] lists for the unit cube of the point, for cubes with
    coordinates up to 9998. *)
Theorem lowestTetCentroid_in_cube (m : triple Z) (p : Vec3f) :
  lowRange m = true ->
  inCell m p ->
  In (gridLocusToLowestTetCentroid p) (unitCubeCentroids m).
Proof.
  destruct m as [[m0 m1] m2], p as [[x y] z]. intros Hr Hc.
  unfold inCell in Hc.
  rewrite (unitCubeCentroids_explicit m0 m1 m2 (lowRange_cubeInRange _ Hr)).
  unfold lowRange in Hr.
  assert (Fx : Qfloor x = m0) by (apply Qfloor_unique; push_inject; lra).
  assert (Fy : Qfloor y = m1) by (apply Qfloor_unique; push_inject; lra).
  assert (Fz : Qfloor z = m2) by (apply Qfloor_unique; push_inject; lra).
  unfold gridLocusToLowestTetCentroid; cbn [at3]; rewrite Fx, Fy, Fz.
  rewrite !sshort_small by lia.
  clear Hc Fx Fy Fz.
  cbv zeta; cbn [at3].
  rewrite !truthy_land1_eqb, !eqb_parity.
  destruct (m0 mod 2 =? m1 mod 2), (m0 mod 2 =? m2 mod 2); cbn [andb at3]; cbv iota.
  all: repeat match goal with
         | |- context [gt ?a ?b] => destruct (gt a b)
         end; cbn [andb]; cbv iota.
  all: cbv beta iota zeta delta [addF set3 at3 vscale vecToCentroid].
  all: pick_member.
Qed.

(** The comparisons of [gridLocusToLowestTetCentroid] are strict, and a tie
    of the two largest offsets falls through to the last branch: in exact
    arithmetic, in a cube whose corner has three coordinates of one parity, a
    point with equal offsets [d] on the first two axes and a smaller offset
    [e] on the third gets the centroid of the tet of the third axis, and
    [insideTet] rejects the point for that centroid. *)
Lemma lowestTetCentroid_misses_on_tie_exact (m0 m1 m2 : Z) (d e : Q) :
  lowRange (m0, m1, m2) = true ->
  m0 mod 2 = m1 mod 2 ->
  m0 mod 2 = m2 mod 2 ->
  (0 <= e < d)%Q -> (d < 1)%Q ->
  let p : Vec3f := (inject_Z m0 + d, inject_Z m1 + d, inject_Z m2 + e)%Q in
  gridLocusToLowestTetCentroid p = (2 * m0, 2 * m1 + 1, 2 * (m2 + 1))
  /\ insideTet (gridLocusToLowestTetCentroid p) p = Some false.
Proof.
  intros Hr P1 P2 He Hd p.
  assert (E : gridLocusToLowestTetCentroid p = (2 * m0, 2 * m1 + 1, 2 * (m2 + 1))).
  { subst p. unfold lowRange in Hr.
    assert (Fx : Qfloor (inject_Z m0 + d) = m0) by (apply Qfloor_unique; push_inject; lra).
    assert (Fz : Qfloor (inject_Z m2 + e) = m2) by (apply Qfloor_unique; push_inject; lra).
    assert (Fy : Qfloor (inject_Z m1 + d) = m1) by (apply Qfloor_unique; push_inject; lra).
    unfold gridLocusToLowestTetCentroid; cbn [at3]; rewrite Fx, Fy, Fz.
    rewrite !sshort_small by lia.
    cbv zeta; cbn [at3].
    rewrite !truthy_land1_eqb, !eqb_parity.
    replace (m0 mod 2 =? m1 mod 2) with true by lia.
    replace (m0 mod 2 =? m2 mod 2) with true by lia.
    cbn [andb]; cbv iota.
    decide_gt. cbn [andb]; cbv iota. decide_gt. cbv iota.
    cbv beta iota zeta delta [addF set3 at3 vscale vecToCentroid].
    triple_eq; (apply floatToUShort_doubled_coarse; [lia | push_inject; unfold half; field]). }
  split; [exact E|].
  rewrite E. subst p. unfold insideTet. rewrite scan_hc1, insideTetAt_margins, margins_hc1.
  f_equal.
  replace (m1 mod 2 =? m0 mod 2) with true by lia.
  cbn [microMargins].
  match goal with |- ?b = false => destruct b eqn:F; [|reflexivity] end.
  apply forallb_Qle4 in F. destruct F as (F0 & F1 & F2 & F3).
  push_inject. lra.
Qed.

Lemma lowestTetCentroid_in_cube_witness :
  In (gridLocusToLowestTetCentroid (2 # 5, 2 # 5, 1 # 5)%Q) (unitCubeCentroids (0, 0, 0)).
Proof.
  apply (lowestTetCentroid_in_cube (0, 0, 0) (2 # 5, 2 # 5, 1 # 5)%Q).
  - reflexivity.
  - vm_compute. repeat split; (reflexivity || discriminate).
Defined.

Lemma gtInt_Z (a : Q) (k b : Z) : (a == inject_Z k)%Q -> gtInt a b = (b <? k).
Proof.
  intros Ha. unfold gtInt, Qlt_bool.
  destruct (Qle_bool a (inject_Z b)) eqn:E; cbn [negb].
  - apply Qle_bool_iff in E. rewrite Ha, <- Zle_Qle in E. lia.
  - destruct (b <? k) eqn:L; [reflexivity|].
    assert (H : Qle_bool a (inject_Z b) = true); [|congruence].
    apply Qle_bool_iff. rewrite Ha, <- Zle_Qle. lia.
Qed.

Lemma gtInt_forms (x y b : Z) :
  gtInt (inject_Z x - inject_Z y) b = (b <? x - y)
  /\ gtInt (- inject_Z x - inject_Z y) b = (b <? - x - y)
  /\ gtInt (inject_Z x + inject_Z y) b = (b <? x + y)
  /\ gtInt (- inject_Z x + inject_Z y) b = (b <? - x + y).
Proof. repeat split; apply gtInt_Z; push_inject; ring. Qed.

Lemma insideTetAt_on_shorts (hc dd0 : Z) (tc : bccTetCentroid) (n : triple Z) :
  dd0 = 1
  \/ (Z.land (at3 tc hc) (Z.shiftl dd0 1) =? Z.land (at3 tc ((hc + 2) mod 3)) (Z.shiftl dd0 1))
     = false ->
  insideTetNodeAt hc dd0 tc n = insideTetAt hc dd0 tc (vecOfShorts n).
Proof.
  intros H. unfold insideTetNodeAt, insideTetAt. cbv zeta.
  rewrite !at3_vecOfShorts.
  repeat match goal with
    | |- context [gtInt (inject_Z ?x - inject_Z ?y) ?b] =>
        rewrite (proj1 (gtInt_forms x y b))
    | |- context [gtInt (- inject_Z ?x - inject_Z ?y) ?b] =>
        rewrite (proj1 (proj2 (gtInt_forms x y b)))
    | |- context [gtInt (inject_Z ?x + inject_Z ?y) ?b] =>
        rewrite (proj1 (proj2 (proj2 (gtInt_forms x y b))))
    | |- context [gtInt (- inject_Z ?x + inject_Z ?y) ?b] =>
        rewrite (proj2 (proj2 (proj2 (gtInt_forms x y b))))
    end.
  destruct (Z.land (at3 tc hc) (Z.shiftl dd0 1) =? _) eqn:Eup; [|reflexivity].
  destruct H as [-> | H]; [|discriminate].
  change (Z.shiftl 1 1 <? 3) with true. cbv iota. reflexivity.
Qed.

(** X9: the two overloads of [insideTet] give the same answer on every
    integer point for a centroid of the finest level and for a centroid that
    is not "up" (their texts differ in one sign, in the "up" branch above the
    finest level). *)
Theorem insideTet_overloads_agree (tc : bccTetCentroid) (n : triple Z) :
  centroidSize tc = 1 \/ upTet tc = false ->
  insideTetNode tc n = insideTet tc (vecOfShorts n).
Proof.
  intros H. unfold insideTetNode, insideTet, upTet, centroidSize, centroidHalfAxisSize in *.
  change (halfAxisScan 16 1 tc) with (insideTetScan 16 1 tc) in H.
  destruct (insideTetScan 16 1 tc) as [[hc dd]|]; [|reflexivity].
  f_equal. apply insideTetAt_on_shorts. tauto.
Qed.



Lemma insideTet_overloads_agree_witness :
  insideTetNode (1, 0, 2) (0, 0, 0) = insideTet (1, 0, 2) (vecOfShorts (0, 0, 0)).
Proof. apply (insideTet_overloads_agree (1, 0, 2) (0, 0, 0)). left. reflexivity. Defined.


(** ** Valid centroids from their coordinates *)

Lemma land_multiple_low (x : Z) (j j' : nat) :
  (j' < j)%nat -> Z.land (2 ^ Z.of_nat j * x) (2 ^ Z.of_nat j') = 0.
Proof.
  intros H. rewrite land_pow2 by lia.
  replace (Z.of_nat j) with (Z.of_nat j' + (Z.of_nat j - Z.of_nat j')) by lia.
  rewrite Z.pow_add_r by lia.
  pose proof (pow2_pos j') as Hp.
  replace (2 ^ Z.of_nat j' * 2 ^ (Z.of_nat j - Z.of_nat j') * x)
    with (2 ^ (Z.of_nat j - Z.of_nat j') * x * 2 ^ Z.of_nat j') by ring.
  rewrite Z.div_mul by lia.
  replace (Z.of_nat j - Z.of_nat j') with (Z.succ (Z.of_nat j - Z.of_nat j' - 1)) by lia.
  rewrite Z.pow_succ_r by lia.
  replace (2 * 2 ^ (Z.of_nat j - Z.of_nat j' - 1) * x)
    with (2 ^ (Z.of_nat j - Z.of_nat j' - 1) * x * 2) by ring.
  rewrite Z.mod_mul by lia. ring.
Qed.

Lemma land_multiple (x : Z) (j : nat) :
  Z.land (2 ^ Z.of_nat j * x) (2 ^ Z.of_nat j) = 2 ^ Z.of_nat j * (x mod 2).
Proof.
  rewrite land_pow2 by lia. pose proof (pow2_pos j) as Hp.
  rewrite (Z.mul_comm _ x), Z.div_mul by lia. reflexivity.
Qed.

Lemma land_multiple_up (x : Z) (j : nat) :
  Z.land (2 ^ Z.of_nat j * (2 * x)) (Z.shiftl (2 ^ Z.of_nat j) 1)
  = 2 ^ Z.of_nat (S j) * (x mod 2).
Proof.
  rewrite shiftl_pow2.
  replace (2 ^ Z.of_nat j * (2 * x)) with (2 ^ Z.of_nat (S j) * x) by (rewrite pow2_succ; ring).
  apply land_multiple.
Qed.

(** The converse of [validCentroid_coords]. *)
Lemma validCentroid_intro (tc : bccTetCentroid) (hc : Z) (j : nat) (A B C : Z) :
  (j < 15)%nat -> 0 <= hc < 3 ->
  in_ushort tc = true ->
  at3 tc hc = 2 ^ Z.of_nat j * (2 * A + 1) ->
  at3 tc ((hc + 1) mod 3) = 2 ^ Z.of_nat j * (2 * B) ->
  at3 tc ((hc + 2) mod 3) = 2 ^ Z.of_nat j * (2 * C) ->
  B mod 2 <> C mod 2 ->
  centroidHalfAxisSize tc = Done (hc, 2 ^ Z.of_nat j) /\ validCentroid tc = true.
Proof.
  intros Hj Hhc Hin H0 H1 H2 Hne.
  pose proof (pow2_pos j) as Hp.
  assert (Hax : forall i, 0 <= i < 3 ->
            i = hc \/ i = (hc + 1) mod 3 \/ i = (hc + 2) mod 3) by (intros; lia).
  assert (E : centroidHalfAxisSize tc = Done (hc, 2 ^ Z.of_nat j)).
  { unfold centroidHalfAxisSize.
    rewrite <- (Z.mul_1_l (2 ^ Z.of_nat j)).
    rewrite (halfAxisScan_complete j 16 1 tc hc); [reflexivity|lia|assumption| | |].
    - rewrite Z.mul_1_l, H0, land_multiple, odd_double_succ. lia.
    - intros i Hi. rewrite Z.mul_1_l.
      destruct (Hax i ltac:(lia)) as [-> | [-> | ->]]; [lia| |].
      + rewrite H1, land_multiple, even_double. lia.
      + rewrite H2, land_multiple, even_double. lia.
    - intros j' Hj' i Hi. rewrite Z.mul_1_l.
      destruct (Hax i Hi) as [-> | [-> | ->]].
      + rewrite H0. apply land_multiple_low. assumption.
      + rewrite H1. apply land_multiple_low. assumption.
      + rewrite H2. apply land_multiple_low. assumption. }
  split; [exact E|].
  unfold validCentroid. rewrite Hin, E. cbn [andb].
  rewrite H1, H2, !land_multiple, !land_multiple_up, !even_double, Z.mul_0_r.
  pose proof (pow2_pos (S j)) as Hp'.
  cbn [Z.eqb andb].
  apply negb_true_iff, Z.eqb_neq. intros H. apply Hne.
  apply Z.mul_reg_l in H; [assumption|lia].
Qed.

Lemma validMicrotet_intro (tc : bccTetCentroid) (hc A B C : Z) :
  0 <= hc < 3 ->
  in_ushort tc = true ->
  at3 tc hc = 2 * A + 1 ->
  at3 tc ((hc + 1) mod 3) = 2 * B ->
  at3 tc ((hc + 2) mod 3) = 2 * C ->
  B mod 2 <> C mod 2 ->
  centroidHalfAxisSize tc = Done (hc, 1) /\ validMicrotet tc = true.
Proof.
  intros Hhc Hin H0 H1 H2 Hne.
  destruct (validCentroid_intro tc hc 0 A B C) as [E Hv]; try assumption; try lia.
  change (2 ^ Z.of_nat 0) with 1 in E.
  split; [exact E|]. unfold validMicrotet, centroidSize. rewrite Hv, E. reflexivity.
Qed.

Lemma nodeMicroCentroids_explicit (a b c : Z) :
  1 <= a <= 16381 -> 1 <= b <= 16381 -> 1 <= c <= 16381 ->
  nodeMicroCentroids (a, b, c) =
    [ (2 * a + -2, 2 * b + -1, 2 * c + 0);
      (2 * a + -2, 2 * b + 1, 2 * c + 0);
      (2 * a + -2, 2 * b + 0, 2 * c + -1);
      (2 * a + -2, 2 * b + 0, 2 * c + 1);
      (2 * a + 2, 2 * b + -1, 2 * c + 0);
      (2 * a + 2, 2 * b + 1, 2 * c + 0);
      (2 * a + 2, 2 * b + 0, 2 * c + -1);
      (2 * a + 2, 2 * b + 0, 2 * c + 1);
      (2 * a + 0, 2 * b + -2, 2 * c + -1);
      (2 * a + 0, 2 * b + -2, 2 * c + 1);
      (2 * a + -1, 2 * b + -2, 2 * c + 0);
      (2 * a + 1, 2 * b + -2, 2 * c + 0);
      (2 * a + 0, 2 * b + 2, 2 * c + -1);
      (2 * a + 0, 2 * b + 2, 2 * c + 1);
      (2 * a + -1, 2 * b + 2, 2 * c + 0);
      (2 * a + 1, 2 * b + 2, 2 * c + 0);
      (2 * a + -1, 2 * b + 0, 2 * c + -2);
      (2 * a + 1, 2 * b + 0, 2 * c + -2);
      (2 * a + 0, 2 * b + -1, 2 * c + -2);
      (2 * a + 0, 2 * b + 1, 2 * c + -2);
      (2 * a + -1, 2 * b + 0, 2 * c + 2);
      (2 * a + 1, 2 * b + 0, 2 * c + 2);
      (2 * a + 0, 2 * b + -1, 2 * c + 2);
      (2 * a + 0, 2 * b + 1, 2 * c + 2) ].
Proof.
  intros Ha Hb Hc.
  unfold nodeMicroCentroids. cbn [flat_map map app at3].
  repeat match goal with
    | |- context [(Z.shiftr ?i 1 + 1 + ?d) mod 3] =>
        let v := eval vm_compute in ((Z.shiftr i 1 + 1 + d) mod 3) in
        change ((Z.shiftr i 1 + 1 + d) mod 3) with v
    | |- context [truthy (Z.land ?i 1)] =>
        let v := eval vm_compute in (truthy (Z.land i 1)) in
        change (truthy (Z.land i 1)) with v
    end.
  cbv beta iota zeta delta [addU set3 at3].
  rewrite !shiftl_1. unfold ushort.
  repeat (apply f_equal2; [triple_eq; lia|]). reflexivity.
Qed.

Lemma triple_ext (u v : triple Z) (hc : Z) :
  0 <= hc < 3 ->
  at3 u hc = at3 v hc ->
  at3 u ((hc + 1) mod 3) = at3 v ((hc + 1) mod 3) ->
  at3 u ((hc + 2) mod 3) = at3 v ((hc + 2) mod 3) ->
  u = v.
Proof.
  intros Hhc. destruct u as [[u0 u1] u2], v as [[v0 v1] v2].
  assert (hc = 0 \/ hc = 1 \/ hc = 2) as [-> | [-> | ->]] by lia;
    axis_norm; cbn [at3]; congruence.
Qed.

(** A tet of the finest level by its coordinates, and its nodes: with the
    half-axis coordinate [2 * A + 1] and the others [2 * B] and [2 * C], the
    nodes are at [A] or [A + 1] on the half axis. *)
Lemma microtet_nodes (tc : bccTetCentroid) (hc A B C : Z) :
  0 <= hc < 3 ->
  in_ushort tc = true ->
  at3 tc hc = 2 * A + 1 ->
  at3 tc ((hc + 1) mod 3) = 2 * B ->
  at3 tc ((hc + 2) mod 3) = 2 * C ->
  B mod 2 <> C mod 2 ->
  A <= 16382 -> B <= 16382 -> C <= 16382 ->
  validMicrotet tc = true /\ nodesFitShort tc = true
  /\ exists n0 n1 n2 n3,
       centroidToNodeLoci tc = Done [n0; n1; n2; n3]
       /\ let lo := if A mod 2 =? C mod 2 then A else A + 1 in
          let hi := if A mod 2 =? C mod 2 then A + 1 else A in
          let d := if A mod 2 =? C mod 2 then 1 else -1 in
          (at3 n0 hc = lo /\ at3 n0 ((hc + 1) mod 3) = B - 1 /\ at3 n0 ((hc + 2) mod 3) = C)
          /\ (at3 n1 hc = lo /\ at3 n1 ((hc + 1) mod 3) = B + 1 /\ at3 n1 ((hc + 2) mod 3) = C)
          /\ (at3 n2 hc = hi /\ at3 n2 ((hc + 1) mod 3) = B /\ at3 n2 ((hc + 2) mod 3) = C + d)
          /\ (at3 n3 hc = hi /\ at3 n3 ((hc + 1) mod 3) = B /\ at3 n3 ((hc + 2) mod 3) = C - d).
Proof.
  intros Hhc Hin H0 H1 H2 Hne HA HB HC.
  destruct (validMicrotet_intro tc hc A B C) as [E Hm]; try assumption.
  assert (Hfit : nodesFitShort tc = true).
  { unfold nodesFitShort. rewrite E, H0, H1, H2. lia. }
  split; [exact Hm|]. split; [exact Hfit|].
  assert (Hval : validCentroid tc = true).
  { unfold validMicrotet in Hm. apply andb_prop in Hm. tauto. }
  destruct (nodeLoci_explicit tc Hval Hfit)
    as (hc' & s & e & n0 & n1 & n2 & n3 & E' & _ & _ & He & Hup & Hgl & N0 & N1 & N2 & N3).
  rewrite E in E'. injection E' as <- <-.
  exists n0, n1, n2, n3. split; [exact Hgl|].
  change (Z.shiftl 1 1) with 2 in Hup.
  rewrite H0, H1, H2 in *. rewrite land2_double_succ, land2_double in Hup.
  cbv zeta. destruct (A mod 2 =? C mod 2) eqn:Eup.
  - assert (e = 1) as -> by (apply Hup; lia). repeat split; lia.
  - destruct He as [-> | ->]; [exfalso; lia|]. repeat split; lia.
Qed.

Ltac pick_node :=
  cbn [In];
  first [ left; triple_eq; lia | right; pick_node ].

(** Half of the coordinate [2 * v + k] of an entry of the list. *)
Ltac half_of t :=
  lazymatch t with
  | 2 * ?v + ?k => let h := eval vm_compute in (k / 2) in constr:(v + h)
  end.

Ltac incident_at node t0 t1 t2 hc A B C :=
  let M := fresh "M" in
  destruct (microtet_nodes (t0, t1, t2) hc A B C) as (Hm & Hfit & n0 & n1 & n2 & n3 & Hgl & M);
  [ lia | unfold in_ushort, isUShort; lia
  | axis_norm; cbn [at3]; lia | axis_norm; cbn [at3]; lia | axis_norm; cbn [at3]; lia
  | lia | lia | lia | lia | ];
  split; [exact Hm|]; split; [exact Hfit|];
  exists [n0; n1; n2; n3]; split; [exact Hgl|];
  cbv zeta in M;
  let Eup := fresh "Eup" in
  destruct (A mod 2 =? C mod 2) eqn:Eup; [try (exfalso; lia) | try (exfalso; lia)];
  destruct M as ((? & ? & ?) & (? & ? & ?) & (? & ? & ?) & (? & ? & ?));
  clear Eup; cbn [In]; axis_norm;
  first [ left; apply (triple_ext _ _ hc); [lia|axis_norm; cbn [at3]; lia..]
        | right; left; apply (triple_ext _ _ hc); [lia|axis_norm; cbn [at3]; lia..]
        | right; right; left; apply (triple_ext _ _ hc); [lia|axis_norm; cbn [at3]; lia..]
        | right; right; right; left; apply (triple_ext _ _ hc); [lia|axis_norm; cbn [at3]; lia..] ].

(** One entry of the list: it is a valid tet of the finest level whose
    nodes fit, and the node is one of its nodes. *)
Ltac incident_entry node :=
  match goal with
  | |- validMicrotet (?t0, ?t1, ?t2) = true /\ _ =>
      let h0 := half_of t0 in
      let h1 := half_of t1 in
      let h2 := half_of t2 in
      first [ incident_at node t0 t1 t2 0 h0 h1 h2
            | incident_at node t0 t1 t2 1 h1 h2 h0
            | incident_at node t0 t1 t2 2 h2 h0 h1 ]
  end.

(** Every entry of the list is a tet of the finest level with the node among
    its four nodes. *)
Lemma nodeMicroCentroids_sound (node : triple Z) (tc : bccTetCentroid) :
  latticeNode node = true ->
  In tc (nodeMicroCentroids node) ->
  validMicrotet tc = true /\ nodesFitShort tc = true
  /\ exists gl, centroidToNodeLoci tc = Done gl /\ In node gl.
Proof.
  destruct node as [[a b] c]. unfold latticeNode. intros Hn Hin.
  rewrite nodeMicroCentroids_explicit in Hin by lia.
  assert (Ha : 1 <= a <= 16381 /\ 1 <= b <= 16381 /\ 1 <= c <= 16381
               /\ a mod 2 = b mod 2 /\ b mod 2 = c mod 2) by lia.
  clear Hn. cbn [In] in Hin.
  repeat (destruct Hin as [<- | Hin]; [incident_entry (a, b, c)|]).
  contradiction.
Qed.

(** Writes the coordinate [t] of a code as twice the coordinate [x] of the
    node plus an offset. *)
Ltac around t x :=
  let Ht := fresh "Ht" in
  first [ assert (Ht : t = 2 * x + -2) by lia | assert (Ht : t = 2 * x + -1) by lia
        | assert (Ht : t = 2 * x + 0) by lia | assert (Ht : t = 2 * x + 1) by lia
        | assert (Ht : t = 2 * x + 2) by lia ];
  rewrite Ht; clear Ht.

Ltac find_entry := cbn [In]; first [ left; reflexivity | right; find_entry ].

(** Every tet of the finest level with the node among its four nodes is in
    the list. *)
Lemma nodeMicroCentroids_complete (node : triple Z) (tc : bccTetCentroid)
  (gl : list (triple Z)) :
  latticeNode node = true ->
  validMicrotet tc = true -> nodesFitShort tc = true ->
  centroidToNodeLoci tc = Done gl -> In node gl ->
  In tc (nodeMicroCentroids node).
Proof.
  destruct node as [[a b] c]. unfold latticeNode. intros Hn Hm Hfit Hgl Hin.
  rewrite nodeMicroCentroids_explicit by lia.
  destruct (validMicrotet_coords tc Hm) as (hc & A & B & C & Hhc & E & H0 & H1 & H2 & Hne & Hu).
  unfold nodesFitShort in Hfit. rewrite E, H0, H1, H2 in Hfit.
  destruct (microtet_nodes tc hc A B C) as (_ & _ & n0 & n1 & n2 & n3 & Hgl' & M);
    try assumption; try lia.
  rewrite Hgl in Hgl'. injection Hgl' as ->.
  cbv zeta in M.
  assert (Ha : 1 <= a <= 16381 /\ 1 <= b <= 16381 /\ 1 <= c <= 16381
               /\ a mod 2 = b mod 2 /\ b mod 2 = c mod 2) by lia.
  clear Hn Hm Hfit Hgl E Hu.
  destruct tc as [[t0 t1] t2].
  destruct (A mod 2 =? C mod 2) eqn:Eup;
    destruct M as ((? & ? & ?) & (? & ? & ?) & (? & ? & ?) & (? & ? & ?));
    destruct Hin as [-> | [-> | [-> | [-> | []]]]];
    (assert (hc = 0 \/ hc = 1 \/ hc = 2) as [-> | [-> | ->]] by lia);
    axis_norm; cbn [at3] in *;
    try (exfalso; lia);
    clear Eup Hne;
    around t0 a; around t1 b; around t2 c; find_entry.
Qed.

Lemma nodeMicroCentroids_NoDup (node : triple Z) :
  latticeNode node = true -> NoDup (nodeMicroCentroids node).
Proof.
  destruct node as [[a b] c]. unfold latticeNode. intros Hn.
  rewrite nodeMicroCentroids_explicit by lia. clear Hn.
  repeat (constructor;
    [ cbn [In]; intros H;
      repeat (destruct H as [H|H];
        [apply pair_equal_spec in H as [H H3]; apply pair_equal_spec in H as [H1 H2]; lia|]);
      exact H | ]).
  constructor.
Qed.

(** X11: [nodeMicroCentroids] lists the tets of the finest level around a
    node.  For a node of the lattice away from its borders the 24 entries
    are distinct, and a code is in the list exactly when it is a valid code
    of the finest level (whose node positions fit the [short] type) and the
    node is one of the four nodes that [centroidToNodeLoci] gives for it. *)
Theorem nodeMicroCentroids_incident (node : triple Z) (tc : bccTetCentroid) :
  latticeNode node = true ->
  NoDup (nodeMicroCentroids node)
  /\ List.length (nodeMicroCentroids node) = 24%nat
  /\ (In tc (nodeMicroCentroids node) <->
      validMicrotet tc = true /\ nodesFitShort tc = true
      /\ exists gl, centroidToNodeLoci tc = Done gl /\ In node gl).
Proof.
  intros Hn. split; [apply nodeMicroCentroids_NoDup; assumption|].
  split; [reflexivity|]. split.
  - apply nodeMicroCentroids_sound. assumption.
  - intros (Hm & Hfit & gl & Hgl & Hin).
    apply (nodeMicroCentroids_complete node tc gl); assumption.
Qed.

Lemma nodeMicroCentroids_incident_witness :
  NoDup (nodeMicroCentroids (3, 3, 3))
  /\ List.length (nodeMicroCentroids (3, 3, 3)) = 24%nat
  /\ (In (5, 4, 6) (nodeMicroCentroids (3, 3, 3)) <->
      validMicrotet (5, 4, 6) = true /\ nodesFitShort (5, 4, 6) = true
      /\ exists gl, centroidToNodeLoci (5, 4, 6) = Done gl /\ In (3, 3, 3) gl).
Proof. apply (nodeMicroCentroids_incident (3, 3, 3) (5, 4, 6)). reflexivity. Defined.

(** ** Subdividing and promoting *)

(** The bits below the sixteenth survive the store into an [unsigned short]. *)
Lemma land_ushort (y : Z) (i : nat) :
  (i < 16)%nat -> Z.land (ushort y) (2 ^ Z.of_nat i) = Z.land y (2 ^ Z.of_nat i).
Proof.
  intros Hi. rewrite !land_pow2 by lia. f_equal. unfold ushort.
  pose proof (pow2_pos i) as Hp.
  replace 65536 with (2 ^ Z.of_nat i * 2 ^ (16 - Z.of_nat i))
    by (rewrite <- Z.pow_add_r by lia; replace (Z.of_nat i + (16 - Z.of_nat i)) with 16 by lia;
        reflexivity).
  assert (Hn : 0 < 2 ^ (16 - Z.of_nat i)) by (apply Z.pow_pos_nonneg; lia).
  rewrite Z.rem_mul_r by lia.
  rewrite (Z.add_comm (y mod _)), Z.mul_comm, Z.div_add_l by lia.
  rewrite (Z.div_small (y mod _)) by (apply Z.mod_pos_bound; lia).
  rewrite Z.add_0_r.
  apply Z.mod_mod_divide.
  exists (2 ^ (16 - Z.of_nat i - 1)).
  rewrite Z.mul_comm, <- Z.pow_succ_r by lia. f_equal. lia.
Qed.

Lemma land_scaled (j i : nat) (K : Z) :
  Z.land (2 ^ Z.of_nat j * K) (2 ^ Z.of_nat (i + j))
  = 2 ^ Z.of_nat (i + j) * ((K / 2 ^ Z.of_nat i) mod 2).
Proof.
  rewrite land_pow2 by lia. f_equal. f_equal.
  rewrite Nat2Z.inj_add, Z.pow_add_r by lia.
  pose proof (pow2_pos j). pose proof (pow2_pos i).
  rewrite (Z.mul_comm (2 ^ Z.of_nat i)).
  apply Z.div_mul_cancel_l; lia.
Qed.

(** The tests of [centroidUpOneLevel] on a coordinate that is [s * K]
    before it is stored, for a size [s = 2 ^ j]. *)
Lemma truthy_X2 (j : nat) (s x K : Z) :
  (j <= 13)%nat -> s = 2 ^ Z.of_nat j ->
  ushort x = ushort (s * K) ->
  truthy (Z.land x (Z.shiftl s 1)) = ((K / 2) mod 2 =? 1).
Proof.
  intros Hj -> Hx. rewrite shiftl_pow2.
  rewrite <- land_ushort, Hx, land_ushort by lia.
  rewrite (land_scaled j 1). change (2 ^ Z.of_nat 1) with 2.
  pose proof (pow2_pos (1 + j)). unfold truthy.
  destruct ((K / 2) mod 2 =? 1) eqn:E.
  - apply Z.eqb_eq in E. rewrite E. apply negb_true_iff, Z.eqb_neq. lia.
  - assert (H0 : (K / 2) mod 2 = 0) by lia. rewrite H0, Z.mul_0_r. reflexivity.
Qed.

Lemma truthy_X4 (j : nat) (s x K : Z) :
  (j <= 13)%nat -> s = 2 ^ Z.of_nat j ->
  ushort x = ushort (s * K) ->
  truthy (Z.land x (Z.shiftl (Z.shiftl s 1) 1)) = ((K / 4) mod 2 =? 1).
Proof.
  intros Hj -> Hx. rewrite !shiftl_pow2.
  rewrite <- land_ushort, Hx, land_ushort by lia.
  rewrite (land_scaled j 2). change (2 ^ Z.of_nat 2) with 4.
  pose proof (pow2_pos (2 + j)). unfold truthy.
  destruct ((K / 4) mod 2 =? 1) eqn:E.
  - apply Z.eqb_eq in E. rewrite E. apply negb_true_iff, Z.eqb_neq. lia.
  - assert (H0 : (K / 4) mod 2 = 0) by lia. rewrite H0, Z.mul_0_r. reflexivity.
Qed.

Lemma eqb_X4 (j : nat) (s x y K K' : Z) :
  (j <= 13)%nat -> s = 2 ^ Z.of_nat j ->
  ushort x = ushort (s * K) -> ushort y = ushort (s * K') ->
  (Z.land x (Z.shiftl (Z.shiftl s 1) 1) =? Z.land y (Z.shiftl (Z.shiftl s 1) 1))
  = ((K / 4) mod 2 =? (K' / 4) mod 2).
Proof.
  intros Hj -> Hx Hy. rewrite !shiftl_pow2.
  rewrite <- (land_ushort x), <- (land_ushort y), Hx, Hy, !land_ushort by lia.
  rewrite !(land_scaled j 2). change (2 ^ Z.of_nat 2) with 4.
  pose proof (pow2_pos (2 + j)).
  destruct ((K / 4) mod 2 =? (K' / 4) mod 2) eqn:E.
  - apply Z.eqb_eq in E. rewrite E. apply Z.eqb_refl.
  - apply Z.eqb_neq in E. apply Z.eqb_neq. intros H'. apply E.
    apply Z.mul_reg_l in H'; [assumption|lia].
Qed.

Lemma shiftr_pow2 (j : nat) : Z.shiftr (2 ^ Z.of_nat (S j)) 1 = 2 ^ Z.of_nat j.
Proof.
  rewrite shiftr_1, pow2_succ. pose proof (pow2_pos j).
  rewrite Z.mul_comm. apply Z.div_mul. lia.
Qed.

(** The orientation test of [subtetCentroids] on a parent of size [2 * s]. *)
Lemma up_test_parent (j : nat) (A C : Z) :
  (Z.land (2 ^ Z.of_nat j * (4 * A + 2)) (Z.shiftl (2 ^ Z.of_nat (S j)) 1)
   =? Z.land (2 ^ Z.of_nat j * (4 * C)) (Z.shiftl (2 ^ Z.of_nat (S j)) 1))
  = (A mod 2 =? C mod 2).
Proof.
  rewrite <- (up_test_scaled (S j) A C). rewrite pow2_succ. f_equal; f_equal; ring.
Qed.

(** The unit count [K] of an expression that is [s * K]. *)
Ltac scale_of s x :=
  lazymatch x with
  | ushort ?y => scale_of s y
  | s * ?k => constr:(k)
  | s => constr:(1)
  | 2 * s => constr:(2)
  | Z.shiftl s 1 => constr:(2)
  | - ?y => let a := scale_of s y in constr:(- a)
  | ?y + ?z => let a := scale_of s y in let b := scale_of s z in constr:(a + b)
  end.

Lemma ushort_idem (x : Z) : ushort (ushort x) = ushort x.
Proof. unfold ushort. apply Z.mod_mod. lia. Qed.

Lemma at3_in_ushort (tc : bccTetCentroid) (i : Z) :
  in_ushort tc = true -> 0 <= at3 tc i < 65536.
Proof.
  destruct tc as [[a b] c]. intros H. apply in_ushort_bounds in H.
  unfold at3. destruct i as [|[?|?|]|?]; lia.
Qed.

(** [validCentroid_intro] for a code written with its unit counts. *)
Lemma validCentroid_units (j : nat) (s : Z) (tc : bccTetCentroid) (hc K0 K1 K2 : Z) :
  (j <= 13)%nat -> s = 2 ^ Z.of_nat j -> 0 <= hc < 3 ->
  in_ushort tc = true ->
  at3 tc hc = s * K0 -> at3 tc ((hc + 1) mod 3) = s * K1 -> at3 tc ((hc + 2) mod 3) = s * K2 ->
  K0 mod 2 = 1 -> K1 mod 2 = 0 -> K2 mod 2 = 0 -> (K1 / 2) mod 2 <> (K2 / 2) mod 2 ->
  centroidHalfAxisSize tc = Done (hc, s) /\ validCentroid tc = true.
Proof.
  intros Hj -> Hhc Hin H0 H1 H2 P0 P1 P2 Hne.
  apply (validCentroid_intro tc hc j (K0 / 2) (K1 / 2) (K2 / 2)); try assumption; try lia.
  all: match goal with H : at3 _ _ = _ |- at3 _ _ = _ => rewrite H; f_equal; lia end.
Qed.

Lemma scaled_range (j : nat) (X r : Z) :
  (j <= 13)%nat -> 0 <= r < 4 ->
  0 <= 2 ^ Z.of_nat j * (4 * X + r) < 65536 ->
  0 <= X /\ 0 <= 2 ^ Z.of_nat j * X /\ 2 ^ Z.of_nat j * X + 2 ^ Z.of_nat j <= 16384.
Proof.
  intros Hj Hr H. pose proof (pow2_pos j) as Hs.
  assert (HM : 2 ^ Z.of_nat j * 2 ^ (14 - Z.of_nat j) = 16384).
  { rewrite <- Z.pow_add_r by lia. replace (Z.of_nat j + (14 - Z.of_nat j)) with 14 by lia.
    reflexivity. }
  assert (HM1 : 2 ^ (14 - Z.of_nat j) = 2 * 2 ^ (14 - Z.of_nat j - 1)).
  { rewrite <- Z.pow_succ_r by lia. f_equal. lia. }
  set (s := 2 ^ Z.of_nat j) in *. set (M := 2 ^ (14 - Z.of_nat j)) in *.
  assert (HX : 0 <= 4 * X + r) by (apply (Z.mul_nonneg_cancel_l s); lia).
  assert (H4 : 4 * X + r < 4 * M).
  { apply (Z.mul_lt_mono_pos_l s); [lia|]. lia. }
  assert (H0 : 0 <= X) by lia.
  split; [exact H0|]. split; [apply Z.mul_nonneg_nonneg; lia|].
  assert (H1 : s * (X + 1) <= s * M) by (apply Z.mul_le_mono_nonneg_l; lia).
  lia.
Qed.

(** Arithmetic on the ranges, without the parity facts. *)
Ltac range_lia :=
  repeat match goal with
    | H : _ mod 2 <> _ |- _ => clear H
    | H : (_ =? _) = _ |- _ => clear H
    end;
  lia.

(** Arithmetic on the parities, without the range facts. *)
Ltac parity_lia s :=
  repeat match goal with H : context [s] |- _ => clear H end; lia.

(** Replaces the stored values of the goal by their unit forms. *)
Ltac unstore s :=
  repeat match goal with
    | |- context [ushort ?e] =>
        let K := scale_of s e in
        replace (ushort e) with (s * K)
          by (unfold ushort; rewrite Z.mod_small by range_lia; ring)
    end.

(** Decides a parity test [b] of the goal: the value it has on a sample is
    tried first. *)
Ltac decide_bool s A B C b :=
  let f := eval pattern A, B, C in b in
  lazymatch f with
  | ?g _ _ _ =>
      let up := lazymatch goal with
                | _ : (A mod 2 =? C mod 2) = true |- _ => constr:(true)
                | _ => constr:(false)
                end in
      let r := lazymatch up with
               | true => eval vm_compute in (g 0 1 0)
               | false => eval vm_compute in (g 0 0 1)
               end in
      let r' := eval vm_compute in (negb r) in
      first [ replace b with r by parity_lia s
            | replace b with r' by parity_lia s
            | let T := fresh "T" in destruct b eqn:T ]
  end.

(** A coordinate of the result against the coordinate of the parent. *)
Ltac same_coordinate :=
  rewrite ?shiftl_1; unfold ushort; rewrite ?Z.mod_small by range_lia; range_lia.

Ltac stored_as s :=
  rewrite ?ushort_idem; unfold ushort; f_equal; ring.

(** Whether a unit count is odd, read off a sample. *)
Ltac odd_at A B C K :=
  let f := eval pattern A, B, C in K in
  lazymatch f with
  | ?g _ _ _ => eval vm_compute in (Z.odd (g 0 0 0))
  end.

(** The condition of the innermost conditional of a term. *)
Ltac innermost t :=
  lazymatch t with
  | context [if ?c then _ else _] => innermost c
  | _ => t
  end.

(** Decides one test of [centroidUpOneLevelAt] among those of [c]. *)
Ltac settle_atom j s A B C Hj Hsj c :=
  lazymatch c with
  | context [Z.land ?x (Z.shiftl (Z.shiftl s 1) 1) =? Z.land ?y (Z.shiftl (Z.shiftl s 1) 1)] =>
      let K := scale_of s x in
      let K' := scale_of s y in
      rewrite (eqb_X4 j s x y K K' Hj Hsj) by stored_as s;
      decide_bool s A B C ((K / 4) mod 2 =? (K' / 4) mod 2)
  | context [truthy (Z.land ?x (Z.shiftl (Z.shiftl s 1) 1))] =>
      let K := scale_of s x in
      rewrite (truthy_X4 j s x K Hj Hsj) by stored_as s;
      decide_bool s A B C ((K / 4) mod 2 =? 1)
  | context [truthy (Z.land ?x (Z.shiftl s 1))] =>
      let K := scale_of s x in
      rewrite (truthy_X2 j s x K Hj Hsj) by stored_as s;
      decide_bool s A B C ((K / 2) mod 2 =? 1)
  end.

(** Follows the tests of [centroidUpOneLevelAt] along the path that is taken. *)
Ltac decide_tests j s A B C Hj Hsj :=
  repeat
    (cbn [at3 set3 andb negb]; cbv iota;
     lazymatch goal with
     | |- (if ?b then _ else _) = _ =>
         let c := innermost b in settle_atom j s A B C Hj Hsj c
     | |- ?body = _ =>
         lazymatch body with
         | context [if ?b then _ else _] =>
             let c := innermost b in settle_atom j s A B C Hj Hsj c
         end
     end).

(** The three axes are treated alike: the code reaches them as [hc],
    [(hc + 1) % 3] and [(hc + 2) % 3] only. *)
Lemma at3_cycleAxes {A : Type} (v : triple A) (i : Z) :
  0 <= i < 3 -> at3 (cycleAxes v) ((i + 1) mod 3) = at3 v i.
Proof.
  destruct v as [[a b] c]. intros Hi.
  assert (i = 0 \/ i = 1 \/ i = 2) as [-> | [-> | ->]] by lia; reflexivity.
Qed.

Lemma centroidUpOneLevelAt_cycle (hc s : Z) (tc : bccTetCentroid) :
  0 <= hc < 3 ->
  centroidUpOneLevelAt ((hc + 1) mod 3) s (cycleAxes tc)
  = cycleAxes (centroidUpOneLevelAt hc s tc).
Proof.
  destruct tc as [[a b] c]. intros Hhc.
  assert (hc = 0 \/ hc = 1 \/ hc = 2) as [-> | [-> | ->]] by lia;
    unfold centroidUpOneLevelAt, addU; cbv zeta; axis_norm; axis_norm;
    cbn [at3 set3 cycleAxes];
    repeat match goal with
      | |- context [if ?t then _ else _] => destruct t; cbn [at3 set3 cycleAxes andb negb]
      end;
    reflexivity.
Qed.

Lemma subtetCentroidsAt_cycle (hc level : Z) (tc : bccTetCentroid) :
  0 <= hc < 3 ->
  subtetCentroidsAt ((hc + 1) mod 3) level (cycleAxes tc)
  = map cycleAxes (subtetCentroidsAt hc level tc).
Proof.
  destruct tc as [[a b] c]. intros Hhc.
  assert (hc = 0 \/ hc = 1 \/ hc = 2) as [-> | [-> | ->]] by lia;
    unfold subtetCentroidsAt, subOrInvalid, addU, markInvalid; cbv zeta;
    axis_norm; axis_norm; cbn [at3 set3 cycleAxes];
    repeat match goal with
      | |- context [if ?t then _ else _] => destruct t; cbn [at3 set3 cycleAxes map]
      end;
    reflexivity.
Qed.

Lemma cycleAxes_thrice {A : Type} (v : triple A) : cycleAxes (cycleAxes (cycleAxes v)) = v.
Proof. destruct v as [[a b] c]. reflexivity. Qed.

Lemma insideTetAt_cycle (hc dd : Z) (tc : bccTetCentroid) (p : Vec3f) :
  0 <= hc < 3 ->
  insideTetAt ((hc + 1) mod 3) dd (cycleAxes tc) (cycleAxes p) = insideTetAt hc dd tc p.
Proof.
  destruct tc as [[a b] c], p as [[x y] z]. intros Hhc.
  assert (hc = 0 \/ hc = 1 \/ hc = 2) as [-> | [-> | ->]] by lia;
    unfold insideTetAt; cbv zeta; axis_norm; axis_norm; cbn [at3 cycleAxes]; reflexivity.
Qed.

(** [insideTet] on a tet of size [s] written with its unit counts. *)
Lemma margins_units (j : nat) (s h A B C : Z) (tc : bccTetCentroid) (p : Vec3f) :
  s = 2 ^ Z.of_nat j ->
  at3 tc h = s * (2 * A + 1) ->
  at3 tc ((h + 1) mod 3) = s * (2 * B) ->
  at3 tc ((h + 2) mod 3) = s * (2 * C) ->
  insideTetAt h s tc p
  = forallb (Qle_bool 0)
      (tetMargins (A mod 2 =? C mod 2) s A B C
         (at3 p h) (at3 p ((h + 1) mod 3)) (at3 p ((h + 2) mod 3))).
Proof.
  intros -> H0 H1 H2. rewrite insideTetAt_margins.
  rewrite (insideTetMargins_coords h j A B C tc p H0 H1 H2). reflexivity.
Qed.

Lemma margins_parent (j : nat) (s hc A B C : Z) (P : bccTetCentroid) (p : Vec3f) :
  s = 2 ^ Z.of_nat j ->
  at3 P hc = s * (4 * A + 2) ->
  at3 P ((hc + 1) mod 3) = s * (4 * B) ->
  at3 P ((hc + 2) mod 3) = s * (4 * C) ->
  insideTetAt hc (2 ^ Z.of_nat (S j)) P p
  = forallb (Qle_bool 0)
      (tetMargins (A mod 2 =? C mod 2) (2 * s) A B C
         (at3 p hc) (at3 p ((hc + 1) mod 3)) (at3 p ((hc + 2) mod 3))).
Proof.
  intros -> H0 H1 H2. rewrite insideTetAt_margins.
  rewrite (insideTetMargins_coords hc (S j) A B C P p).
  - rewrite pow2_succ. reflexivity.
  - rewrite H0, pow2_succ. ring.
  - rewrite H1, pow2_succ. ring.
  - rewrite H2, pow2_succ. ring.
Qed.

(** Half of a unit count [4 * V + c], rounded down. *)
Ltac half_units A B C K :=
  let f := eval pattern A, B, C in K in
  lazymatch f with
  | ?g _ _ _ =>
      let h := eval vm_compute in (g 0 0 0 / 2) in
      lazymatch K with
      | context [A] => constr:(2 * A + h)
      | context [B] => constr:(2 * B + h)
      | context [C] => constr:(2 * C + h)
      end
  end.

Ltac push_inject_at H :=
  unfold Z.sub in H |- *;
  repeat (rewrite inject_Z_plus in H || rewrite inject_Z_mult in H
          || rewrite inject_Z_opp in H);
  repeat (rewrite inject_Z_plus || rewrite inject_Z_mult || rewrite inject_Z_opp);
  change (inject_Z 0) with 0%Q in H |- *; change (inject_Z 1) with 1%Q in H |- *;
  change (inject_Z 2) with 2%Q in H |- *;
  change (inject_Z (-1)) with (-1)%Q in H |- *.

(** The points of a child are points of the parent. *)
Ltac child_inside j s A B C Hsj Eup h K0 K1 K2 :=
  let A' := half_units A B C K0 in
  let B' := half_units A B C K1 in
  let C' := half_units A B C K2 in
  let p := fresh "p" in
  let Hp := fresh "Hp" in
  let x := fresh "x" in let y := fresh "y" in let z := fresh "z" in
  intros p Hp;
  rewrite (margins_units j s h A' B' C' _ p Hsj) in Hp
    by (axis_norm; cbn [at3]; ring);
  rewrite (margins_parent j s 0 A B C _ p Hsj) by (axis_norm; cbn [at3]; ring);
  rewrite Eup;
  destruct p as [[x y] z]; axis_norm; cbn [at3] in Hp |- *;
  revert Hp;
  decide_bool s A B C (A' mod 2 =? C' mod 2);
  intros Hp;
  unfold tetMargins in Hp |- *;
  apply forallb_Qle4; apply forallb_Qle4 in Hp;
  push_inject_at Hp;
  let Hq := fresh "Hq" in
  assert (Hq : (0 < inject_Z s)%Q)
    by (change 0%Q with (inject_Z 0); rewrite <- Zlt_Qlt; assumption);
  lra.

(** One child of [subtetCentroids]: it is the sentinel, or a code with the
    coordinates of a valid code of half the size that [centroidUpOneLevelAt]
    takes back to the parent and that lies inside the parent. *)
Ltac child_case j s A B C Hj Hsj Eup Hch Hvalid :=
  lazymatch type of Hch with
  | (if ?g then _ else _) = _ =>
      let G := fresh "G" in
      destruct g eqn:G; [exfalso; apply Hvalid; rewrite <- Hch; reflexivity|]
  | _ => idtac
  end;
  rewrite <- Hch; clear Hch Hvalid;
  unstore s;
  lazymatch goal with
  | |- childUnits _ _ _ (s * ?K0, s * ?K1, s * ?K2) =>
      let o0 := odd_at A B C K0 in
      let o1 := odd_at A B C K1 in
      let go h k0 k1 k2 :=
        exists h, k0, k1, k2;
        rewrite <- Hsj;
        split; [lia|]; split; [unfold in_ushort, isUShort; range_lia|];
        split; [reflexivity|]; split; [reflexivity|]; split; [reflexivity|];
        split; [parity_lia s|]; split; [parity_lia s|]; split; [parity_lia s|];
        split; [parity_lia s|];
        split;
        [ unfold centroidUpOneLevelAt, addU; cbv zeta; axis_norm;
          decide_tests j s A B C Hj Hsj;
          cbn [at3 set3 andb negb]; cbv iota;
          triple_eq; same_coordinate
        | child_inside j s A B C Hsj Eup h k0 k1 k2 ] in
      lazymatch o0 with
      | true => go 0 K0 K1 K2
      | false =>
          lazymatch o1 with
          | true => go 1 K1 K2 K0
          | false => go 2 K2 K0 K1
          end
      end
  end.

(** The children of a parent whose half axis is the first one. *)
Lemma children_promote_first (j : nat) (A B C : Z) :
  (j <= 13)%nat ->
  in_ushort (2 ^ Z.of_nat j * (4 * A + 2), 2 ^ Z.of_nat j * (4 * B), 2 ^ Z.of_nat j * (4 * C))
  = true ->
  B mod 2 <> C mod 2 ->
  childrenPromote j 0
    (2 ^ Z.of_nat j * (4 * A + 2), 2 ^ Z.of_nat j * (4 * B), 2 ^ Z.of_nat j * (4 * C)).
Proof.
  intros Hj Hin Hne child Hch Hvalid.
  apply in_ushort_bounds in Hin. destruct Hin as (Hi0 & Hi1 & Hi2).
  destruct (scaled_range j A 2 Hj ltac:(lia) Hi0) as (HA & HsA & HsA').
  destruct (scaled_range j B 0 Hj ltac:(lia) ltac:(rewrite Z.add_0_r; exact Hi1))
    as (HB & HsB & HsB').
  destruct (scaled_range j C 0 Hj ltac:(lia) ltac:(rewrite Z.add_0_r; exact Hi2))
    as (HC & HsC & HsC').
  clear Hi0 Hi1 Hi2.
  unfold subtetCentroidsAt in Hch. cbv zeta in Hch.
  rewrite shiftr_pow2 in Hch.
  pose proof (pow2_pos j) as Hs.
  axis_norm; cbn [at3] in Hch.
  rewrite up_test_parent in Hch.
  rewrite pow2_succ in Hch.
  remember (2 ^ Z.of_nat j) as s eqn:Hsj.
  destruct (A mod 2 =? C mod 2) eqn:Eup; cbv beta iota in Hch; cbn [In] in Hch.
  all: unfold subOrInvalid, addU in Hch; cbn [at3 set3] in Hch.
  all: repeat (destruct Hch as [Hch | Hch]; [child_case j s A B C Hj Hsj Eup Hch Hvalid|]).
  all: contradiction.
Qed.

Lemma childrenPromote_cycle (j : nat) (hc : Z) (P : bccTetCentroid) :
  0 <= hc < 3 -> childrenPromote j hc P -> childrenPromote j ((hc + 1) mod 3) (cycleAxes P).
Proof.
  intros Hhc HP child Hch Hvalid.
  rewrite subtetCentroidsAt_cycle in Hch by exact Hhc.
  apply in_map_iff in Hch as (c0 & <- & Hc0).
  destruct (HP c0 Hc0)
    as (h & K0 & K1 & K2 & Hh & Hu & H0 & H1 & H2 & P0 & P1 & P2 & Hne & Hup & Hinside).
  { intros ->. apply Hvalid. reflexivity. }
  assert (Hh1 : 0 <= (h + 1) mod 3 < 3) by (apply Z.mod_pos_bound; lia).
  assert (Hh2 : 0 <= (h + 2) mod 3 < 3) by (apply Z.mod_pos_bound; lia).
  exists ((h + 1) mod 3), K0, K1, K2.
  split; [exact Hh1|].
  split; [destruct c0 as [[x y] z]; unfold in_ushort, isUShort in *; cbn [cycleAxes]; lia|].
  split; [rewrite at3_cycleAxes by exact Hh; exact H0|].
  split; [rewrite at3_cycleAxes by exact Hh1; exact H1|].
  split.
  { replace (((h + 1) mod 3 + 2) mod 3) with (((h + 2) mod 3 + 1) mod 3)
      by (assert (h = 0 \/ h = 1 \/ h = 2) as [-> | [-> | ->]] by lia; reflexivity).
    rewrite at3_cycleAxes by exact Hh2. exact H2. }
  do 4 (split; [assumption|]).
  split.
  - rewrite centroidUpOneLevelAt_cycle by exact Hh. rewrite Hup. reflexivity.
  - intros p. rewrite <- (cycleAxes_thrice p).
    rewrite !insideTetAt_cycle by assumption. apply Hinside.
Qed.

Lemma round_trip_at (j : nat) (hc A B C : Z) (P child : bccTetCentroid) :
  (j <= 13)%nat -> 0 <= hc < 3 ->
  in_ushort P = true ->
  at3 P hc = 2 ^ Z.of_nat j * (4 * A + 2) ->
  at3 P ((hc + 1) mod 3) = 2 ^ Z.of_nat j * (4 * B) ->
  at3 P ((hc + 2) mod 3) = 2 ^ Z.of_nat j * (4 * C) ->
  B mod 2 <> C mod 2 ->
  In child (subtetCentroidsAt hc (2 ^ Z.of_nat (S j)) P) ->
  child <> invalidCentroid ->
  validCentroid child = true /\ centroidSize child = 2 ^ Z.of_nat j
  /\ centroidUpOneLevel child = Done P
  /\ (forall p : Vec3f,
        insideTet child p = Some true ->
        insideTetAt hc (2 ^ Z.of_nat (S j)) P p = true).
Proof.
  intros Hj Hhc Hin H0 H1 H2 Hne Hch Hvalid.
  set (P0 := (2 ^ Z.of_nat j * (4 * A + 2), 2 ^ Z.of_nat j * (4 * B),
              2 ^ Z.of_nat j * (4 * C)) : bccTetCentroid).
  assert (HP : childrenPromote j hc P).
  { destruct P as [[p0 p1] p2].
    assert (hc = 0 \/ hc = 1 \/ hc = 2) as [-> | [-> | ->]] by lia;
      axis_norm; cbn [at3] in H0, H1, H2; subst p0 p1 p2.
    - apply children_promote_first; assumption.
    - apply (childrenPromote_cycle j 0 P0); [lia|].
      apply children_promote_first; [assumption| |assumption].
      unfold in_ushort, isUShort in *. cbn [cycleAxes]. lia.
    - apply (childrenPromote_cycle j 1 (cycleAxes P0)); [lia|].
      apply (childrenPromote_cycle j 0 P0); [lia|].
      apply children_promote_first; [assumption| |assumption].
      unfold in_ushort, isUShort in *. cbn [cycleAxes]. lia. }
  destruct (HP child Hch Hvalid)
    as (h & K0 & K1 & K2 & Hh & Hu & E0 & E1 & E2 & P0' & P1' & P2' & Hne' & Hup & Hinside).
  destruct (validCentroid_units j (2 ^ Z.of_nat j) child h K0 K1 K2) as [E V];
    try assumption; try reflexivity.
  split; [exact V|]. split; [unfold centroidSize; rewrite E; reflexivity|].
  split.
  - unfold centroidUpOneLevel. rewrite E. cbn [bind]. rewrite Hup. reflexivity.
  - intros p Hp. apply Hinside. unfold insideTet in Hp.
    rewrite (centroidHalfAxisSize_scan child h _ E) in Hp. congruence.
Qed.

(** X12: subdividing and promoting are inverse on the children that exist.
    For a valid tet code [tc] that [subtetCentroids] subdivides, every entry of
    the result other than the all-[USHRT_MAX] sentinel is a valid code of half
    the size of [tc], and [centroidUpOneLevel] takes it back to [tc].  This
    holds over the whole sixteen-bit range of the coordinates. *)
Theorem subtetCentroids_promote_round_trip
    (tc child : bccTetCentroid) (l : list bccTetCentroid) :
  validCentroid tc = true ->
  subtetCentroids tc = Done l ->
  In child l ->
  child <> invalidCentroid ->
  validCentroid child = true
  /\ 2 * centroidSize child = centroidSize tc
  /\ centroidUpOneLevel child = Done tc.
Proof.
  intros Hv Hsub Hin Hch.
  destruct (validCentroid_coords tc Hv)
    as (hc & j & A & B & C & Hj & Hhc & E & H0 & H1 & H2 & Hne & Hu).
  unfold subtetCentroids in Hsub. rewrite E in Hsub. cbn [bind] in Hsub.
  unfold centroidSize at 2. rewrite E.
  destruct j as [|j].
  { change (2 ^ Z.of_nat 0 <? 2) with true in Hsub. discriminate Hsub. }
  pose proof (pow2_pos j) as Hs.
  rewrite pow2_succ in H0, H1, H2.
  destruct (2 ^ Z.of_nat (S j) <? 2); [discriminate Hsub|].
  injection Hsub as <-.
  destruct (round_trip_at j hc A B C tc child) as (V & S & U & _);
    try assumption; try lia;
    try (rewrite H0; ring); try (rewrite H1; ring); try (rewrite H2; ring).
  split; [exact V|]. split; [|exact U]. rewrite S, pow2_succ. reflexivity.
Qed.

Lemma subtetCentroids_promote_round_trip_witness :
  validCentroid (5, 4, 6) = true
  /\ 2 * centroidSize (5, 4, 6) = centroidSize (6, 4, 8)
  /\ centroidUpOneLevel (5, 4, 6) = Done (6, 4, 8).
Proof.
  apply (subtetCentroids_promote_round_trip (6, 4, 8) (5, 4, 6)
           [(7, 2, 8); (7, 6, 8); (5, 4, 6); (5, 4, 10);
            (6, 3, 8); (6, 5, 8); (6, 4, 7); (6, 4, 9)]).
  - reflexivity.
  - reflexivity.
  - cbn [In]. tauto.
  - discriminate.
Defined.


Lemma subtetCentroidsAt_length (hc level : Z) (tc : bccTetCentroid) :
  List.length (subtetCentroidsAt hc level tc) = 8%nat.
Proof.
  unfold subtetCentroidsAt. cbv zeta.
  destruct (Z.land _ _ =? Z.land _ _); reflexivity.
Qed.

(** C1: a valid centroid above the finest level is subdivided by
    [subtetCentroids] into eight entries, and for every index [i] whose entry
    is not the all-[USHRT_MAX] sentinel, [centroidUpOneLevel] of the entry is
    the centroid again. *)
Theorem promote_of_subdivide (c : bccTetCentroid) :
  validCentroid c = true ->
  2 <= centroidSize c ->
  exists subCentroids,
    subtetCentroids c = Done subCentroids
    /\ List.length subCentroids = 8%nat
    /\ forall i : nat,
         (i < 8)%nat ->
         nth i subCentroids invalidCentroid <> invalidCentroid ->
         centroidUpOneLevel (nth i subCentroids invalidCentroid) = Done c.
Proof.
  intros Hv Hsize.
  destruct (validCentroid_coords c Hv)
    as (hc & j & A & B & C & Hj & Hhc & E & H0 & H1 & H2 & Hne & Hu).
  unfold centroidSize in Hsize. rewrite E in Hsize.
  destruct j as [|j]; [cbn in Hsize; lia|].
  exists (subtetCentroidsAt hc (2 ^ Z.of_nat (S j)) c).
  split.
  { unfold subtetCentroids. rewrite E. cbn [bind].
    replace (2 ^ Z.of_nat (S j) <? 2) with false by lia. reflexivity. }
  split; [apply subtetCentroidsAt_length|].
  intros i Hi Hch.
  rewrite pow2_succ in H0, H1, H2.
  destruct (round_trip_at j hc A B C c (nth i (subtetCentroidsAt hc (2 ^ Z.of_nat (S j)) c)
                                            invalidCentroid))
    as (_ & _ & U & _);
    try assumption; try lia;
    try (rewrite H0; ring); try (rewrite H1; ring); try (rewrite H2; ring).
  apply nth_In. rewrite subtetCentroidsAt_length. exact Hi.
Qed.

Lemma promote_of_subdivide_witness :
  exists subCentroids,
    subtetCentroids (6, 4, 8) = Done subCentroids
    /\ List.length subCentroids = 8%nat
    /\ forall i : nat,
         (i < 8)%nat ->
         nth i subCentroids invalidCentroid <> invalidCentroid ->
         centroidUpOneLevel (nth i subCentroids invalidCentroid) = Done (6, 4, 8).
Proof.
  apply (promote_of_subdivide (6, 4, 8)).
  - reflexivity.
  - vm_compute. discriminate.
Defined.

(** In exact arithmetic the subtets lie inside the tet they subdivide: for
    a valid tet code [tc] that [subtetCentroids] subdivides and every entry
    [child] of the result other than the sentinel, a point that [insideTet]
    accepts for [child] is accepted for [tc]. *)
Lemma subtetCentroids_inside_parent_exact
    (tc child : bccTetCentroid) (l : list bccTetCentroid) (p : Vec3f) :
  validCentroid tc = true ->
  subtetCentroids tc = Done l ->
  In child l ->
  child <> invalidCentroid ->
  insideTet child p = Some true ->
  insideTet tc p = Some true.
Proof.
  intros Hv Hsub Hin Hch Hp.
  destruct (validCentroid_coords tc Hv)
    as (hc & j & A & B & C & Hj & Hhc & E & H0 & H1 & H2 & Hne & Hu).
  unfold subtetCentroids in Hsub. rewrite E in Hsub. cbn [bind] in Hsub.
  destruct j as [|j].
  { change (2 ^ Z.of_nat 0 <? 2) with true in Hsub. discriminate Hsub. }
  pose proof (pow2_pos j) as Hs.
  unfold insideTet. rewrite (centroidHalfAxisSize_scan tc hc _ E). f_equal.
  rewrite pow2_succ in H0, H1, H2.
  destruct (2 ^ Z.of_nat (S j) <? 2); [discriminate Hsub|].
  injection Hsub as <-.
  destruct (round_trip_at j hc A B C tc child) as (_ & _ & _ & Hinside);
    try assumption; try lia;
    try (rewrite H0; ring); try (rewrite H1; ring); try (rewrite H2; ring).
  apply Hinside. exact Hp.
Qed.

Lemma up_test_micro (A B : Z) :
  truthy (Z.land (Z.shiftr (2 * A + 1 + 2 * B) 1) 1) = negb (A mod 2 =? B mod 2).
Proof. unfold truthy. rewrite land_1, shiftr_1. lia. Qed.

(** Half of a coordinate [2 * v + k] or [2 * v + k + k']. *)
Ltac halved t :=
  lazymatch t with
  | 2 * ?v + ?k + ?k' => let h := eval vm_compute in ((k + k') / 2) in constr:(v + h)
  | 2 * ?v + ?k => let h := eval vm_compute in (k / 2) in constr:(v + h)
  | 2 * ?v => constr:(v + 0)
  end.

Ltac is_odd t :=
  lazymatch t with
  | 2 * ?v + ?k + ?k' => eval vm_compute in (Z.odd (k + k'))
  | 2 * ?v + ?k => eval vm_compute in (Z.odd k)
  | 2 * ?v => constr:(false)
  end.

(** The nodes of the tet [(t0, t1, t2)], each by its three coordinates. *)
Ltac nodes_of t0 t1 t2 :=
  let h0 := halved t0 in
  let h1 := halved t1 in
  let h2 := halved t2 in
  let o0 := is_odd t0 in
  let o1 := is_odd t1 in
  let go hc A B C :=
    let M := fresh "M" in
    let Hm := fresh "Hm" in
    let Hfit := fresh "Hfit" in
    let Hgl := fresh "Hgl" in
    let n0 := fresh "n0" in let n1 := fresh "n1" in
    let n2 := fresh "n2" in let n3 := fresh "n3" in
    destruct (microtet_nodes (t0, t1, t2) hc A B C)
      as (Hm & Hfit & n0 & n1 & n2 & n3 & Hgl & M);
    [ lia | unfold in_ushort, isUShort; lia
    | axis_norm; cbn [at3]; lia | axis_norm; cbn [at3]; lia | axis_norm; cbn [at3]; lia
    | lia | lia | lia | lia | ];
    cbv zeta in M; axis_norm;
    let E := fresh "E" in
    destruct (A mod 2 =? C mod 2) eqn:E; [try (exfalso; lia) | try (exfalso; lia)];
    destruct M as ((? & ? & ?) & (? & ? & ?) & (? & ? & ?) & (? & ? & ?));
    clear E;
    destruct n0 as [[? ?] ?], n1 as [[? ?] ?], n2 as [[? ?] ?], n3 as [[? ?] ?];
    cbn [at3] in *; subst in
  lazymatch o0 with
  | true => go 0 h0 h1 h2
  | false =>
      lazymatch o1 with
      | true => go 1 h1 h2 h0
      | false => go 2 h2 h0 h1
      end
  end.

Lemma faceLoci_quad (n0 n1 n2 n3 : triple Z) :
  faceLoci [n0; n1; n2; n3] 0 = [n0; n1; n2]
  /\ faceLoci [n0; n1; n2; n3] 1 = [n1; n2; n3]
  /\ faceLoci [n0; n1; n2; n3] 2 = [n2; n3; n0]
  /\ faceLoci [n0; n1; n2; n3] 3 = [n3; n0; n1]
  /\ apexLocus [n0; n1; n2; n3] 0 = n3
  /\ apexLocus [n0; n1; n2; n3] 1 = n0
  /\ apexLocus [n0; n1; n2; n3] 2 = n1
  /\ apexLocus [n0; n1; n2; n3] 3 = n2.
Proof. repeat split; reflexivity. Qed.

Ltac same_node := triple_eq; ring.

Ltac find_node :=
  cbn [In];
  first [ left; same_node | right; left; same_node | right; right; left; same_node ].

Ltac differ :=
  let H := fresh in
  let H' := fresh in
  intros H;
  apply pair_equal_spec in H as [H H'];
  apply pair_equal_spec in H as [? ?];
  lia.

(** The faces of a list of four positions, for a literal face number. *)
Ltac face_lists :=
  change (faceLoci [?a; ?b; ?c; ?d] 0) with [a; b; c];
  change (faceLoci [?a; ?b; ?c; ?d] 1) with [b; c; d];
  change (faceLoci [?a; ?b; ?c; ?d] 2) with [c; d; a];
  change (faceLoci [?a; ?b; ?c; ?d] 3) with [d; a; b];
  change (apexLocus [?a; ?b; ?c; ?d] 0) with d;
  change (apexLocus [?a; ?b; ?c; ?d] 1) with a;
  change (apexLocus [?a; ?b; ?c; ?d] 2) with b;
  change (apexLocus [?a; ?b; ?c; ?d] 3) with c.

(** One tet, one face and the neighbour that is returned. *)
Ltac adjacent_case :=
  lazymatch goal with
  | |- validMicrotet (?a0, ?a1, ?a2) = true
       /\ (exists gl glAdj, centroidToNodeLoci (?t0, ?t1, ?t2) = Done gl /\ _) =>
      nodes_of t0 t1 t2; nodes_of a0 a1 a2;
      split; [assumption|];
      lazymatch goal with
      | H1 : centroidToNodeLoci (t0, t1, t2) = Done ?gl,
        H2 : centroidToNodeLoci (a0, a1, a2) = Done ?gl' |- _ =>
          exists gl, gl'; split; [exact H1|]; split; [exact H2|]
      end;
      face_lists;
      split;
      [ let n := fresh "n" in
        let Hn := fresh "Hn" in
        intros n; split; intros Hn; cbn [In] in Hn;
        destruct Hn as [<- | [<- | [<- | []]]]; find_node
      | let H := fresh in
        intros H; cbn [In] in H;
        destruct H as [H | [H | [H | [H | []]]]]; revert H; differ ]
  end.

(** The neighbour that [faceAdjacentMicrotet] returns has the three nodes of
    the face; the node opposite to the face is none of its nodes. *)
Lemma adjacent_microtet_face (tc tcAdj : bccTetCentroid) (face adjFace : Z) :
  validMicrotet tc = true ->
  at3 tc 0 <= 32764 -> at3 tc 1 <= 32764 -> at3 tc 2 <= 32764 ->
  0 <= face <= 3 ->
  faceAdjacentMicrotet tc face = (adjFace, tcAdj) ->
  adjFace <> -1 ->
  validMicrotet tcAdj = true
  /\ exists gl glAdj,
       centroidToNodeLoci tc = Done gl
       /\ centroidToNodeLoci tcAdj = Done glAdj
       /\ (forall n, In n (faceLoci gl face) <-> In n (faceLoci glAdj adjFace))
       /\ ~ In (apexLocus gl face) glAdj.
Proof.
  intros Hm Hb0 Hb1 Hb2 Hface Hadj Hne.
  destruct (validMicrotet_coords tc Hm) as (hc & A & B & C & Hhc & E & H0 & H1 & H2 & Hpar & Hin).
  destruct tc as [[t0 t1] t2]. apply in_ushort_bounds in Hin.
  cbn [at3] in Hb0, Hb1, Hb2.
  assert (Hf : face = 0 \/ face = 1 \/ face = 2 \/ face = 3) by lia.
  clear E Hm Hface.
  assert (hc = 0 \/ hc = 1 \/ hc = 2) as [-> | [-> | ->]] by lia;
    axis_norm; cbn [at3] in H0, H1, H2; subst t0 t1 t2.
  all: unfold faceAdjacentMicrotet in Hadj;
    cbv beta iota zeta delta [addU at3 set3] in Hadj.
  all: rewrite ?(truthy_land1_odd (2 * A + 1)), ?(truthy_land1_even (2 * B)),
         ?(truthy_land1_even (2 * C)) in Hadj by lia.
  all: cbv beta iota zeta in Hadj; axis_norm;
    cbv beta iota zeta delta [at3 set3] in Hadj.
  all: rewrite up_test_micro in Hadj.
  all: destruct (A mod 2 =? C mod 2) eqn:Eup;
    [ replace (A mod 2 =? B mod 2) with false in Hadj by lia
    | replace (A mod 2 =? B mod 2) with true in Hadj by lia ];
    cbn [negb] in Hadj; cbv iota in Hadj.
  all: revert Hadj; destruct Hf as [-> | [-> | [-> | ->]]]; face_lits.
  all: replace (2 * A + 1 <? 1) with false by lia; cbv iota.
  all: repeat match goal with
         | |- context [if ?g <? 1 then _ else _] =>
             let G := fresh "G" in destruct (g <? 1) eqn:G
         end.
  all: intros Hadj; apply pair_equal_spec in Hadj as [<- <-];
    try (exfalso; apply Hne; reflexivity).
  all: unfold ushort; rewrite !Z.mod_small by lia.
  all: adjacent_case.
Qed.

(** X13: the neighbour that [faceAdjacentMicrotet] returns lies across the
    face that was asked for.  For a valid tet code of the finest level with
    coordinates up to 32764 and a face 0..3, when the result is not the
    boundary value -1 the returned code is again a valid code of the finest
    level, the three node positions [(face + i) & 3] that [centroidToNodeLoci]
    gives for the tet are the three node positions [(adjFace + i) & 3] of the
    neighbour, and the fourth node of the tet is none of the four nodes of the
    neighbour. *)
Theorem faceAdjacentMicrotet_shares_face (tc tcAdj : bccTetCentroid) (face adjFace : Z) :
  validMicrotet tc = true ->
  at3 tc 0 <= 32764 -> at3 tc 1 <= 32764 -> at3 tc 2 <= 32764 ->
  0 <= face <= 3 ->
  faceAdjacentMicrotet tc face = (adjFace, tcAdj) ->
  adjFace <> -1 ->
  validMicrotet tcAdj = true
  /\ exists gl glAdj,
       centroidToNodeLoci tc = Done gl
       /\ centroidToNodeLoci tcAdj = Done glAdj
       /\ (forall n, In n (faceLoci gl face) <-> In n (faceLoci glAdj adjFace))
       /\ ~ In (apexLocus gl face) glAdj.
Proof. apply adjacent_microtet_face. Qed.

Lemma faceAdjacentMicrotet_shares_face_witness :
  validMicrotet (4, 5, 6) = true
  /\ exists gl glAdj,
       centroidToNodeLoci (5, 4, 6) = Done gl
       /\ centroidToNodeLoci (4, 5, 6) = Done glAdj
       /\ (forall n, In n (faceLoci gl 1) <-> In n (faceLoci glAdj 0))
       /\ ~ In (apexLocus gl 1) glAdj.
Proof.
  apply (faceAdjacentMicrotet_shares_face (5, 4, 6) (4, 5, 6) 1 0).
  - reflexivity.
  - cbn [at3]. lia.
  - cbn [at3]. lia.
  - cbn [at3]. lia.
  - lia.
  - reflexivity.
  - discriminate.
Defined.

(** The orientation test [((tc[ha] + tc[aha]) >> 1) & size] of
    [faceAdjacentCentroid]. *)
Lemma orient_scaled (j : nat) (s A K : Z) :
  s = 2 ^ Z.of_nat j ->
  truthy (Z.land (Z.shiftr (s * (2 * A + 1) + s * (2 * K)) 1) s)
  = negb (A mod 2 =? K mod 2).
Proof.
  intros ->. rewrite shiftr_1.
  destruct j as [|j].
  - change (2 ^ Z.of_nat 0) with 1. unfold truthy. rewrite land_1. lia.
  - rewrite pow2_succ. pose proof (pow2_pos j) as Hp.
    replace (2 * 2 ^ Z.of_nat j * (2 * A + 1) + 2 * 2 ^ Z.of_nat j * (2 * K))
      with (2 ^ Z.of_nat j * (2 * (A + K) + 1) * 2) by ring.
    rewrite Z.div_mul by lia.
    rewrite <- pow2_succ.
    replace (Z.of_nat (S j)) with (Z.of_nat (1 + j)) by lia.
    rewrite (land_scaled j 1). change (2 ^ Z.of_nat 1) with 2.
    pose proof (pow2_pos (1 + j)) as Hq. unfold truthy.
    set (q := 2 ^ Z.of_nat (1 + j)) in *.
    assert (Hc : ((2 * (A + K) + 1) / 2) mod 2 = (A + K) mod 2).
    { f_equal. lia. }
    rewrite Hc.
    destruct (A mod 2 =? K mod 2) eqn:E; cbn [negb].
    + assert (H0 : (A + K) mod 2 = 0) by lia. rewrite H0, Z.mul_0_r. reflexivity.
    + assert (H1 : (A + K) mod 2 = 1) by lia. rewrite H1, Z.mul_1_r.
      apply negb_true_iff, Z.eqb_neq. lia.
Qed.

Lemma scaleCode_cycle (s : Z) (K : triple Z) :
  scaleCode s (cycleAxes K) = cycleAxes (scaleCode s K).
Proof. destruct K as [[a b] c]. reflexivity. Qed.

Lemma faceAdjacentCentroidAt_cycle (hc s : Z) (tc : bccTetCentroid) (face : Z) :
  0 <= hc < 3 ->
  faceAdjacentCentroidAt ((hc + 1) mod 3) s (cycleAxes tc) face
  = (fst (faceAdjacentCentroidAt hc s tc face),
     cycleAxes (snd (faceAdjacentCentroidAt hc s tc face))).
Proof.
  destruct tc as [[a b] c]. intros Hhc.
  assert (hc = 0 \/ hc = 1 \/ hc = 2) as [-> | [-> | ->]] by lia;
    unfold faceAdjacentCentroidAt, addU; cbv zeta; axis_norm; axis_norm;
    cbn [at3 set3 cycleAxes];
    repeat match goal with
      | |- context [if ?t then _ else _] =>
          destruct t; cbn [at3 set3 cycleAxes fst snd andb orb]
      end;
    reflexivity.
Qed.

Lemma faceAdjacentMicrotet_cycle (K : bccTetCentroid) (hc A B C face : Z) :
  0 <= hc < 3 ->
  at3 K hc = 2 * A + 1 -> at3 K ((hc + 1) mod 3) = 2 * B -> at3 K ((hc + 2) mod 3) = 2 * C ->
  faceAdjacentMicrotet (cycleAxes K) face
  = (fst (faceAdjacentMicrotet K face), cycleAxes (snd (faceAdjacentMicrotet K face))).
Proof.
  destruct K as [[a b] c]. intros Hhc H0 H1 H2.
  assert (hc = 0 \/ hc = 1 \/ hc = 2) as [-> | [-> | ->]] by lia;
    axis_norm; cbn [at3] in H0, H1, H2; subst a b c;
    unfold faceAdjacentMicrotet; cbv beta iota zeta delta [addU at3 set3 cycleAxes];
    rewrite ?(truthy_land1_odd (2 * A + 1)), ?(truthy_land1_even (2 * B)),
      ?(truthy_land1_even (2 * C)) by lia;
    cbv beta iota zeta; axis_norm; cbv beta iota zeta delta [at3 set3];
    repeat match goal with
      | |- context [if ?t then _ else _] =>
          destruct t; cbn [at3 set3 cycleAxes fst snd andb orb]
      end;
    reflexivity.
Qed.

Lemma scaled_zero_or_ge (s X : Z) :
  0 < s -> 0 <= X -> (X = 0 /\ s * X = 0) \/ (1 <= X /\ s <= s * X).
Proof.
  intros Hs HX. destruct (Z.eq_dec X 0) as [-> | Hn].
  - left. split; [reflexivity | ring].
  - right. split; [lia|].
    rewrite <- (Z.mul_1_r s) at 1. apply Z.mul_le_mono_nonneg_l; lia.
Qed.

Lemma scalesAt_first (j : nat) (A B C face : Z) :
  0 <= A -> 0 <= B -> 0 <= C ->
  2 ^ Z.of_nat j * (2 * A + 4) <= 32767 ->
  2 ^ Z.of_nat j * (2 * B + 3) <= 32767 ->
  2 ^ Z.of_nat j * (2 * C + 3) <= 32767 ->
  B mod 2 <> C mod 2 ->
  0 <= face <= 3 ->
  (face = 3 -> 4 <= 2 ^ Z.of_nat j -> A mod 2 = C mod 2) ->
  scalesAt j 0 (2 * A + 1, 2 * B, 2 * C) face.
Proof.
  intros HA HB HC Hr0 Hr1 Hr2 Hpar Hface Hdef.
  pose proof (pow2_pos j) as Hs.
  unfold scalesAt, scaleCode. cbv zeta.
  assert (Hf : face = 0 \/ face = 1 \/ face = 2 \/ face = 3) by lia. clear Hface.
  remember (2 ^ Z.of_nat j) as s eqn:Hsj.
  pose proof (scaled_zero_or_ge s A Hs HA) as ZA.
  pose proof (scaled_zero_or_ge s B Hs HB) as ZB.
  pose proof (scaled_zero_or_ge s C Hs HC) as ZC.
  unfold faceAdjacentCentroidAt, faceAdjacentMicrotet;
    cbv beta iota zeta delta [addU at3 set3]; axis_norm;
    rewrite ?(truthy_land1_odd (2 * A + 1)), ?(truthy_land1_even (2 * B)),
      ?(truthy_land1_even (2 * C)) by lia;
    cbv beta iota zeta; axis_norm; cbv beta iota zeta delta [at3 set3].
  rewrite ?up_test_micro, ?(orient_scaled j s A C Hsj), ?(orient_scaled j s A B Hsj).
  clear Hsj.
  destruct (A mod 2 =? C mod 2) eqn:Eup;
    [ replace (A mod 2 =? B mod 2) with false by lia
    | replace (A mod 2 =? B mod 2) with true by lia ];
    cbn [negb]; cbv iota.
  all: destruct Hf as [-> | [-> | [-> | ->]]]; face_lits.
  all: try replace (0 <? s) with true by lia.
  all: try replace (3 <? s) with false by lia.
  all: cbv iota.
  all: replace (2 * A + 1 <? 1) with false by lia; cbv iota.
  all: clear Hpar Eup Hdef.
  all: unfold ushort; rewrite ?Z.mod_small by lia.
  all: repeat match goal with
         | |- context [if ?g <? ?h then _ else _] =>
             let G := fresh "G" in destruct (g <? h) eqn:G
         end; cbn [fst snd].
  all: try (exfalso; lia).
  all: split; [reflexivity|]; intros Hne; try (exfalso; apply Hne; reflexivity).
  all: triple_eq; lia.
Qed.

Lemma scalesAt_cycle (j : nat) (hc : Z) (K : bccTetCentroid) (A B C face : Z) :
  0 <= hc < 3 ->
  at3 K hc = 2 * A + 1 -> at3 K ((hc + 1) mod 3) = 2 * B -> at3 K ((hc + 2) mod 3) = 2 * C ->
  scalesAt j hc K face -> scalesAt j ((hc + 1) mod 3) (cycleAxes K) face.
Proof.
  intros Hhc H0 H1 H2. unfold scalesAt. cbv zeta.
  rewrite scaleCode_cycle, faceAdjacentCentroidAt_cycle by exact Hhc.
  rewrite (faceAdjacentMicrotet_cycle K hc A B C) by assumption.
  cbn [fst snd]. intros [Hf Hs]. split; [exact Hf|].
  intros Hne. rewrite (Hs Hne), scaleCode_cycle. reflexivity.
Qed.

(** At every half axis. *)
Lemma adjacency_scales (j : nat) (hc : Z) (K : bccTetCentroid) (A B C face : Z) :
  0 <= hc < 3 ->
  at3 K hc = 2 * A + 1 -> at3 K ((hc + 1) mod 3) = 2 * B -> at3 K ((hc + 2) mod 3) = 2 * C ->
  0 <= A -> 0 <= B -> 0 <= C ->
  2 ^ Z.of_nat j * (2 * A + 4) <= 32767 ->
  2 ^ Z.of_nat j * (2 * B + 3) <= 32767 ->
  2 ^ Z.of_nat j * (2 * C + 3) <= 32767 ->
  B mod 2 <> C mod 2 ->
  0 <= face <= 3 ->
  (face = 3 -> 4 <= 2 ^ Z.of_nat j -> A mod 2 = C mod 2) ->
  scalesAt j hc K face.
Proof.
  intros Hhc H0 H1 H2 HA HB HC Hr0 Hr1 Hr2 Hpar Hface Hdef.
  pose proof (scalesAt_first j A B C face HA HB HC Hr0 Hr1 Hr2 Hpar Hface Hdef) as H.
  destruct K as [[a b] c].
  assert (hc = 0 \/ hc = 1 \/ hc = 2) as [-> | [-> | ->]] by lia;
    axis_norm; cbn [at3] in H0, H1, H2; subst a b c.
  - exact H.
  - apply (scalesAt_cycle j 0 _ A B C) in H; [exact H | lia | reflexivity ..].
  - apply (scalesAt_cycle j 0 _ A B C) in H; [| lia | reflexivity ..].
    apply (scalesAt_cycle j 1 _ A B C) in H; [exact H | lia | reflexivity ..].
Qed.

Lemma at3_scaleCode (s : Z) (K : triple Z) (i : Z) :
  at3 (scaleCode s K) i = s * at3 K i.
Proof. destruct K as [[a b] c]. unfold at3, scaleCode. destruct i as [|[?|?|]|?]; reflexivity. Qed.

Lemma pow2_le_bound (j : nat) : 2 ^ Z.of_nat j * 3 <= 32767 -> (j <= 13)%nat.
Proof.
  intros H. destruct (Nat.le_gt_cases j 13) as [Hj | Hj]; [exact Hj|].
  exfalso. assert (2 ^ 14 <= 2 ^ Z.of_nat j) by (apply Z.pow_le_mono_r; lia).
  change (2 ^ 14) with 16384 in *. lia.
Qed.

Lemma upTet_parity (tc : bccTetCentroid) (hc : Z) (j : nat) (A C : Z) :
  centroidHalfAxisSize tc = Done (hc, 2 ^ Z.of_nat j) ->
  at3 tc hc = 2 ^ Z.of_nat j * (2 * A + 1) ->
  at3 tc ((hc + 2) mod 3) = 2 ^ Z.of_nat j * (2 * C) ->
  upTet tc = (A mod 2 =? C mod 2).
Proof.
  intros E H0 H2. unfold upTet. rewrite (centroidHalfAxisSize_scan tc hc _ E).
  rewrite H0, H2. apply up_test_scaled.
Qed.

(** A valid code is a multiple of a valid code of the finest level. *)
Lemma valid_is_scaled (tc : bccTetCentroid) :
  validCentroid tc = true ->
  exists (j : nat) (hc A B C : Z) (K : bccTetCentroid),
    (j < 15)%nat /\ 0 <= hc < 3
    /\ tc = scaleCode (2 ^ Z.of_nat j) K
    /\ centroidHalfAxisSize tc = Done (hc, 2 ^ Z.of_nat j)
    /\ at3 K hc = 2 * A + 1 /\ at3 K ((hc + 1) mod 3) = 2 * B
    /\ at3 K ((hc + 2) mod 3) = 2 * C
    /\ B mod 2 <> C mod 2 /\ 0 <= A /\ 0 <= B /\ 0 <= C
    /\ centroidHalfAxisSize K = Done (hc, 1) /\ validMicrotet K = true.
Proof.
  intros Hv.
  destruct (validCentroid_coords tc Hv)
    as (hc & j & A & B & C & Hj & Hhc & E & H0 & H1 & H2 & Hne & Hu).
  pose proof (pow2_pos j) as Hs.
  pose proof (at3_in_ushort tc hc Hu) as Hi0.
  pose proof (at3_in_ushort tc ((hc + 1) mod 3) Hu) as Hi1.
  pose proof (at3_in_ushort tc ((hc + 2) mod 3) Hu) as Hi2.
  rewrite H0 in Hi0. rewrite H1 in Hi1. rewrite H2 in Hi2.
  set (s := 2 ^ Z.of_nat j) in *.
  assert (HA : 0 <= A) by (assert (0 <= 2 * A + 1) by (apply (Z.mul_nonneg_cancel_l s); lia); lia).
  assert (HB : 0 <= B) by (assert (0 <= 2 * B) by (apply (Z.mul_nonneg_cancel_l s); lia); lia).
  assert (HC : 0 <= C) by (assert (0 <= 2 * C) by (apply (Z.mul_nonneg_cancel_l s); lia); lia).
  assert (LA : 2 * A + 1 <= s * (2 * A + 1))
    by (rewrite <- (Z.mul_1_l (2 * A + 1)) at 1; apply Z.mul_le_mono_nonneg_r; lia).
  assert (LB : 2 * B <= s * (2 * B))
    by (rewrite <- (Z.mul_1_l (2 * B)) at 1; apply Z.mul_le_mono_nonneg_r; lia).
  assert (LC : 2 * C <= s * (2 * C))
    by (rewrite <- (Z.mul_1_l (2 * C)) at 1; apply Z.mul_le_mono_nonneg_r; lia).
  exists j, hc, A, B, C.
  destruct tc as [[a b] c].
  assert (hc = 0 \/ hc = 1 \/ hc = 2) as [-> | [-> | ->]] by lia;
    axis_norm; cbn [at3] in H0, H1, H2; subst a b c;
    [ exists (2 * A + 1, 2 * B, 2 * C)
    | exists (2 * C, 2 * A + 1, 2 * B)
    | exists (2 * B, 2 * C, 2 * A + 1) ].
  all: split; [exact Hj|]; split; [lia|]; split; [reflexivity|]; split; [exact E|].
  all: axis_norm; cbn [at3].
  all: do 3 (split; [reflexivity|]).
  all: do 4 (split; [assumption|]).
  all: apply (validMicrotet_intro _ _ A B C); axis_norm; cbn [at3];
    try reflexivity; try assumption; try lia.
  all: unfold in_ushort, isUShort; lia.
Qed.

(** The nodes of the multiple are the multiples of the nodes. *)
Lemma nodes_scale (j : nat) (hc A B C : Z) (K : bccTetCentroid) :
  0 <= hc < 3 ->
  at3 K hc = 2 * A + 1 -> at3 K ((hc + 1) mod 3) = 2 * B -> at3 K ((hc + 2) mod 3) = 2 * C ->
  B mod 2 <> C mod 2 -> 0 <= A -> 0 <= B -> 0 <= C ->
  2 ^ Z.of_nat j * (2 * A + 3) <= 32767 ->
  2 ^ Z.of_nat j * (2 * B + 3) <= 32767 ->
  2 ^ Z.of_nat j * (2 * C + 3) <= 32767 ->
  validCentroid (scaleCode (2 ^ Z.of_nat j) K) = true
  /\ centroidSize (scaleCode (2 ^ Z.of_nat j) K) = 2 ^ Z.of_nat j
  /\ exists n0 n1 n2 n3,
       centroidToNodeLoci K = Done [n0; n1; n2; n3]
       /\ centroidToNodeLoci (scaleCode (2 ^ Z.of_nat j) K)
          = Done (map (scaleCode (2 ^ Z.of_nat j)) [n0; n1; n2; n3]).
Proof.
  intros Hhc H0 H1 H2 Hpar HA HB HC Hr0 Hr1 Hr2.
  pose proof (pow2_pos j) as Hs.
  assert (Hj : (j <= 13)%nat).
  { apply pow2_le_bound.
    assert (2 ^ Z.of_nat j * 3 <= 2 ^ Z.of_nat j * (2 * A + 3))
      by (apply Z.mul_le_mono_nonneg_l; lia).
    lia. }
  pose proof (up_test_scaled j A C) as Hup.
  set (s := 2 ^ Z.of_nat j) in *.
  assert (LA : 2 * A + 3 <= s * (2 * A + 3))
    by (rewrite <- (Z.mul_1_l (2 * A + 3)) at 1; apply Z.mul_le_mono_nonneg_r; lia).
  assert (LB : 2 * B + 3 <= s * (2 * B + 3))
    by (rewrite <- (Z.mul_1_l (2 * B + 3)) at 1; apply Z.mul_le_mono_nonneg_r; lia).
  assert (LC : 2 * C + 3 <= s * (2 * C + 3))
    by (rewrite <- (Z.mul_1_l (2 * C + 3)) at 1; apply Z.mul_le_mono_nonneg_r; lia).
  assert (PA : 0 <= s * A) by (apply Z.mul_nonneg_nonneg; lia).
  assert (PB : 0 <= s * B) by (apply Z.mul_nonneg_nonneg; lia).
  assert (PC : 0 <= s * C) by (apply Z.mul_nonneg_nonneg; lia).
  assert (HinK : in_ushort K = true).
  { destruct K as [[a b] c]. unfold in_ushort, isUShort.
    assert (hc = 0 \/ hc = 1 \/ hc = 2) as [-> | [-> | ->]] by lia;
      axis_norm; cbn [at3] in H0, H1, H2; lia. }
  assert (HinS : in_ushort (scaleCode s K) = true).
  { destruct K as [[a b] c]. unfold in_ushort, isUShort, scaleCode.
    assert (hc = 0 \/ hc = 1 \/ hc = 2) as [-> | [-> | ->]] by lia;
      axis_norm; cbn [at3] in H0, H1, H2; subst a b c; lia. }
  destruct (microtet_nodes K hc A B C) as (_ & _ & n0 & n1 & n2 & n3 & Hgl & M);
    try assumption; try lia.
  destruct (validCentroid_intro (scaleCode s K) hc j A B C) as [E V];
    try assumption; try lia;
    try (rewrite at3_scaleCode; first [rewrite H0 | rewrite H1 | rewrite H2]; reflexivity).
  assert (Hfit : nodesFitShort (scaleCode s K) = true).
  { unfold nodesFitShort. rewrite E, !at3_scaleCode, H0, H1, H2. lia. }
  destruct (nodeLoci_explicit (scaleCode s K) V Hfit)
    as (hc' & s' & e & m0 & m1 & m2 & m3 & E' & _ & _ & He & Hiff & Hgl' & M0 & M1 & M2 & M3).
  rewrite E in E'. injection E' as <- <-.
  rewrite !at3_scaleCode, H0, H2 in Hiff. rewrite !at3_scaleCode, H0, H1, H2 in M0, M1, M2, M3.
  split; [exact V|]. split; [unfold centroidSize; rewrite E; reflexivity|].
  exists n0, n1, n2, n3. split; [exact Hgl|]. rewrite Hgl'. cbn [map].
  cbv zeta in M.
  destruct (A mod 2 =? C mod 2) eqn:Eup.
  - apply Z.eqb_eq in Hup. assert (e = 1) by (apply Hiff; exact Hup). subst e.
    destruct M as ((? & ? & ?) & (? & ? & ?) & (? & ? & ?) & (? & ? & ?)).
    clear Hiff Hup Eup Hpar.
    assert (m0 = scaleCode s n0 /\ m1 = scaleCode s n1
            /\ m2 = scaleCode s n2 /\ m3 = scaleCode s n3) as (-> & -> & -> & ->)
      by (repeat split; apply (triple_ext _ _ hc); try assumption;
          rewrite at3_scaleCode; lia).
    reflexivity.
  - apply Z.eqb_neq in Hup.
    assert (e = -1) by (destruct He as [-> | ->]; [exfalso; apply Hup, Hiff; reflexivity | reflexivity]).
    subst e.
    destruct M as ((? & ? & ?) & (? & ? & ?) & (? & ? & ?) & (? & ? & ?)).
    clear Hiff Hup Eup Hpar.
    assert (m0 = scaleCode s n0 /\ m1 = scaleCode s n1
            /\ m2 = scaleCode s n2 /\ m3 = scaleCode s n3) as (-> & -> & -> & ->)
      by (repeat split; apply (triple_ext _ _ hc); try assumption;
          rewrite at3_scaleCode; lia).
    reflexivity.
Qed.

Lemma scale_le (s x y : Z) : 0 < s -> x <= y -> s * x <= s * y.
Proof. intros. apply Z.mul_le_mono_nonneg_l; lia. Qed.

Lemma scaleCode_inj (s : Z) (u v : triple Z) :
  0 < s -> scaleCode s u = scaleCode s v -> u = v.
Proof.
  destruct u as [[a b] c], v as [[x y] z]. unfold scaleCode. intros Hs H.
  apply pair_equal_spec in H as [H H2]. apply pair_equal_spec in H as [H0 H1].
  apply Z.mul_reg_l in H0, H1, H2; try lia. congruence.
Qed.

Lemma faceLoci_map (g : triple Z -> triple Z) (a b c d : triple Z) (face : Z) :
  0 <= face <= 3 ->
  faceLoci (map g [a; b; c; d]) face = map g (faceLoci [a; b; c; d] face)
  /\ apexLocus (map g [a; b; c; d]) face = g (apexLocus [a; b; c; d] face).
Proof.
  intros H. assert (face = 0 \/ face = 1 \/ face = 2 \/ face = 3) as [-> | [-> | [-> | ->]]] by lia;
    split; reflexivity.
Qed.

Lemma same_members_map {A B : Type} (g : A -> B) (l1 l2 : list A) :
  (forall n, In n l1 <-> In n l2) -> forall n, In n (map g l1) <-> In n (map g l2).
Proof.
  intros H n. rewrite !in_map_iff. split; intros (x & Hx & Hin); exists x; (split; [exact Hx|]);
    apply H; exact Hin.
Qed.

(** No coordinate of the neighbour is more than one above the coordinate of
    the tet. *)
Lemma microtet_neighbour_near (tc : bccTetCentroid) (face i : Z) :
  in_ushort tc = true -> at3 tc 0 <= 65534 -> at3 tc 1 <= 65534 -> at3 tc 2 <= 65534 ->
  at3 (snd (faceAdjacentMicrotet tc face)) i <= at3 tc i + 1.
Proof.
  destruct tc as [[a b] c]. intros Hin H0 H1 H2. apply in_ushort_bounds in Hin.
  cbn [at3] in H0, H1, H2.
  cbv beta iota zeta delta [faceAdjacentMicrotet addU at3 set3].
  case_parities; cbv beta iota zeta; axis_norm;
    cbv beta iota zeta delta [at3 set3].
  all: face_tests face; cbn [orb andb negb].
  all: case_up; split_ifs; cbn [snd].
  all: unfold ushort in *.
  all: destruct i as [|[?|?|]|?]; lia.
Qed.

Lemma microtet_face_range (tc : bccTetCentroid) (face : Z) :
  -1 <= fst (faceAdjacentMicrotet tc face) <= 3.
Proof.
  unfold faceAdjacentMicrotet. cbv zeta.
  repeat match goal with
    | |- context [if ?t then _ else _] => destruct t; cbn [fst]
    end; lia.
Qed.

(** A valid code within the bounds, as a multiple of a code of the finest
    level. *)
Lemma scaled_setup (tc : bccTetCentroid) :
  validCentroid tc = true ->
  at3 tc 0 + 4 * centroidSize tc <= 32767 ->
  at3 tc 1 + 4 * centroidSize tc <= 32767 ->
  at3 tc 2 + 4 * centroidSize tc <= 32767 ->
  exists (j : nat) (hc A B C : Z) (K : bccTetCentroid),
    0 <= hc < 3
    /\ tc = scaleCode (2 ^ Z.of_nat j) K
    /\ centroidHalfAxisSize tc = Done (hc, 2 ^ Z.of_nat j)
    /\ at3 K hc = 2 * A + 1 /\ at3 K ((hc + 1) mod 3) = 2 * B
    /\ at3 K ((hc + 2) mod 3) = 2 * C
    /\ B mod 2 <> C mod 2 /\ 0 <= A /\ 0 <= B /\ 0 <= C
    /\ validMicrotet K = true
    /\ (forall i, 0 <= i < 3 -> 2 ^ Z.of_nat j * (at3 K i + 4) <= 32767).
Proof.
  intros Hv L0 L1 L2.
  destruct (valid_is_scaled tc Hv)
    as (j & hc & A & B & C & K & Hj & Hhc & -> & E & H0 & H1 & H2 & Hpar & HA & HB & HC & EK & HK).
  unfold centroidSize in L0, L1, L2. rewrite E in L0, L1, L2.
  rewrite at3_scaleCode in L0, L1, L2.
  exists j, hc, A, B, C, K. do 11 (split; [first [assumption | reflexivity]|]).
  intros i Hi.
  assert (i = 0 \/ i = 1 \/ i = 2) as [-> | [-> | ->]] by lia; lia.
Qed.

(** The neighbour that [faceAdjacentCentroid] returns has the three nodes of
    the face, at every size. *)
Lemma adjacent_centroid_face (tc tcAdj : bccTetCentroid) (face adjFace : Z) :
  validCentroid tc = true ->
  at3 tc 0 + 4 * centroidSize tc <= 32767 ->
  at3 tc 1 + 4 * centroidSize tc <= 32767 ->
  at3 tc 2 + 4 * centroidSize tc <= 32767 ->
  0 <= face <= 3 ->
  (face = 3 -> 4 <= centroidSize tc -> upTet tc = true) ->
  faceAdjacentCentroid tc face = Done (adjFace, tcAdj) ->
  adjFace <> -1 ->
  validCentroid tcAdj = true
  /\ centroidSize tcAdj = centroidSize tc
  /\ exists gl glAdj,
       centroidToNodeLoci tc = Done gl
       /\ centroidToNodeLoci tcAdj = Done glAdj
       /\ (forall n, In n (faceLoci gl face) <-> In n (faceLoci glAdj adjFace))
       /\ ~ In (apexLocus gl face) glAdj.
Proof.
  intros Hv L0 L1 L2 Hface Hdef Hres Hne.
  destruct (scaled_setup tc Hv L0 L1 L2)
    as (j & hc & A & B & C & K & Hhc & -> & E & H0 & H1 & H2 & Hpar & HA & HB & HC & HK & Hlim).
  pose proof (pow2_pos j) as Hs.
  assert (Hax1 : 0 <= (hc + 1) mod 3 < 3) by (apply Z.mod_pos_bound; lia).
  assert (Hax2 : 0 <= (hc + 2) mod 3 < 3) by (apply Z.mod_pos_bound; lia).
  pose proof (Hlim hc Hhc) as La. pose proof (Hlim _ Hax1) as Lb. pose proof (Hlim _ Hax2) as Lc.
  rewrite H0 in La. rewrite H1 in Lb. rewrite H2 in Lc.
  assert (Hup : upTet (scaleCode (2 ^ Z.of_nat j) K) = (A mod 2 =? C mod 2)).
  { apply (upTet_parity _ hc j); [exact E | rewrite at3_scaleCode, H0; reflexivity
                                 | rewrite at3_scaleCode, H2; reflexivity]. }
  unfold centroidSize in Hdef |- *. rewrite E in Hdef |- *. rewrite Hup in Hdef.
  destruct (adjacency_scales j hc K A B C face) as [Hf Hsnd]; try assumption.
  { pose proof (scale_le _ (2 * A + 4) (2 * A + 1 + 4) Hs). lia. }
  { pose proof (scale_le _ (2 * B + 3) (2 * B + 4) Hs). lia. }
  { pose proof (scale_le _ (2 * C + 3) (2 * C + 4) Hs). lia. }
  { intros H3 H4. specialize (Hdef H3 H4). lia. }
  unfold faceAdjacentCentroid in Hres. rewrite E in Hres. cbn [bind] in Hres.
  injection Hres as Hres.
  rewrite Hres in Hf, Hsnd. cbn [fst snd] in Hf, Hsnd.
  specialize (Hsnd Hne).
  destruct (faceAdjacentMicrotet K face) as [af K'] eqn:Em. cbn [fst snd] in Hf, Hsnd.
  subst af tcAdj.
  assert (HKlim : forall i, 0 <= i < 3 -> 0 <= at3 K i <= 32763).
  { intros i Hi. specialize (Hlim i Hi).
    assert (HinK : in_ushort K = true).
    { unfold validMicrotet, validCentroid in HK. apply andb_prop in HK as [HK _].
      apply andb_prop in HK as [HK _]. exact HK. }
    pose proof (at3_in_ushort K i HinK) as Hb.
    assert (at3 K i + 4 <= 2 ^ Z.of_nat j * (at3 K i + 4)).
    { rewrite <- (Z.mul_1_l (at3 K i + 4)) at 1. apply Z.mul_le_mono_nonneg_r; lia. }
    lia. }
  destruct (adjacent_microtet_face K K' face adjFace) as (HK' & gl & glAdj & Hgl & HglAdj & Hsame & Hapex);
    try assumption;
    try (apply HKlim; lia).
  all: try (pose proof (HKlim 0 ltac:(lia)); pose proof (HKlim 1 ltac:(lia));
            pose proof (HKlim 2 ltac:(lia)); lia).
  destruct (nodes_scale j hc A B C K) as (_ & _ & n0 & n1 & n2 & n3 & Hn & Hns);
    try assumption.
  { pose proof (scale_le _ (2 * A + 3) (2 * A + 1 + 4) Hs). lia. }
  { pose proof (scale_le _ (2 * B + 3) (2 * B + 4) Hs). lia. }
  { pose proof (scale_le _ (2 * C + 3) (2 * C + 4) Hs). lia. }
  destruct (validMicrotet_coords K' HK')
    as (hc' & A' & B' & C' & Hhc' & _ & H0' & H1' & H2' & Hpar' & Hin').
  assert (Hnear : forall i, 0 <= i < 3 -> 0 <= at3 K' i /\ 2 ^ Z.of_nat j * (at3 K' i + 3) <= 32767).
  { intros i Hi. pose proof (at3_in_ushort K' i Hin') as Hb.
    pose proof (microtet_neighbour_near K face i) as Hn1.
    rewrite Em in Hn1. cbn [snd] in Hn1.
    assert (HinK : in_ushort K = true).
    { unfold validMicrotet, validCentroid in HK. apply andb_prop in HK as [HK _].
      apply andb_prop in HK as [HK _]. exact HK. }
    pose proof (HKlim 0 ltac:(lia)). pose proof (HKlim 1 ltac:(lia)).
    pose proof (HKlim 2 ltac:(lia)).
    specialize (Hn1 HinK ltac:(lia) ltac:(lia) ltac:(lia)).
    pose proof (scale_le _ (at3 K' i + 3) (at3 K i + 4) Hs ltac:(lia)).
    specialize (Hlim i Hi). lia. }
  assert (Hax1' : 0 <= (hc' + 1) mod 3 < 3) by (apply Z.mod_pos_bound; lia).
  assert (Hax2' : 0 <= (hc' + 2) mod 3 < 3) by (apply Z.mod_pos_bound; lia).
  pose proof (Hnear hc' Hhc') as Na. pose proof (Hnear _ Hax1') as Nb.
  pose proof (Hnear _ Hax2') as Nc.
  rewrite H0' in Na. rewrite H1' in Nb. rewrite H2' in Nc.
  destruct (nodes_scale j hc' A' B' C' K') as (V' & S' & m0 & m1 & m2 & m3 & Hm & Hms);
    try assumption; try lia.
  split; [exact V'|]. split; [exact S'|].
  rewrite Hn in Hgl. injection Hgl as <-.
  rewrite Hm in HglAdj. injection HglAdj as <-.
  exists (map (scaleCode (2 ^ Z.of_nat j)) [n0; n1; n2; n3]), (map (scaleCode (2 ^ Z.of_nat j)) [m0; m1; m2; m3]).
  split; [exact Hns|]. split; [exact Hms|].
  pose proof (microtet_face_range K face) as Hrange. rewrite Em in Hrange. cbn [fst] in Hrange.
  destruct (faceLoci_map (scaleCode (2 ^ Z.of_nat j)) n0 n1 n2 n3 face Hface) as [F1 P1].
  destruct (faceLoci_map (scaleCode (2 ^ Z.of_nat j)) m0 m1 m2 m3 adjFace ltac:(lia)) as [F2 _].
  rewrite F1, F2, P1. split.
  - apply same_members_map. exact Hsame.
  - intros Hin. apply in_map_iff in Hin as (x & Hx & Hin).
    apply scaleCode_inj in Hx; [|exact Hs]. subst x. exact (Hapex Hin).
Qed.

(** X14: [faceAdjacentCentroid] is [faceAdjacentMicrotet] taken to the size of
    the tet.  A valid code [tc] is the multiple [size * K] of a valid code [K]
    of the finest level; when the coordinates of [tc] stay 4 sizes below the
    largest [short], for every face 0..3 [faceAdjacentCentroid] on [tc]
    returns the face number that [faceAdjacentMicrotet] returns on [K] and,
    unless that is -1, [size] times the neighbour of [K].  The one exception
    is face 3 of a "down" tet of size 4 or more, which the hypothesis on
    [upTet] leaves out. *)
Theorem faceAdjacentCentroid_scales (tc : bccTetCentroid) (face : Z) :
  validCentroid tc = true ->
  at3 tc 0 + 4 * centroidSize tc <= 32767 ->
  at3 tc 1 + 4 * centroidSize tc <= 32767 ->
  at3 tc 2 + 4 * centroidSize tc <= 32767 ->
  0 <= face <= 3 ->
  (face = 3 -> 4 <= centroidSize tc -> upTet tc = true) ->
  exists K r,
    validMicrotet K = true
    /\ tc = scaleCode (centroidSize tc) K
    /\ faceAdjacentCentroid tc face = Done r
    /\ fst r = fst (faceAdjacentMicrotet K face)
    /\ (fst r <> -1 ->
        snd r = scaleCode (centroidSize tc) (snd (faceAdjacentMicrotet K face))).
Proof.
  intros Hv L0 L1 L2 Hface Hdef.
  destruct (scaled_setup tc Hv L0 L1 L2)
    as (j & hc & A & B & C & K & Hhc & -> & E & H0 & H1 & H2 & Hpar & HA & HB & HC & HK & Hlim).
  pose proof (pow2_pos j) as Hs.
  assert (Hax1 : 0 <= (hc + 1) mod 3 < 3) by (apply Z.mod_pos_bound; lia).
  assert (Hax2 : 0 <= (hc + 2) mod 3 < 3) by (apply Z.mod_pos_bound; lia).
  pose proof (Hlim hc Hhc) as La. pose proof (Hlim _ Hax1) as Lb. pose proof (Hlim _ Hax2) as Lc.
  rewrite H0 in La. rewrite H1 in Lb. rewrite H2 in Lc.
  assert (Hup : upTet (scaleCode (2 ^ Z.of_nat j) K) = (A mod 2 =? C mod 2)).
  { apply (upTet_parity _ hc j); [exact E | rewrite at3_scaleCode, H0; reflexivity
                                 | rewrite at3_scaleCode, H2; reflexivity]. }
  unfold centroidSize in Hdef |- *. rewrite E in Hdef |- *. rewrite Hup in Hdef.
  destruct (adjacency_scales j hc K A B C face) as [Hf Hsnd]; try assumption; try lia.
  exists K. eexists. split; [exact HK|]. split; [reflexivity|].
  unfold faceAdjacentCentroid. rewrite E. cbn [bind].
  split; [reflexivity|]. split; [exact Hf | exact Hsnd].
Qed.

Lemma faceAdjacentCentroid_scales_witness :
  exists K r,
    validMicrotet K = true
    /\ (6, 4, 8) = scaleCode (centroidSize (6, 4, 8)) K
    /\ faceAdjacentCentroid (6, 4, 8) 1 = Done r
    /\ fst r = fst (faceAdjacentMicrotet K 1)
    /\ (fst r <> -1 ->
        snd r = scaleCode (centroidSize (6, 4, 8)) (snd (faceAdjacentMicrotet K 1))).
Proof.
  apply (faceAdjacentCentroid_scales (6, 4, 8) 1).
  - reflexivity.
  - vm_compute. discriminate.
  - vm_compute. discriminate.
  - vm_compute. discriminate.
  - lia.
  - intros H. discriminate H.
Defined.

(** X15: the neighbour that [faceAdjacentCentroid] returns lies across the face
    that was asked for, at every size.  For a valid code whose coordinates
    stay 4 sizes below the largest [short] and a face 0..3 (face 3 of a "down"
    tet of size 4 or more left out), when the result is not -1 the returned
    code is a valid code of the same size, the three node positions
    [(face + i) & 3] that [centroidToNodeLoci] gives for the tet are the three
    node positions [(adjFace + i) & 3] of the neighbour, and the fourth node
    of the tet is none of the four nodes of the neighbour. *)
Theorem faceAdjacentCentroid_shares_face (tc tcAdj : bccTetCentroid) (face adjFace : Z) :
  validCentroid tc = true ->
  at3 tc 0 + 4 * centroidSize tc <= 32767 ->
  at3 tc 1 + 4 * centroidSize tc <= 32767 ->
  at3 tc 2 + 4 * centroidSize tc <= 32767 ->
  0 <= face <= 3 ->
  (face = 3 -> 4 <= centroidSize tc -> upTet tc = true) ->
  faceAdjacentCentroid tc face = Done (adjFace, tcAdj) ->
  adjFace <> -1 ->
  validCentroid tcAdj = true
  /\ centroidSize tcAdj = centroidSize tc
  /\ exists gl glAdj,
       centroidToNodeLoci tc = Done gl
       /\ centroidToNodeLoci tcAdj = Done glAdj
       /\ (forall n, In n (faceLoci gl face) <-> In n (faceLoci glAdj adjFace))
       /\ ~ In (apexLocus gl face) glAdj.
Proof. apply adjacent_centroid_face. Qed.

Lemma faceAdjacentCentroid_shares_face_witness :
  validCentroid (16, 20, 24) = true
  /\ centroidSize (16, 20, 24) = centroidSize (20, 16, 24)
  /\ exists gl glAdj,
       centroidToNodeLoci (20, 16, 24) = Done gl
       /\ centroidToNodeLoci (16, 20, 24) = Done glAdj
       /\ (forall n, In n (faceLoci gl 1) <-> In n (faceLoci glAdj 0))
       /\ ~ In (apexLocus gl 1) glAdj.
Proof.
  apply (faceAdjacentCentroid_shares_face (20, 16, 24) (16, 20, 24) 1 0).
  - reflexivity.
  - vm_compute. discriminate.
  - vm_compute. discriminate.
  - vm_compute. discriminate.
  - lia.
  - intros H. discriminate H.
  - reflexivity.
  - discriminate.
Defined.



(** ** Numbers that binary32 holds *)

Lemma pow2Q_nonneg (k : Z) : 0 <= k -> pow2Q k = inject_Z (2 ^ k).
Proof. intros H. unfold pow2Q. replace (0 <=? k) with true by lia. reflexivity. Qed.

Lemma pow2Q_neg (k : Z) : 0 < k -> (pow2Q (- k) * inject_Z (2 ^ k) == 1)%Q.
Proof.
  intros H. unfold pow2Q. replace (0 <=? - k) with false by lia.
  rewrite Z.opp_involutive.
  assert (Hp : 0 < 2 ^ k) by (apply Z.pow_pos_nonneg; lia).
  unfold Qeq, Qmult, inject_Z. cbn [Qnum Qden].
  rewrite Pos.mul_1_r, Z2Pos.id by exact Hp. ring.
Qed.

Lemma ilog2_lt (q : Q) (k : Z) :
  (0 < q)%Q -> 0 <= k -> (q < inject_Z (2 ^ k))%Q -> ilog2 q < k.
Proof.
  destruct q as [a b]. unfold Qlt, inject_Z. cbn [Qnum Qden]. intros Ha Hk Hlt.
  rewrite Z.mul_1_r in Ha. rewrite Z.mul_1_r in Hlt.
  unfold ilog2. cbn [Qnum Qden].
  pose proof (Z.log2_spec a Ha) as [La _].
  assert (Hb : 0 < Z.pos b) by lia.
  pose proof (Z.log2_spec (Z.pos b) Hb) as [_ Lb].
  pose proof (Z.log2_nonneg a) as Na.
  pose proof (Z.log2_nonneg (Z.pos b)) as Nb.
  set (la := Z.log2 a) in *. set (lb := Z.log2 (Z.pos b)) in *.
  assert (P2k : 0 < 2 ^ k) by (apply Z.pow_pos_nonneg; lia).
  assert (P2b : 0 < 2 ^ lb) by (apply Z.pow_pos_nonneg; lia).
  destruct (a * 2 ^ lb <? Z.pos b * 2 ^ la) eqn:C.
  - destruct (Z_lt_le_dec (la - lb - 1) k) as [|Hge]; [assumption|exfalso].
    assert (M : 2 ^ (Z.succ lb + k) <= 2 ^ la) by (apply Z.pow_le_mono_r; lia).
    rewrite Z.pow_add_r in M by lia. nia.
  - destruct (Z_lt_le_dec (la - lb) k) as [|Hge]; [assumption|exfalso].
    assert (M : 2 ^ (lb + k) <= 2 ^ la) by (apply Z.pow_le_mono_r; lia).
    rewrite Z.pow_add_r in M by lia.
    assert (C' : Z.pos b * 2 ^ la <= a * 2 ^ lb) by lia.
    assert (Z.pos b * (2 ^ lb * 2 ^ k) <= a * 2 ^ lb) by nia.
    nia.
Qed.

Lemma roundHalfEven_int (x : Q) (z : Z) : (x == inject_Z z)%Q -> roundHalfEven x = z.
Proof.
  intros H. unfold roundHalfEven.
  rewrite (Qfloor_comp _ _ H), Qfloor_Z.
  assert (E : (x - inject_Z z == 0)%Q) by (rewrite H; ring).
  rewrite (Qcompare_comp _ _ E _ _ (Qeq_refl _)). reflexivity.
Qed.

(** A multiple of [2 ^ -8] below [2 ^ 16] in magnitude has at most 24
    significant bits. *)
Lemma nearest32_grid (q : Q) (n : Z) :
  (q * 256 == inject_Z n)%Q -> Z.abs n < 2 ^ 24 -> (nearest32 q == q)%Q.
Proof.
  intros Hq Hn. unfold nearest32.
  pose proof (Qred_correct q) as Hr. set (r := Qred q) in *.
  destruct (Qeq_bool r 0) eqn:Z0.
  { apply Qeq_bool_iff in Z0. rewrite <- Hr, Z0. reflexivity. }
  assert (Hr0 : ~ (r == 0)%Q) by (intros E; apply Qeq_bool_iff in E; congruence).
  assert (Hrn : (r * 256 == inject_Z n)%Q) by (rewrite Hr; exact Hq).
  assert (Habs : (0 < Qabs r)%Q).
  { destruct (Qlt_le_dec 0 (Qabs r)) as [|L]; [assumption|exfalso].
    pose proof (Qabs_nonneg r) as N. assert (Z1 : (Qabs r == 0)%Q) by lra.
    clear L N. revert Z1. apply Qabs_case; intros; apply Hr0; lra. }
  assert (Hlt : (Qabs r < inject_Z (2 ^ 16))%Q).
  { assert (B : (- inject_Z (2 ^ 24) < inject_Z n < inject_Z (2 ^ 24))%Q).
    { split; [rewrite <- inject_Z_opp|]; rewrite <- Zlt_Qlt; lia. }
    change (inject_Z (2 ^ 24)) with 16777216%Q in B.
    change (inject_Z (2 ^ 16)) with 65536%Q.
    apply Qabs_case; intros; lra. }
  pose proof (ilog2_lt (Qabs r) 16 Habs ltac:(lia) Hlt) as Hl.
  set (u := Z.max (ilog2 (Qabs r) - 23) (-149)).
  assert (Hu : -149 <= u <= -8) by (unfold u; lia).
  clearbody u.
  assert (Hint : (r * pow2Q (- u) == inject_Z (n * 2 ^ (- u - 8)))%Q).
  { rewrite pow2Q_nonneg by lia.
    replace (- u) with (8 + (- u - 8)) at 1 by ring.
    rewrite Z.pow_add_r by lia.
    rewrite !inject_Z_mult, <- Hrn. change (inject_Z (2 ^ 8)) with 256%Q. ring. }
  rewrite (roundHalfEven_int _ _ Hint).
  rewrite <- Hr.
  assert (E : (inject_Z (n * 2 ^ (- u - 8)) == r * inject_Z (2 ^ (- u)))%Q).
  { rewrite <- Hint, pow2Q_nonneg by lia. reflexivity. }
  rewrite E.
  replace u with (- (- u)) at 2 by ring.
  rewrite <- Qmult_assoc, (Qmult_comm (inject_Z _)), pow2Q_neg by lia. ring.
Qed.

Lemma rnd32_grid (q : Q) (n : Z) :
  (q * 256 == inject_Z n)%Q -> Z.abs n < 2 ^ 24 -> rnd32 q = q.
Proof.
  intros Hq Hn. unfold rnd32.
  pose proof (nearest32_grid q n Hq Hn) as E.
  apply Qeq_bool_iff in E. rewrite E. reflexivity.
Qed.

Lemma nearest32_comp (a b : Q) : (a == b)%Q -> nearest32 a = nearest32 b.
Proof. intros H. unfold nearest32. rewrite (Qred_complete a b H). reflexivity. Qed.

Lemma rnd32_comp (a b : Q) : (a == b)%Q -> (rnd32 a == rnd32 b)%Q.
Proof.
  intros H. unfold rnd32. rewrite (nearest32_comp a b H).
  destruct (Qeq_bool (nearest32 b) a) eqn:A, (Qeq_bool (nearest32 b) b) eqn:B.
  - exact H.
  - apply Qeq_bool_iff in A. apply Qeq_sym. exact A.
  - apply Qeq_bool_iff in B. exact B.
  - reflexivity.
Qed.

(** [pow2Q] of a difference of two exponents. *)
Lemma pow2Q_sub (x y : Z) :
  0 <= x -> 0 <= y -> (pow2Q (x - y) * inject_Z (2 ^ y) == inject_Z (2 ^ x))%Q.
Proof.
  intros Hx Hy. destruct (Z_le_gt_dec y x) as [L|G].
  - rewrite pow2Q_nonneg by lia. rewrite <- inject_Z_mult, <- Z.pow_add_r by lia.
    replace (x - y + y) with x by ring. reflexivity.
  - replace (x - y) with (- (y - x)) by ring.
    replace y with ((y - x) + x) at 2 by ring.
    rewrite Z.pow_add_r, inject_Z_mult, Qmult_assoc by lia.
    rewrite pow2Q_neg by lia. ring.
Qed.

(** [ilog2] is the exponent of the leading bit. *)
Lemma ilog2_spec (q : Q) :
  (0 < q)%Q -> (pow2Q (ilog2 q) <= q)%Q /\ (q < pow2Q (ilog2 q + 1))%Q.
Proof.
  destruct q as [a b]. intros Ha.
  assert (Ha' : 0 < a) by (unfold Qlt in Ha; cbn in Ha; lia).
  unfold ilog2. cbn [Qnum Qden].
  pose proof (Z.log2_spec a Ha') as [La Ua].
  assert (Hb : 0 < Z.pos b) by lia.
  pose proof (Z.log2_spec (Z.pos b) Hb) as [Lb Ub].
  pose proof (Z.log2_nonneg a) as Na.
  pose proof (Z.log2_nonneg (Z.pos b)) as Nb.
  set (la := Z.log2 a) in *. set (lb := Z.log2 (Z.pos b)) in *.
  rewrite Z.pow_succ_r in Ua, Ub by assumption.
  assert (PA : 0 < 2 ^ la) by (apply Z.pow_pos_nonneg; lia).
  assert (PB : 0 < 2 ^ lb) by (apply Z.pow_pos_nonneg; lia).
  pose proof (pow2Q_sub la lb Na Nb) as E0.
  pose proof (pow2Q_sub la (lb + 1) Na ltac:(lia)) as E1.
  pose proof (pow2Q_sub (la + 1) lb ltac:(lia) Nb) as E2.
  rewrite Z.pow_add_r in E1, E2 by lia. change (2 ^ 1) with 2 in E1, E2.
  rewrite inject_Z_mult in E1, E2. change (inject_Z 2) with 2%Q in E1, E2.
  assert (QA : (0 < inject_Z (2 ^ la))%Q) by (change 0%Q with (inject_Z 0); rewrite <- Zlt_Qlt; lia).
  assert (QB : (0 < inject_Z (2 ^ lb))%Q) by (change 0%Q with (inject_Z 0); rewrite <- Zlt_Qlt; lia).
  (* the number as a quotient of two whole numbers *)
  assert (Eq : ((a # b) * inject_Z (Z.pos b) == inject_Z a)%Q).
  { unfold Qeq, Qmult, inject_Z. cbn [Qnum Qden]. rewrite Pos.mul_1_r. ring. }
  assert (Qb : (0 < inject_Z (Z.pos b))%Q) by (change 0%Q with (inject_Z 0); rewrite <- Zlt_Qlt; lia).
  assert (Zb1 : (inject_Z (2 ^ lb) <= inject_Z (Z.pos b))%Q) by (rewrite <- Zle_Qle; lia).
  assert (Zb2 : (inject_Z (Z.pos b) < 2 * inject_Z (2 ^ lb))%Q).
  { change 2%Q with (inject_Z 2). rewrite <- inject_Z_mult, <- Zlt_Qlt. lia. }
  assert (Za1 : (inject_Z (2 ^ la) <= inject_Z a)%Q) by (rewrite <- Zle_Qle; lia).
  assert (Za2 : (inject_Z a < 2 * inject_Z (2 ^ la))%Q).
  { change 2%Q with (inject_Z 2). rewrite <- inject_Z_mult, <- Zlt_Qlt. lia. }
  set (q := (a # b)%Q) in *. set (A := inject_Z (2 ^ la)) in *.
  set (B := inject_Z (2 ^ lb)) in *. set (a' := inject_Z a) in *.
  set (b' := inject_Z (Z.pos b)) in *.
  assert (Hq : (0 < q)%Q) by exact Ha.
  destruct (a * 2 ^ lb <? Z.pos b * 2 ^ la) eqn:C.
  - assert (C' : (a' * B < b' * A)%Q).
    { unfold a', B, b', A. rewrite <- !inject_Z_mult, <- Zlt_Qlt. lia. }
    replace (la - lb - 1) with (la - (lb + 1)) by ring.
    replace (la - (lb + 1) + 1) with (la - lb) by ring.
    set (P := pow2Q (la - (lb + 1))) in *. set (P' := pow2Q (la - lb)) in *.
    split.
    + (* P * 2B = A <= a = q b < q 2B *)
      destruct (Qlt_le_dec q P) as [Lt|]; [exfalso|assumption].
      assert (q * (B * 2) < P * (B * 2))%Q by (apply Qmult_lt_compat_r; lra).
      assert (q * b' <= q * (B * 2))%Q by (apply Qmult_le_l; lra).
      lra.
    + destruct (Qlt_le_dec q P') as [|Ge]; [assumption|exfalso].
      assert (P' * b' <= q * b')%Q by (apply Qmult_le_compat_r; lra).
      assert (M : (P' * b' * B == A * b')%Q).
      { assert (P' * b' * B == P' * B * b')%Q as -> by ring. rewrite E0. reflexivity. }
      assert (P' * b' * B <= q * b' * B)%Q by (apply Qmult_le_compat_r; lra).
      rewrite M, Eq in H0. lra.
  - assert (C' : (b' * A <= a' * B)%Q).
    { unfold a', B, b', A. rewrite <- !inject_Z_mult, <- Zle_Qle. lia. }
    replace (la - lb + 1) with (la + 1 - lb) by ring.
    set (P := pow2Q (la - lb)) in *. set (P' := pow2Q (la + 1 - lb)) in *.
    split.
    + destruct (Qlt_le_dec q P) as [Lt|]; [exfalso|assumption].
      assert (q * b' < P * b')%Q by (apply Qmult_lt_compat_r; lra).
      assert (M : (P * b' * B == A * b')%Q).
      { assert (P * b' * B == P * B * b')%Q as -> by ring. rewrite E0. reflexivity. }
      assert (q * b' * B < P * b' * B)%Q by (apply Qmult_lt_compat_r; lra).
      rewrite M, Eq in H0. lra.
    + destruct (Qlt_le_dec q P') as [|Ge]; [assumption|exfalso].
      assert (P' * B <= q * B)%Q by (apply Qmult_le_compat_r; lra).
      assert (q * B <= q * b')%Q by (apply Qmult_le_l; lra).
      lra.
Qed.

(** The model on numbers whose binary32 neighbours are known: 0.1f is
    13421773 * 2^-27, 2^24 + 1 is a tie and goes to the even 2^24, 2^24 + 3
    goes to 2^24 + 4, and half the least subnormal goes to 0. *)
Example nearest32_examples :
  (nearest32 (1 # 10) == 13421773 # 134217728)%Q
  /\ (nearest32 (inject_Z 16777217) == inject_Z 16777216)%Q
  /\ (nearest32 (inject_Z 16777219) == inject_Z 16777220)%Q
  /\ (nearest32 (- (1 # 3)) == - (11184811 # 33554432))%Q
  /\ (nearest32 (pow2Q (-150)) == 0)%Q
  /\ (nearest32 (3 * pow2Q (-150)) == pow2Q (-148))%Q.
Proof. repeat split; apply Qeq_bool_iff; vm_compute; reflexivity. Qed.

(** ** Rounding against whole numbers *)

Lemma roundHalfEven_near (x : Q) :
  (inject_Z (roundHalfEven x) - x <= 1 # 2)%Q /\ (x - inject_Z (roundHalfEven x) <= 1 # 2)%Q.
Proof.
  unfold roundHalfEven.
  pose proof (Qfloor_le x) as L. pose proof (Qlt_floor x) as U.
  rewrite inject_Z_plus in U. change (inject_Z 1) with 1%Q in U.
  set (f := Qfloor x) in *.
  destruct (Qcompare_spec (x - inject_Z f) (1 # 2)) as [E|E|E].
  - destruct (Z.even f); [|rewrite inject_Z_plus; change (inject_Z 1) with 1%Q]; lra.
  - lra.
  - rewrite inject_Z_plus; change (inject_Z 1) with 1%Q. lra.
Qed.

Lemma roundHalfEven_ge (x : Q) (z : Z) : (inject_Z z <= x)%Q -> z <= roundHalfEven x.
Proof.
  intros H. assert (F : z <= Qfloor x).
  { rewrite <- (Qfloor_Z z). apply Qfloor_resp_le. exact H. }
  unfold roundHalfEven.
  destruct (x - inject_Z (Qfloor x) ?= 1 # 2)%Q; [destruct (Z.even _)| |]; lia.
Qed.


Lemma pow2Q_pos (k : Z) : (0 < pow2Q k)%Q.
Proof.
  unfold pow2Q. destruct (0 <=? k) eqn:E.
  - change 0%Q with (inject_Z 0). rewrite <- Zlt_Qlt. apply Z.pow_pos_nonneg; lia.
  - reflexivity.
Qed.

Lemma roundHalfEven_comp (x y : Q) : (x == y)%Q -> roundHalfEven x = roundHalfEven y.
Proof.
  intros H. unfold roundHalfEven. rewrite (Qfloor_comp _ _ H).
  assert (E : (x - inject_Z (Qfloor y) == y - inject_Z (Qfloor y))%Q) by (rewrite H; reflexivity).
  rewrite (Qcompare_comp _ _ E _ _ (Qeq_refl _)). reflexivity.
Qed.

(** The weight of the last bit that [nearest32] keeps. *)
Lemma last_bit (r : Q) (j : Z) :
  ~ (r == 0)%Q -> 0 <= j <= 24 -> (Qabs r < inject_Z (2 ^ (24 - j)))%Q ->
  -149 <= Z.max (ilog2 (Qabs r) - 23) (-149) <= - j.
Proof.
  intros Hr0 Hj Hlt.
  assert (Habs : (0 < Qabs r)%Q).
  { destruct (Qlt_le_dec 0 (Qabs r)) as [|L]; [assumption|exfalso].
    pose proof (Qabs_nonneg r) as N. assert (Z1 : (Qabs r == 0)%Q) by lra.
    clear L N Hlt. revert Z1. apply Qabs_case; intros; apply Hr0; lra. }
  pose proof (ilog2_lt (Qabs r) (24 - j) Habs ltac:(lia) Hlt). lia.
Qed.

Lemma nearest32_unfold (q : Q) :
  (nearest32 q == 0 /\ q == 0)%Q
  \/ exists u, -149 <= u
       /\ (forall j, 0 <= j <= 24 -> (Qabs q < inject_Z (2 ^ (24 - j)))%Q -> u <= - j)
       /\ (nearest32 q == inject_Z (roundHalfEven (q * pow2Q (- u))) * pow2Q u)%Q.
Proof.
  unfold nearest32.
  pose proof (Qred_correct q) as Hr. set (r := Qred q) in *. clearbody r.
  destruct (Qeq_bool r 0) eqn:Z0.
  { left. apply Qeq_bool_iff in Z0. split; [reflexivity|]. rewrite <- Hr. exact Z0. }
  right.
  assert (Hr0 : ~ (r == 0)%Q) by (intros E; apply Qeq_bool_iff in E; congruence).
  exists (Z.max (ilog2 (Qabs r) - 23) (-149)). split; [lia|]. split.
  - intros j Hj Hlt. apply (last_bit r j Hr0 Hj).
    apply (Qle_lt_trans _ (Qabs q)); [|exact Hlt].
    rewrite (Qabs_wd _ _ Hr). apply Qle_refl.
  - assert (E : (r * pow2Q (- Z.max (ilog2 (Qabs r) - 23) (-149))
                 == q * pow2Q (- Z.max (ilog2 (Qabs r) - 23) (-149)))%Q)
      by (apply Qmult_comp; [exact Hr|reflexivity]).
    rewrite (roundHalfEven_comp _ _ E). reflexivity.
Qed.

Lemma rnd32_nearest (q : Q) : (rnd32 q == nearest32 q)%Q.
Proof.
  unfold rnd32. destruct (Qeq_bool (nearest32 q) q) eqn:E; [|reflexivity].
  apply Qeq_bool_iff in E. symmetry. exact E.
Qed.

Lemma pow2Q_inverse (u : Z) : u <= 0 -> (pow2Q u * inject_Z (2 ^ (- u)) == 1)%Q.
Proof.
  intros H. destruct (Z.eq_dec u 0) as [->|N].
  - reflexivity.
  - replace u with (- (- u)) at 1 by ring. apply pow2Q_neg. lia.
Qed.

(** A whole number on one side of the exact result is on the same side of
    the rounded one: below [2 ^ 24] in magnitude the last bit kept is worth
    at most 1. *)
Lemma rnd32_ge_int (x : Q) (k : Z) :
  (Qabs x < inject_Z (2 ^ 24))%Q -> (inject_Z k <= x)%Q -> (inject_Z k <= rnd32 x)%Q.
Proof.
  intros Hb Hk. rewrite rnd32_nearest.
  destruct (nearest32_unfold x) as [[E0 E1]|(u & Hu & Hj & E)].
  { rewrite E0, <- E1. exact Hk. }
  specialize (Hj 0 ltac:(lia) Hb).
  rewrite E.
  pose proof (pow2Q_pos u) as Pu. pose proof (pow2Q_inverse u ltac:(lia)) as Iu.
  assert (Y : (inject_Z (k * 2 ^ (- u)) <= x * pow2Q (- u))%Q).
  { rewrite pow2Q_nonneg by lia. rewrite inject_Z_mult.
    apply Qmult_le_compat_r; [exact Hk|].
    change 0%Q with (inject_Z 0). rewrite <- Zle_Qle. apply Z.pow_nonneg. lia. }
  apply roundHalfEven_ge in Y. rewrite Zle_Qle, inject_Z_mult in Y.
  assert (K : (inject_Z k == inject_Z k * inject_Z (2 ^ (- u)) * pow2Q u)%Q).
  { rewrite <- Qmult_assoc, (Qmult_comm (inject_Z (2 ^ (- u)))), Iu. ring. }
  rewrite K. apply Qmult_le_compat_r; [exact Y|lra].
Qed.


(** The rounding error is at most half the weight of the last bit kept. *)
Lemma rnd32_near (x : Q) (j : Z) :
  0 <= j <= 24 -> (Qabs x < inject_Z (2 ^ (24 - j)))%Q ->
  (Qabs (rnd32 x - x) * inject_Z (2 ^ (j + 1)) <= 1)%Q.
Proof.
  intros Hj0 Hb.
  assert (P : (0 < inject_Z (2 ^ (j + 1)))%Q).
  { change 0%Q with (inject_Z 0). rewrite <- Zlt_Qlt. apply Z.pow_pos_nonneg; lia. }
  rewrite rnd32_nearest.
  destruct (nearest32_unfold x) as [[E0 E1]|(u & Hu & Hj & E)].
  { rewrite E0, E1. change (Qabs (0 - 0)) with 0%Q. lra. }
  specialize (Hj j Hj0 Hb).
  rewrite E.
  pose proof (pow2Q_pos u) as Pu. pose proof (pow2Q_inverse u ltac:(lia)) as Iu.
  destruct (roundHalfEven_near (x * pow2Q (- u))) as [N1 N2].
  set (R := inject_Z (roundHalfEven (x * pow2Q (- u)))) in *.
  rewrite pow2Q_nonneg in N1, N2 by lia.
  (* 2 ^ (- u) = 2 ^ j * 2 ^ (- u - j) *)
  assert (S : (inject_Z (2 ^ (- u)) == inject_Z (2 ^ j) * inject_Z (2 ^ (- u - j)))%Q).
  { rewrite <- inject_Z_mult, <- Z.pow_add_r by lia. replace (j + (- u - j)) with (- u) by ring.
    reflexivity. }
  assert (S1 : (1 <= inject_Z (2 ^ (- u - j)))%Q).
  { change 1%Q with (inject_Z 1). rewrite <- Zle_Qle.
    assert (0 < 2 ^ (- u - j)) by (apply Z.pow_pos_nonneg; lia). lia. }
  assert (S2 : (inject_Z (2 ^ (j + 1)) == 2 * inject_Z (2 ^ j))%Q).
  { rewrite Z.pow_add_r by lia. rewrite inject_Z_mult. change (inject_Z (2 ^ 1)) with 2%Q. ring. }
  assert (S3 : (0 < inject_Z (2 ^ j))%Q).
  { change 0%Q with (inject_Z 0). rewrite <- Zlt_Qlt. apply Z.pow_pos_nonneg; lia. }
  set (A := inject_Z (2 ^ j)) in *. set (B := inject_Z (2 ^ (- u - j))) in *.
  set (T := inject_Z (2 ^ (- u))) in *. set (p := pow2Q u) in *.
  rewrite S2.
  (* (R p - x) * T = R - x T *)
  assert (D : ((R * p - x) * T == R - x * T)%Q).
  { assert ((R * p - x) * T == R * (p * T) - x * T)%Q as -> by ring. rewrite Iu. ring. }
  set (e := (R * p - x)%Q) in *.
  assert (DT : (e * (A * B) == R - x * T)%Q) by (rewrite <- S; exact D).
  apply Qabs_case; intros Hs.
  - assert (H0 : (0 <= e * A)%Q) by (apply Qmult_le_0_compat; lra).
    assert (H1 : (0 <= (e * A) * (B - 1))%Q) by (apply Qmult_le_0_compat; lra).
    assert (H2 : (e * (A * B) <= 1 # 2)%Q) by (rewrite DT; lra).
    assert (H3 : (e * A * (B - 1) == e * (A * B) - e * A)%Q) by ring.
    assert (H4 : (e * (2 * A) == 2 * (e * A))%Q) by ring.
    rewrite H4. lra.
  - assert (H0 : (0 <= (- e) * A)%Q) by (apply Qmult_le_0_compat; lra).
    assert (H1 : (0 <= ((- e) * A) * (B - 1))%Q) by (apply Qmult_le_0_compat; lra).
    assert (H2 : (- (e * (A * B)) <= 1 # 2)%Q) by (rewrite DT; lra).
    assert (H3 : ((- e) * A * (B - 1) == - (e * (A * B)) - (- e) * A)%Q) by ring.
    assert (H4 : (- e * (2 * A) == 2 * ((- e) * A))%Q) by ring.
    rewrite H4. lra.
Qed.

Lemma rnd32_fine (q : Q) (B : Z) : fine q B -> B < 2 ^ 24 -> rnd32 q = q.
Proof. intros (n & E & H) HB. apply (rnd32_grid q n E). lia. Qed.

Lemma fine_inject (m : Z) : fine (inject_Z m) (256 * Z.abs m).
Proof.
  exists (m * 256). split; [rewrite inject_Z_mult; reflexivity|lia].
Qed.

Lemma fine_half : fine half 128.
Proof. exists 128. split; [reflexivity|lia]. Qed.

Lemma fine_one : fine 1 256.
Proof. exists 256. split; [reflexivity|lia]. Qed.

Lemma fine_opp (a : Q) (A : Z) : fine a A -> fine (- a) A.
Proof.
  intros (n & E & H). exists (- n). split; [|lia].
  rewrite inject_Z_opp, <- E. ring.
Qed.

Lemma fine_plus (a b : Q) (A B : Z) : fine a A -> fine b B -> fine (a + b) (A + B).
Proof.
  intros (n & E & H) (k & F & G). exists (n + k). split; [|lia].
  rewrite inject_Z_plus, <- E, <- F. ring.
Qed.

Lemma fine_minus (a b : Q) (A B : Z) : fine a A -> fine b B -> fine (a - b) (A + B).
Proof. intros Ha Hb. apply fine_plus; [exact Ha|apply fine_opp; exact Hb]. Qed.

(** A tighter bound from the value itself. *)
Lemma fine_within (q : Q) (A B : Z) :
  fine q A -> (- inject_Z B <= q * 256 <= inject_Z B)%Q -> fine q B.
Proof.
  intros (n & E & _) [L U]. exists n. split; [exact E|].
  rewrite E in L, U. rewrite <- inject_Z_opp in L. rewrite <- Zle_Qle in L, U. lia.
Qed.

Lemma dyadic8_fine (c : Q) : dyadic8 c = true -> fine c 8388352.
Proof.
  unfold dyadic8. rewrite !andb_true_iff, Qeq_bool_iff, !Qle_bool_iff.
  intros [[E L] U]. exists (Qfloor (c * 256)). split; [symmetry; exact E|].
  assert (B : (- (8388352) <= c * 256 <= 8388352)%Q) by lra.
  rewrite <- E in B.
  change (- (8388352))%Q with (inject_Z (-8388352)) in B.
  change 8388352%Q with (inject_Z 8388352) in B.
  rewrite <- !Zle_Qle in B. lia.
Qed.

Lemma dyadicPoint_at3 (p : Vec3f) (i : Z) : dyadicPoint p = true -> fine (at3 p i) 8388352.
Proof.
  destruct p as [[x y] z]. unfold dyadicPoint. rewrite !andb_true_iff. intros [[X Y] Z0].
  apply dyadic8_fine. cbn [at3]. destruct i as [|[| |]|]; assumption.
Qed.

(** On the points of the grid the four sums of [insideTet] are exact. *)
Lemma insideTetAt32_dyadic (hc dd0 : Z) (tc : bccTetCentroid) (p : Vec3f) :
  dyadicPoint p = true -> insideTetAt32 hc dd0 tc p = insideTetAt hc dd0 tc p.
Proof.
  intros Hp. unfold insideTetAt32, insideTetAt. cbv zeta.
  pose proof (dyadicPoint_at3 p hc Hp) as Fh.
  pose proof (dyadicPoint_at3 p ((hc + 1) mod 3) Hp) as F1.
  pose proof (dyadicPoint_at3 p ((hc + 2) mod 3) Hp) as F2.
  set (h := at3 p hc) in *. set (c1 := at3 p ((hc + 1) mod 3)) in *.
  set (c2 := at3 p ((hc + 2) mod 3)) in *.
  rewrite (rnd32_fine (c2 - h) _ (fine_minus _ _ _ _ F2 Fh)) by lia.
  rewrite (rnd32_fine (- c2 - h) _ (fine_minus _ _ _ _ (fine_opp _ _ F2) Fh)) by lia.
  rewrite (rnd32_fine (c1 + h) _ (fine_plus _ _ _ _ F1 Fh)) by lia.
  rewrite (rnd32_fine (- c1 + h) _ (fine_plus _ _ _ _ (fine_opp _ _ F1) Fh)) by lia.
  rewrite (rnd32_fine (c2 + h) _ (fine_plus _ _ _ _ F2 Fh)) by lia.
  rewrite (rnd32_fine (- c2 + h) _ (fine_plus _ _ _ _ (fine_opp _ _ F2) Fh)) by lia.
  rewrite (rnd32_fine (c1 - h) _ (fine_minus _ _ _ _ F1 Fh)) by lia.
  rewrite (rnd32_fine (- c1 - h) _ (fine_minus _ _ _ _ (fine_opp _ _ F1) Fh)) by lia.
  reflexivity.
Qed.

Lemma insideTet32_dyadic (tc : bccTetCentroid) (p : Vec3f) :
  dyadicPoint p = true -> insideTet32 tc p = insideTet tc p.
Proof.
  intros Hp. unfold insideTet32, insideTet.
  destruct (insideTetScan 16 1 tc) as [[hc dd]|]; [|reflexivity].
  rewrite (insideTetAt32_dyadic _ _ _ _ Hp). reflexivity.
Qed.




(** ** The scale factors in binary32 *)

Lemma float2_0001_value : (float2_0001 == 8389027 # 4194304)%Q.
Proof. apply Qeq_bool_iff. vm_compute. reflexivity. Qed.

Lemma float2_00001_value : (float2_00001 == 4194325 # 2097152)%Q.
Proof. apply Qeq_bool_iff. vm_compute. reflexivity. Qed.

Lemma Qabs_nonneg_eq (x : Q) : (0 <= x)%Q -> (Qabs x == x)%Q.
Proof. intros H. apply Qabs_pos. exact H. Qed.

(** The conversion to [unsigned short] of a rounded value, from bounds on
    the exact one: [j] is the number of bits that binary32 keeps after the
    binary point at the size of [x]. *)
Lemma floatToUShort_rnd32 (x : Q) (n j : Z) :
  0 <= n < 65536 -> 0 <= j <= 24 ->
  (inject_Z n <= x)%Q -> (x < inject_Z (2 ^ (24 - j)))%Q ->
  ((x - inject_Z n) * inject_Z (2 ^ (j + 1)) + 1 < inject_Z (2 ^ (j + 1)))%Q ->
  floatToUShort (rnd32 x) = n.
Proof.
  intros Hn Hj L U Hfrac.
  assert (N0 : (0 <= inject_Z n)%Q).
  { change 0%Q with (inject_Z 0). rewrite <- Zle_Qle. lia. }
  assert (Hx : (0 <= x)%Q) by lra.
  assert (Ha : (Qabs x < inject_Z (2 ^ (24 - j)))%Q) by (rewrite Qabs_nonneg_eq; assumption).
  assert (Ha' : (Qabs x < inject_Z (2 ^ 24))%Q).
  { apply (Qlt_le_trans _ _ _ Ha). rewrite <- Zle_Qle. apply Z.pow_le_mono_r; lia. }
  pose proof (rnd32_ge_int x n Ha' L) as G.
  pose proof (rnd32_near x j Hj Ha) as E.
  assert (P : (0 < inject_Z (2 ^ (j + 1)))%Q).
  { change 0%Q with (inject_Z 0). rewrite <- Zlt_Qlt. apply Z.pow_pos_nonneg; lia. }
  set (T := inject_Z (2 ^ (j + 1))) in *.
  assert (Up : (rnd32 x < inject_Z n + 1)%Q).
  { assert (D : ((rnd32 x - x) * T <= 1)%Q).
    { apply (Qle_trans _ (Qabs (rnd32 x - x) * T)); [|exact E].
      apply Qmult_le_compat_r; [apply Qle_Qabs|lra]. }
    assert (D2 : ((rnd32 x - inject_Z n) * T < T)%Q).
    { assert ((rnd32 x - inject_Z n) * T == (rnd32 x - x) * T + (x - inject_Z n) * T)%Q as ->
        by ring. lra. }
    destruct (Qlt_le_dec (rnd32 x) (inject_Z n + 1)) as [|C]; [assumption|exfalso].
    assert (M : (1 * T <= (rnd32 x - inject_Z n) * T)%Q)
      by (apply Qmult_le_compat_r; lra).
    lra. }
  unfold floatToUShort, ushort.
  rewrite Qtrunc_nonneg by lra.
  rewrite (Qfloor_unique _ n).
  - apply Z.mod_small. exact Hn.
  - exact G.
  - rewrite inject_Z_plus. exact Up.
Qed.

(** [(unsigned short)(h * 2.00001f)] is twice [h] for every half of an
    [unsigned short]. *)
Lemma floatToUShort32_doubled (h : Q) (n : Z) :
  0 <= n < 65536 -> (h == inject_Z n / 2)%Q ->
  floatToUShort (rnd32 (h * float2_00001)) = n.
Proof.
  intros Hn Hh.
  assert (Hq : (0 <= inject_Z n)%Q).
  { change 0%Q with (inject_Z 0). rewrite <- Zle_Qle. lia. }
  assert (Hq' : (inject_Z n <= 65535)%Q).
  { change 65535%Q with (inject_Z 65535). rewrite <- Zle_Qle. lia. }
  assert (Hx : (h * float2_00001 == inject_Z n * (4194325 # 4194304))%Q).
  { rewrite Hh, float2_00001_value. field. }
  apply (floatToUShort_rnd32 _ n 8); [exact Hn|lia| | |].
  - rewrite Hx. lra.
  - rewrite Hx. change (inject_Z (2 ^ (24 - 8))) with 65536%Q. lra.
  - rewrite Hx. change (inject_Z (2 ^ (8 + 1))) with 512%Q. lra.
Qed.

(** [(unsigned short)(h * 2.0001f)] is twice [h] up to 20000: at 20001 the
    product is rounded to 20002. *)
Lemma floatToUShort32_doubled_coarse (h : Q) (n : Z) :
  0 <= n <= 20000 -> (h == inject_Z n / 2)%Q ->
  floatToUShort (rnd32 (h * float2_0001)) = n.
Proof.
  intros Hn Hh.
  assert (Hq : (0 <= inject_Z n)%Q).
  { change 0%Q with (inject_Z 0). rewrite <- Zle_Qle. lia. }
  assert (Hq' : (inject_Z n <= 20000)%Q).
  { change 20000%Q with (inject_Z 20000). rewrite <- Zle_Qle. lia. }
  assert (Hx : (h * float2_0001 == inject_Z n * (8389027 # 8388608))%Q).
  { rewrite Hh, float2_0001_value. field. }
  apply (floatToUShort_rnd32 _ n 9); [lia|lia| | |].
  - rewrite Hx. lra.
  - rewrite Hx. change (inject_Z (2 ^ (24 - 9))) with 32768%Q. lra.
  - rewrite Hx. change (inject_Z (2 ^ (9 + 1))) with 1024%Q. lra.
Qed.

(** From 20021 on the exact product is a whole number further. *)
Lemma floatToUShort32_doubled_beyond (h : Q) (n : Z) :
  20021 <= n <= 40000 -> (h == inject_Z n / 2)%Q ->
  floatToUShort (rnd32 (h * float2_0001)) = n + 1.
Proof.
  intros Hn Hh.
  assert (Hq : (20021 <= inject_Z n)%Q).
  { change 20021%Q with (inject_Z 20021). rewrite <- Zle_Qle. lia. }
  assert (Hq' : (inject_Z n <= 40000)%Q).
  { change 40000%Q with (inject_Z 40000). rewrite <- Zle_Qle. lia. }
  assert (Hx : (h * float2_0001 == inject_Z n * (8389027 # 8388608))%Q).
  { rewrite Hh, float2_0001_value. field. }
  apply (floatToUShort_rnd32 _ (n + 1) 8); [lia|lia| | |].
  - rewrite Hx, inject_Z_plus. change (inject_Z 1) with 1%Q. lra.
  - rewrite Hx. change (inject_Z (2 ^ (24 - 8))) with 65536%Q. lra.
  - rewrite Hx, inject_Z_plus. change (inject_Z 1) with 1%Q.
    change (inject_Z (2 ^ (8 + 1))) with 512%Q. lra.
Qed.

Lemma rnd32_nonneg (x : Q) :
  (Qabs x < inject_Z (2 ^ 24))%Q -> (0 <= x)%Q -> (0 <= rnd32 x)%Q.
Proof. intros Hb H. apply (rnd32_ge_int x 0 Hb). exact H. Qed.

(** Between 20001 and 20020 the exact product is below the next whole
    number by less than half the last bit, and is rounded to it. *)
Lemma floatToUShort32_doubled_edge (h : Q) (n : Z) :
  20001 <= n <= 20020 -> (h == inject_Z n / 2)%Q ->
  floatToUShort (rnd32 (h * float2_0001)) = n + 1.
Proof.
  intros Hn Hh.
  assert (E : (rnd32 (h * float2_0001) == rnd32 (inject_Z n / 2 * float2_0001))%Q).
  { apply rnd32_comp. rewrite Hh. reflexivity. }
  assert (Hq : (20001 <= inject_Z n)%Q).
  { change 20001%Q with (inject_Z 20001). rewrite <- Zle_Qle. lia. }
  assert (Hq' : (inject_Z n <= 20020)%Q).
  { change 20020%Q with (inject_Z 20020). rewrite <- Zle_Qle. lia. }
  assert (Hx : (h * float2_0001 == inject_Z n * (8389027 # 8388608))%Q).
  { rewrite Hh, float2_0001_value. field. }
  unfold floatToUShort.
  rewrite Qtrunc_nonneg.
  2:{ apply rnd32_nonneg; [|rewrite Hx; lra].
      rewrite Qabs_nonneg_eq by (rewrite Hx; lra).
      rewrite Hx. change (inject_Z (2 ^ 24)) with 16777216%Q. lra. }
  rewrite (Qfloor_comp _ _ E).
  assert (L : In n [20001; 20002; 20003; 20004; 20005; 20006; 20007; 20008; 20009; 20010;
                    20011; 20012; 20013; 20014; 20015; 20016; 20017; 20018; 20019; 20020])
    by (cbn [In]; lia).
  clear - L. cbn [In] in L.
  repeat (destruct L as [<-|L]; [vm_compute; reflexivity|]).
  destruct L.
Qed.

Lemma floatToUShort32_doubled_off (h : Q) (n : Z) :
  20001 <= n <= 40000 -> (h == inject_Z n / 2)%Q ->
  floatToUShort (rnd32 (h * float2_0001)) = n + 1.
Proof.
  intros Hn Hh. destruct (Z_le_gt_dec n 20020).
  - apply floatToUShort32_doubled_edge; [lia|exact Hh].
  - apply floatToUShort32_doubled_beyond; [lia|exact Hh].
Qed.

(** ** The six centroids of a cube in binary32 *)

Ltac fine_tac :=
  repeat first [ eassumption | apply fine_half | apply fine_one | apply fine_opp
               | apply fine_minus | apply fine_plus | apply fine_inject ].

(** Removes the roundings of sums that binary32 holds, innermost first. *)
Ltac exact32 :=
  repeat match goal with
    | |- context [rnd32 ?q] =>
        lazymatch q with
        | context [rnd32 _] => fail
        | context [float2_0001] => fail
        | context [float2_00001] => fail
        | _ => idtac
        end;
        let H := fresh "Hfine" in
        eassert (H : fine q _) by fine_tac;
        rewrite (rnd32_fine q _ H) by lia; clear H
    end.

Lemma unitCubeCentroids32_exact (m : triple Z) :
  cubeInRange m = true -> unitCubeCentroids32 m = unitCubeCentroids m.
Proof.
  destruct m as [[m0 m1] m2]. intros H.
  rewrite (unitCubeCentroids_explicit m0 m1 m2 H).
  unfold cubeInRange in H.
  unfold unitCubeCentroids32, unitCubeCentroidLoci32. cbn [at3].
  destruct (truthy (Z.land m0 1)), (truthy (Z.land m1 1)), (truthy (Z.land m2 1));
    cbn [Bool.eqb andb];
    cbv beta iota zeta delta [flat_map map app];
    change (0 <? 2) with true; change (1 <? 2) with true; change (2 <? 2) with false;
    cbv beta iota zeta;
    change (0 + 1) with 1; change (1 + 1) with 2;
    change (1 <? 2) with true; change (2 <? 2) with false; change (0 <? 2) with true;
    cbv beta iota zeta;
    change (0 + 1) with 1; change (1 + 1) with 2;
    cbv beta iota zeta delta [addF32 set3 at3 vscale32 vecToCentroid];
    exact32;
    repeat f_equal;
    (apply floatToUShort32_doubled; [lia | push_inject; unfold half; field]).
Qed.

(** ** [gridLocusToLowestTetCentroid] in binary32 *)

(** Both conversions of a doubled half-integer give the whole number. *)
Lemma doubled_coarse_agree (h : Q) (n : Z) :
  0 <= n < 20000 -> (h == inject_Z n / 2)%Q ->
  floatToUShort (rnd32 (h * float2_0001)) = floatToUShort (h * (20001 # 10000)).
Proof.
  intros Hn Hh.
  rewrite (floatToUShort32_doubled_coarse h n) by (assumption || lia).
  rewrite (floatToUShort_doubled_coarse h n) by assumption. reflexivity.
Qed.

Ltac agree_at m :=
  first [ apply (doubled_coarse_agree _ (2 * m + 1)); [lia | push_inject; unfold half; field]
        | apply (doubled_coarse_agree _ (2 * m)); [lia | push_inject; unfold half; field]
        | apply (doubled_coarse_agree _ (2 * m + 2)); [lia | push_inject; unfold half; field] ].

Ltac agree :=
  match goal with
  | |- floatToUShort (rnd32 (?h * _)) = _ =>
      match h with
      | context [inject_Z ?m] => agree_at m
      end
  end.

(** On the points of the grid, in the cubes up to 9998,
    [gridLocusToLowestTetCentroid] returns in binary32 what it returns in
    exact arithmetic. *)
Lemma lowestTetCentroid32_dyadic (m : triple Z) (p : Vec3f) :
  lowRange m = true -> inCell m p -> dyadicPoint p = true ->
  gridLocusToLowestTetCentroid32 p = gridLocusToLowestTetCentroid p.
Proof.
  destruct m as [[m0 m1] m2], p as [[x y] z]. intros Hr Hc Hd.
  pose proof (dyadicPoint_at3 _ 0 Hd) as Fx.
  pose proof (dyadicPoint_at3 _ 1 Hd) as Fy.
  pose proof (dyadicPoint_at3 _ 2 Hd) as Fz.
  cbn [at3] in Fx, Fy, Fz. clear Hd.
  unfold inCell in Hc. unfold lowRange in Hr.
  assert (Ex : Qfloor x = m0) by (apply Qfloor_unique; push_inject; lra).
  assert (Ey : Qfloor y = m1) by (apply Qfloor_unique; push_inject; lra).
  assert (Ez : Qfloor z = m2) by (apply Qfloor_unique; push_inject; lra).
  unfold gridLocusToLowestTetCentroid32, gridLocusToLowestTetCentroid; cbn [at3].
  rewrite Ex, Ey, Ez. rewrite !sshort_small by lia.
  clear Hc Ex Ey Ez.
  cbv zeta; cbn [at3].
  cbv beta iota zeta delta [addF32 addF set3 at3].
  exact32.
  destruct (Bool.eqb _ _ && Bool.eqb _ _); [|destruct (Bool.eqb _ _); [|destruct (Bool.eqb _ _)]].
  all: repeat match goal with
         | |- context [gt ?a ?b] => destruct (gt a b)
         end; cbn [andb]; cbv iota.
  all: cbv beta iota zeta delta [vscale32 vscale vecToCentroid].
  all: triple_eq; agree.
Qed.

(** ** The tiling of the unit cube in binary32 *)

Lemma fine_dyadic8 (c : Q) (B : Z) :
  fine c B -> (- (32767) <= c <= 32767)%Q -> dyadic8 c = true.
Proof.
  intros (n & E & _) [L U]. unfold dyadic8.
  rewrite !andb_true_iff, Qeq_bool_iff, !Qle_bool_iff.
  split; [split|]; try assumption.
  rewrite (Qfloor_comp _ _ E), Qfloor_Z. symmetry. exact E.
Qed.








(** ** [gridLocusToLowestTetCentroid] and [insideTet] in binary32 *)

Lemma lowRange_dyadic_shift (m : Z) (d : Q) :
  0 <= m <= 9998 -> (0 <= d)%Q -> (d < 1)%Q -> dyadic8 d = true ->
  dyadic8 (inject_Z m + d) = true.
Proof.
  intros Hm H0 H1 Hd.
  assert (B : (0 <= inject_Z m <= 9998)%Q).
  { change 0%Q with (inject_Z 0). change 9998%Q with (inject_Z 9998).
    rewrite <- !Zle_Qle. exact Hm. }
  apply (fine_dyadic8 _ _ (fine_plus _ _ _ _ (fine_inject m) (dyadic8_fine d Hd))). lra.
Qed.

(** X5: in binary32, a point of the grid of step [2 ^ -8] that is strictly
    inside one of the six tets of [unitCubeCentroids] gets the centroid of
    that tet from [gridLocusToLowestTetCentroid], for cubes with coordinates
    up to 9998. *)
Theorem lowestTetCentroid32_of_interior (m : triple Z) (i : nat) (p : Vec3f) :
  lowRange m = true ->
  (i < 6)%nat ->
  inCell m p ->
  dyadicPoint p = true ->
  insideTet32 (nth i (unitCubeCentroids32 m) (0, 0, 0)) p = Some true ->
  onTetFace (nth i (unitCubeCentroids32 m) (0, 0, 0)) p = false ->
  gridLocusToLowestTetCentroid32 p = nth i (unitCubeCentroids32 m) (0, 0, 0).
Proof.
  intros Hr Hi Hc Hd Hin Hface.
  rewrite (unitCubeCentroids32_exact m (lowRange_cubeInRange m Hr)) in *.
  rewrite (insideTet32_dyadic _ p Hd) in Hin.
  rewrite (lowestTetCentroid32_dyadic m p Hr Hc Hd).
  exact (lowestTetCentroid_of_interior_exact m i p Hr Hi Hc Hin Hface).
Qed.

Lemma lowestTetCentroid32_of_interior_witness :
  gridLocusToLowestTetCentroid32 (3 # 4, 1 # 4, 3 # 8)%Q
  = nth 4 (unitCubeCentroids32 (0, 0, 0)) (0, 0, 0).
Proof.
  apply (lowestTetCentroid32_of_interior (0, 0, 0) 4 (3 # 4, 1 # 4, 3 # 8)%Q).
  - reflexivity.
  - lia.
  - vm_compute. repeat split; (reflexivity || discriminate).
  - reflexivity.
  - vm_compute. reflexivity.
  - vm_compute. reflexivity.
Defined.

(** X7: the comparisons of [gridLocusToLowestTetCentroid] are strict, and a
    tie of the two largest offsets falls through to the last branch.  In
    binary32, in a cube whose corner has three coordinates of one parity, a
    point with equal offsets [d] on the first two axes and a smaller offset
    [e] on the third, both multiples of [2 ^ -8], gets the centroid of the tet
    of the third axis, and [insideTet] rejects the point for that centroid. *)
Theorem lowestTetCentroid32_misses_on_tie (m0 m1 m2 : Z) (d e : Q) :
  lowRange (m0, m1, m2) = true ->
  m0 mod 2 = m1 mod 2 ->
  m0 mod 2 = m2 mod 2 ->
  (0 <= e < d)%Q -> (d < 1)%Q ->
  dyadic8 d = true -> dyadic8 e = true ->
  let p : Vec3f := (inject_Z m0 + d, inject_Z m1 + d, inject_Z m2 + e)%Q in
  gridLocusToLowestTetCentroid32 p = (2 * m0, 2 * m1 + 1, 2 * (m2 + 1))
  /\ insideTet32 (gridLocusToLowestTetCentroid32 p) p = Some false.
Proof.
  intros Hr P1 P2 He Hd Dd De p.
  assert (Hp : dyadicPoint p = true).
  { unfold p, dyadicPoint. unfold lowRange in Hr.
    rewrite !lowRange_dyadic_shift by (assumption || lia || lra). reflexivity. }
  assert (Hc : inCell (m0, m1, m2) p).
  { unfold p, inCell. lra. }
  rewrite (lowestTetCentroid32_dyadic (m0, m1, m2) p Hr Hc Hp).
  rewrite (insideTet32_dyadic _ p Hp).
  exact (lowestTetCentroid_misses_on_tie_exact m0 m1 m2 d e Hr P1 P2 He Hd).
Qed.

Lemma lowestTetCentroid32_misses_on_tie_witness :
  let p : Vec3f := (inject_Z 0 + (1 # 2), inject_Z 0 + (1 # 2), inject_Z 0 + (1 # 4))%Q in
  gridLocusToLowestTetCentroid32 p = (2 * 0, 2 * 0 + 1, 2 * (0 + 1))
  /\ insideTet32 (gridLocusToLowestTetCentroid32 p) p = Some false.
Proof.
  apply (lowestTetCentroid32_misses_on_tie 0 0 0 (1 # 2) (1 # 4)); try reflexivity; lra.
Defined.

(** X18: in binary32 the subtets lie inside the tet they subdivide, on the
    grid of step [2 ^ -8].  For a valid tet code [tc] that [subtetCentroids]
    subdivides and every entry [child] of the result other than the
    sentinel, a point of the grid that [insideTet] accepts for [child] is
    accepted for [tc]. *)
Theorem subtetCentroids_inside_parent32
    (tc child : bccTetCentroid) (l : list bccTetCentroid) (p : Vec3f) :
  validCentroid tc = true ->
  subtetCentroids tc = Done l ->
  In child l ->
  child <> invalidCentroid ->
  dyadicPoint p = true ->
  insideTet32 child p = Some true ->
  insideTet32 tc p = Some true.
Proof.
  intros Hv Hsub Hin Hch Hd. rewrite !(insideTet32_dyadic _ p Hd).
  exact (subtetCentroids_inside_parent_exact tc child l p Hv Hsub Hin Hch).
Qed.

Lemma subtetCentroids_inside_parent32_witness :
  insideTet32 (6, 4, 8) (5 # 2, 2 # 1, 13 # 4)%Q = Some true.
Proof.
  apply (subtetCentroids_inside_parent32 (6, 4, 8) (5, 4, 6)
           [(7, 2, 8); (7, 6, 8); (5, 4, 6); (5, 4, 10);
            (6, 3, 8); (6, 5, 8); (6, 4, 7); (6, 4, 9)]).
  - reflexivity.
  - reflexivity.
  - cbn [In]. tauto.
  - discriminate.
  - reflexivity.
  - vm_compute. reflexivity.
Defined.

Lemma beyondScale_cubeInRange (m : triple Z) : beyondScale m = true -> cubeInRange m = true.
Proof. destruct m as [[m0 m1] m2]. unfold beyondScale, cubeInRange. lia. Qed.

Lemma code32_beyond (m : Z) :
  10001 <= m <= 19998 ->
  floatToUShort (rnd32 ((inject_Z m + half + half) * float2_0001)) = 2 * m + 3
  /\ floatToUShort (rnd32 ((inject_Z m + half) * float2_0001)) = 2 * m + 2
  /\ floatToUShort (rnd32 ((inject_Z m + half + - half) * float2_0001)) = 2 * m + 1.
Proof.
  intros Hm. repeat split.
  - replace (2 * m + 3) with (2 * m + 2 + 1) by ring.
    apply floatToUShort32_doubled_off; [lia | push_inject; unfold half; field].
  - replace (2 * m + 2) with (2 * m + 1 + 1) by ring.
    apply floatToUShort32_doubled_off; [lia | push_inject; unfold half; field].
  - apply floatToUShort32_doubled_off; [lia | push_inject; unfold half; field].
Qed.

Lemma code32_coarse (m : Z) :
  0 <= m <= 9998 ->
  floatToUShort (rnd32 ((inject_Z m + half + half) * float2_0001)) = 2 * m + 2
  /\ floatToUShort (rnd32 ((inject_Z m + half) * float2_0001)) = 2 * m + 1
  /\ floatToUShort (rnd32 ((inject_Z m + half + - half) * float2_0001)) = 2 * m.
Proof.
  intros Hm. repeat split;
    (apply floatToUShort32_doubled_coarse; [lia | push_inject; unfold half; field]).
Qed.

Ltac shifted_member :=
  first
    [ eexists; split; [left; reflexivity | cbn [at3]; triple_eq; lia]
    | eexists; split; [right; left; reflexivity | cbn [at3]; triple_eq; lia]
    | eexists; split; [right; right; left; reflexivity | cbn [at3]; triple_eq; lia]
    | eexists; split; [right; right; right; left; reflexivity | cbn [at3]; triple_eq; lia]
    | eexists; split; [right; right; right; right; left; reflexivity
                      | cbn [at3]; triple_eq; lia]
    | eexists; split; [right; right; right; right; right; left; reflexivity
                      | cbn [at3]; triple_eq; lia] ].

(** X8: from the coordinate 10001 on the factor [2.0001f] is too coarse.  In
    binary32, for every point of a cube whose first coordinate is between
    10001 and 19998, the result of [gridLocusToLowestTetCentroid] is one of the
    six centroids of the cube with one added to its first coordinate, and is
    none of the six. *)
Theorem lowestTetCentroid32_scale_limit (m : triple Z) (p : Vec3f) :
  beyondScale m = true ->
  inCell m p ->
  (exists c : bccTetCentroid,
     In c (unitCubeCentroids32 m)
     /\ gridLocusToLowestTetCentroid32 p = (at3 c 0 + 1, at3 c 1, at3 c 2))
  /\ ~ In (gridLocusToLowestTetCentroid32 p) (unitCubeCentroids32 m).
Proof.
  destruct m as [[m0 m1] m2], p as [[x y] z]. intros Hr Hc.
  unfold inCell in Hc.
  rewrite (unitCubeCentroids32_exact _ (beyondScale_cubeInRange _ Hr)).
  rewrite (unitCubeCentroids_explicit m0 m1 m2 (beyondScale_cubeInRange _ Hr)).
  unfold beyondScale in Hr.
  assert (Fx : Qfloor x = m0) by (apply Qfloor_unique; push_inject; lra).
  assert (Fy : Qfloor y = m1) by (apply Qfloor_unique; push_inject; lra).
  assert (Fz : Qfloor z = m2) by (apply Qfloor_unique; push_inject; lra).
  unfold gridLocusToLowestTetCentroid32; cbn [at3]; rewrite Fx, Fy, Fz.
  rewrite !sshort_small by lia.
  clear Hc Fx Fy Fz.
  cbv zeta; cbn [at3].
  rewrite !truthy_land1_eqb, !eqb_parity.
  destruct (code32_beyond m0 ltac:(lia)) as (X0 & X1 & X2).
  destruct (code32_coarse m1 ltac:(lia)) as (Y0 & Y1 & Y2).
  destruct (code32_coarse m2 ltac:(lia)) as (Z0 & Z1 & Z2).
  destruct (m0 mod 2 =? m1 mod 2), (m0 mod 2 =? m2 mod 2); cbn [andb at3]; cbv iota.
  all: repeat match goal with
         | |- context [gt ?a ?b] => destruct (gt a b)
         end; cbn [andb]; cbv iota.
  all: cbv beta iota zeta delta [addF32 set3 at3 vscale32 vecToCentroid].
  all: exact32.
  all: rewrite ?X0, ?X1, ?X2, ?Y0, ?Y1, ?Y2, ?Z0, ?Z1, ?Z2.
  all: clear; split; [shifted_member|].
  all: intros H; cbn [In] in H.
  all: repeat (destruct H as [H|H];
              [apply pair_equal_spec in H as [H H3]; apply pair_equal_spec in H as [H1 H2]; lia|]).
  all: exact H.
Qed.

Lemma lowestTetCentroid32_scale_limit_witness :
  (exists c : bccTetCentroid,
     In c (unitCubeCentroids32 (10001, 0, 0))
     /\ gridLocusToLowestTetCentroid32 (40005 # 4, 3 # 4, 1 # 2)%Q
        = (at3 c 0 + 1, at3 c 1, at3 c 2))
  /\ ~ In (gridLocusToLowestTetCentroid32 (40005 # 4, 3 # 4, 1 # 2)%Q)
          (unitCubeCentroids32 (10001, 0, 0)).
Proof.
  apply (lowestTetCentroid32_scale_limit (10001, 0, 0) (40005 # 4, 3 # 4, 1 # 2)%Q).
  - reflexivity.
  - vm_compute. repeat split; (reflexivity || discriminate).
Defined.
